(** * webmark: a command-line bookmark manager

    A shallow embedding of [webmark.py] and the properties of its storage
    layer, its commands and its command-line configuration.

    Conventions of the embedding.
    - Python [str] is [string]; a character is an [ascii].
    - An exception is a value of [exn]; code that may raise returns a
      [result].  A generator is the finite sequence [generated] of the
      values it yields, ended by [StopIteration] or by the exception that
      escapes from it.
    - The file system is a finite map from the paths of the regular files
      to their text, as the encoding of the locale decodes it.  What the
      operating system or the encoding may refuse is outside the model:
      [open] always succeeds, and every text can be written, to a file
      or to standard output, and read back.  (In the program a string or
      a file that the encoding refuses ends [save] or [load] with a
      [UnicodeError], for which [exn] has no value; [save] then leaves
      the file as far as it was written.)  Text files follow POSIX
      conventions: [os.linesep] is a line feed.
    - The standard library modules the program calls ([csv], [argparse],
      [os.path.expanduser]) are modelled after CPython 3.11, each as far
      as is said where its model stands. *)

From Stdlib Require Import Ascii String NArith ZArith Lia.
From stdpp Require Import base option list gmap strings.

Local Open Scope string_scope.

(** ** Characters and strings *)

Definition LF : ascii := "010"%char.
Definition CR : ascii := "013"%char.
Definition TAB : ascii := "009"%char.
Definition SPACE : ascii := " "%char.
Definition DQUOTE : ascii := "034"%char.

Definition chr (c : ascii) : string := String c "".

Definition ascii_eqb (a b : ascii) : bool := bool_decide (a = b).

(** [c in s] for a character [c]. *)
Fixpoint str_contains (c : ascii) (s : string) : bool :=
  match s with
  | "" => false
  | String d s' => ascii_eqb c d || str_contains c s'
  end.

(** [s.startswith(p)] *)
Fixpoint startswith (p s : string) : bool :=
  match p, s with
  | "", _ => true
  | String a p', String b s' => ascii_eqb a b && startswith p' s'
  | String _ _, "" => false
  end.

(** ["".join(l)] *)
Fixpoint str_concat (l : list string) : string :=
  match l with
  | [] => ""
  | s :: l' => s ++ str_concat l'
  end.

(** ** Exceptions, results and generators *)

Inductive exn : Type :=
| ApplicationError (msg : string)
| ArgumentsError (msg : string)
| TypeError
| KeyError
| IndexError
| csv_Error
| SystemExit (status : Z).

Inductive result (A : Type) : Type :=
| Ok (a : A)
| Raise (e : exn).
Arguments Ok {A} a.
Arguments Raise {A} e.

(** What a generator produces when it is run to its end. *)
Inductive generated (A : Type) : Type :=
| StopIteration
| Yield (x : A) (rest : generated A)
| Raised (e : exn).
Arguments StopIteration {A}.
Arguments Yield {A} x rest.
Arguments Raised {A} e.

Fixpoint yield_all {A} (l : list A) : generated A :=
  match l with
  | [] => StopIteration
  | x :: l' => Yield x (yield_all l')
  end.

(** [map(f, g)] for an [f] that may raise. *)
Fixpoint gen_map {A B} (f : A → result B) (g : generated A) : generated B :=
  match g with
  | StopIteration => StopIteration
  | Yield x rest =>
      match f x with
      | Ok y => Yield y (gen_map f rest)
      | Raise e => Raised e
      end
  | Raised e => Raised e
  end.

(** ** Bookmark *)

Record Bookmark : Type := mkBookmark {
  code : string;
  url : string;
  description : string
}.

Global Instance Bookmark_eq_dec : EqDecision Bookmark.
Proof. solve_decision. Defined.

(** The constructor [Bookmark] applied to an unpacked argument list: three
    positional arguments, a [TypeError] otherwise. *)
Definition Bookmark_new (args : list string) : result Bookmark :=
  match args with
  | [c; u; d] => Ok (mkBookmark c u d)
  | _ => Raise TypeError
  end.

(** [Bookmark._make(row)]: the namedtuple constructor from an iterable. *)
Definition Bookmark_make (row : list string) : result Bookmark :=
  match row with
  | [c; u; d] => Ok (mkBookmark c u d)
  | _ => Raise TypeError
  end.

(** Iterating a [Bookmark] (it is a tuple) gives its three fields. *)
Definition Bookmark_iter (b : Bookmark) : list string :=
  [code b; url b; description b].

(** [Bookmark.__str__] *)
Definition Bookmark_str (b : Bookmark) : string :=
  "[" ++ code b ++ "] " ++ url b ++ " - " ++ description b.

(** ** The csv module, for the dialect of [CSVObjectStorage]

    [Dialect] holds the two dialect attributes the program sets; the
    others keep the defaults of the [excel] dialect: [doublequote] is
    true, there is no [escapechar], [skipinitialspace] and [strict] are
    false, [quoting] is [QUOTE_MINIMAL] and [lineterminator] is CR LF.
    The writer and the reader follow [Modules/_csv.c]; the reader states
    that only an [escapechar] reaches are left out. *)

Record Dialect : Type := {
  delimiter : ascii;
  quotechar : ascii
}.

Definition lineterminator : string := String CR (String LF "").

(** [csv.field_size_limit()], 128 * 1024 unless the program changes it. *)
Definition field_limit : N := 131072%N.

Module Writer.

(** The test of [join_append_data] that decides whether a character
    forces the field to be quoted. *)
Definition special (fmt : Dialect) (c : ascii) : bool :=
  ascii_eqb c (delimiter fmt) || ascii_eqb c (quotechar fmt)
  || str_contains c lineterminator.

(** [join_append_data]: the flag [quoted] after the scan of the field
    and the characters copied for it, an embedded quote doubled. *)
Fixpoint join_append_data (fmt : Dialect) (field : string) (quoted : bool)
  : bool * string :=
  match field with
  | "" => (quoted, "")
  | String c field' =>
      let quoted := if special fmt c then true else quoted in
      let '(quoted, out) := join_append_data fmt field' quoted in
      (quoted,
       if ascii_eqb c (quotechar fmt)
       then String (quotechar fmt) (String c out)
       else String c out)
  end.

Record WriterObj : Type := {
  rec_buf : string;
  num_fields : nat
}.

Definition join_reset : WriterObj := {| rec_buf := ""; num_fields := 0 |}.

(** [join_append]: the delimiter when this is not the first field, then
    the field, between quotes when [quoted] comes out true. *)
Definition join_append (fmt : Dialect) (self : WriterObj)
    (field : string) (quoted : bool) : WriterObj :=
  let '(quoted, data) := join_append_data fmt field quoted in
  let sep := match num_fields self with
             | O => ""
             | S _ => chr (delimiter fmt)
             end in
  let q := if quoted then chr (quotechar fmt) else "" in
  {| rec_buf := rec_buf self ++ sep ++ q ++ data ++ q;
     num_fields := S (num_fields self) |}.

(** [writerow]: the text handed to the file's [write].  A row made of a
    single empty field is written as a pair of quotes. *)
Definition writerow (fmt : Dialect) (row : list string) : string :=
  let self :=
    fold_left (λ self field, join_append fmt self field false) row join_reset in
  let self :=
    match num_fields self, rec_buf self with
    | S n, "" =>
        join_append fmt {| rec_buf := ""; num_fields := n |} "" true
    | _, _ => self
    end in
  rec_buf self ++ lineterminator.

End Writer.

Module Reader.

Inductive ParserState : Type :=
| START_RECORD
| START_FIELD
| IN_FIELD
| IN_QUOTED_FIELD
| QUOTE_IN_QUOTED_FIELD
| EAT_CRNL.

Global Instance ParserState_eq_dec : EqDecision ParserState.
Proof. solve_decision. Defined.

Record ReaderObj : Type := mkReader {
  fields : list string;
  field : string;
  state : ParserState
}.

(** A character of the line, or the end of the line. *)
Inductive input : Type :=
| Chr (c : ascii)
| EOL.

Definition parse_reset : ReaderObj :=
  {| fields := []; field := ""; state := START_RECORD |}.

Definition set_state (self : ReaderObj) (s : ParserState) : ReaderObj :=
  {| fields := fields self; field := field self; state := s |}.

Definition parse_save_field (self : ReaderObj) : ReaderObj :=
  {| fields := fields self ++ [field self]; field := ""; state := state self |}.

Definition parse_add_char (self : ReaderObj) (c : ascii) : result ReaderObj :=
  if (field_limit <=? N.of_nat (String.length (field self)))%N
  then Raise csv_Error
  else Ok {| fields := fields self;
             field := field self ++ chr c;
             state := state self |}.

Definition is_newline (c : ascii) : bool := ascii_eqb c LF || ascii_eqb c CR.

(** The [START_FIELD] case, also reached from [START_RECORD]. *)
Definition start_field (fmt : Dialect) (self : ReaderObj) (c : input)
  : result ReaderObj :=
  match c with
  | EOL => Ok (set_state (parse_save_field self) START_RECORD)
  | Chr c =>
      if is_newline c then Ok (set_state (parse_save_field self) EAT_CRNL)
      else if ascii_eqb c (quotechar fmt) then Ok (set_state self IN_QUOTED_FIELD)
      else if ascii_eqb c (delimiter fmt) then Ok (parse_save_field self)
      else match parse_add_char self c with
           | Ok self => Ok (set_state self IN_FIELD)
           | Raise e => Raise e
           end
  end.

Definition parse_process_char (fmt : Dialect) (self : ReaderObj) (c : input)
  : result ReaderObj :=
  match state self with
  | START_RECORD =>
      match c with
      | EOL => Ok self
      | Chr c' =>
          if is_newline c' then Ok (set_state self EAT_CRNL)
          else start_field fmt (set_state self START_FIELD) c
      end
  | START_FIELD => start_field fmt self c
  | IN_FIELD =>
      match c with
      | EOL => Ok (set_state (parse_save_field self) START_RECORD)
      | Chr c =>
          if is_newline c then Ok (set_state (parse_save_field self) EAT_CRNL)
          else if ascii_eqb c (delimiter fmt)
          then Ok (set_state (parse_save_field self) START_FIELD)
          else parse_add_char self c
      end
  | IN_QUOTED_FIELD =>
      match c with
      | EOL => Ok self
      | Chr c =>
          if ascii_eqb c (quotechar fmt)
          then Ok (set_state self QUOTE_IN_QUOTED_FIELD)
          else parse_add_char self c
      end
  | QUOTE_IN_QUOTED_FIELD =>
      match c with
      | EOL => Ok (set_state (parse_save_field self) START_RECORD)
      | Chr c =>
          if ascii_eqb c (quotechar fmt)
          then match parse_add_char self c with
               | Ok self => Ok (set_state self IN_QUOTED_FIELD)
               | Raise e => Raise e
               end
          else if ascii_eqb c (delimiter fmt)
          then Ok (set_state (parse_save_field self) START_FIELD)
          else if is_newline c
          then Ok (set_state (parse_save_field self) EAT_CRNL)
          else match parse_add_char self c with
               | Ok self => Ok (set_state self IN_FIELD)
               | Raise e => Raise e
               end
      end
  | EAT_CRNL =>
      match c with
      | EOL => Ok (set_state self START_RECORD)
      | Chr c => if is_newline c then Ok self else Raise csv_Error
      end
  end.

(** The loop of [Reader_iternext] over the characters of one line. *)
Fixpoint feed (fmt : Dialect) (self : ReaderObj) (line : string)
  : result ReaderObj :=
  match line with
  | "" => Ok self
  | String c line' =>
      match parse_process_char fmt self (Chr c) with
      | Ok self => feed fmt self line'
      | Raise e => Raise e
      end
  end.

(** One line and its end. *)
Definition feed_line (fmt : Dialect) (self : ReaderObj) (line : string)
  : result ReaderObj :=
  match feed fmt self line with
  | Ok self => parse_process_char fmt self EOL
  | Raise e => Raise e
  end.

(** The rows of [csv.reader(lines)].  [Reader_iternext] takes lines
    until the parser is back in [START_RECORD], and returns the fields;
    the next call starts from [parse_reset].  When the lines run out in
    the middle of a record the fields read so far are the last row. *)
Fixpoint rows_from (fmt : Dialect) (self : ReaderObj) (lines : list string)
  : generated (list string) :=
  match lines with
  | [] =>
      if bool_decide (field self ≠ "") || bool_decide (state self = IN_QUOTED_FIELD)
      then Yield (fields (parse_save_field self)) StopIteration
      else StopIteration
  | line :: lines' =>
      match feed_line fmt self line with
      | Raise e => Raised e
      | Ok self =>
          if bool_decide (state self = START_RECORD)
          then Yield (fields self) (rows_from fmt parse_reset lines')
          else rows_from fmt self lines'
      end
  end.

Definition reader (fmt : Dialect) (lines : list string)
  : generated (list string) :=
  rows_from fmt parse_reset lines.

End Reader.

(** ** Text files *)

Definition os_linesep : string := chr LF.

(** Writing in text mode: every line feed becomes [os.linesep]. *)
Fixpoint translate_out (s : string) : string :=
  match s with
  | "" => ""
  | String c s' =>
      (if ascii_eqb c LF then os_linesep else chr c) ++ translate_out s'
  end.

(** Reading in text mode (universal newlines): CR LF and a lone CR are
    read as a line feed. *)
Fixpoint translate_in (s : string) : string :=
  match s with
  | "" => ""
  | String c s' =>
      if ascii_eqb c CR
      then match s' with
           | String d s'' =>
               if ascii_eqb d LF then String LF (translate_in s'')
               else String LF (translate_in s')
           | "" => chr LF
           end
      else String c (translate_in s')
  end.

(** The lines of a text, each with its line feed; [cur] is the line
    being read. *)
Fixpoint lines_from (cur : string) (s : string) : list string :=
  match s with
  | "" => match cur with "" => [] | _ => [cur] end
  | String c s' =>
      if ascii_eqb c LF then (cur ++ chr c) :: lines_from "" s'
      else lines_from (cur ++ chr c) s'
  end.

(** Iterating over a file opened with [open(filename, 'r')]. *)
Definition file_lines (content : string) : list string :=
  lines_from "" (translate_in content).


(** ** The outside world

    The files, and what the process has done so far: the lines printed
    on standard output, the calls of the storage and the pages opened in
    the browser, oldest first. *)

Inductive event : Type :=
| Printed (line : string)
| Loaded (filename : string)
| Saved (filename : string)
| OpenedTab (url : string).

Record World : Type := mkWorld {
  fs : gmap string string;
  trace : list event
}.

Definition log (e : event) (w : World) : World :=
  {| fs := fs w; trace := trace w ++ [e] |}.

(** ** A state and exception monad *)

Definition M (St A : Type) : Type := St → result A * St.

Definition ret {St A} (a : A) : M St A := λ s, (Ok a, s).

Definition raise {St A} (e : exn) : M St A := λ s, (Raise e, s).

Definition bind {St A B} (m : M St A) (k : A → M St B) : M St B :=
  λ s, match m s with
       | (Ok a, s') => k a s'
       | (Raise e, s') => (Raise e, s')
       end.

Definition lift {St A} (r : result A) : M St A := λ s, (r, s).

Declare Scope monad_scope.
Delimit Scope monad_scope with monad.
Notation "x <- m ;; k" := (bind m (λ x, k))
  (at level 100, m at next level, right associativity) : monad_scope.
Notation "m ;; k" := (bind m (λ _, k))
  (at level 100, right associativity) : monad_scope.
Local Open Scope monad_scope.

(** [print(s)] *)
Definition print (s : string) : M World unit :=
  λ w, (Ok (), log (Printed s) w).

(** [webbrowser.open_new_tab(url)] *)
Definition open_new_tab (url : string) : M World unit :=
  λ w, (Ok (), log (OpenedTab url) w).

(** ** OrderedDict, with [str] keys

    The items in insertion order.  Assigning to a key that is present
    replaces the value where it stands; a new key goes to the end. *)

Module OrderedDict.

Abbreviation t V := (list (string * V)).

Definition empty {V} : t V := [].

(** [k in d] *)
Fixpoint contains {V} (k : string) (d : t V) : bool :=
  match d with
  | [] => false
  | (k', _) :: d' => bool_decide (k' = k) || contains k d'
  end.

(** [d.get(k)] *)
Fixpoint get {V} (k : string) (d : t V) : option V :=
  match d with
  | [] => None
  | (k', v) :: d' => if bool_decide (k' = k) then Some v else get k d'
  end.

(** [d[k]] *)
Definition getitem {V} (k : string) (d : t V) : result V :=
  match get k d with
  | Some v => Ok v
  | None => Raise KeyError
  end.

(** [d[k] = v] *)
Fixpoint setitem {V} (k : string) (v : V) (d : t V) : t V :=
  match d with
  | [] => [(k, v)]
  | (k', v') :: d' =>
      if bool_decide (k' = k) then (k', v) :: d'
      else (k', v') :: setitem k v d'
  end.

(** [del d[k]], nothing when the key is absent. *)
Fixpoint remove {V} (k : string) (d : t V) : t V :=
  match d with
  | [] => []
  | (k', v') :: d' =>
      if bool_decide (k' = k) then d' else (k', v') :: remove k d'
  end.

(** [d.pop(k, None)]: the value and the dictionary left. *)
Definition pop {V} (k : string) (d : t V) : option V * t V :=
  (get k d, remove k d).

Definition keys {V} (d : t V) : list string := d.*1.

Definition values {V} (d : t V) : list V := d.*2.

(** [d.update(items)] for a generator of pairs. *)
Fixpoint update {V} (d : t V) (items : generated (string * V)) : result (t V) :=
  match items with
  | StopIteration => Ok d
  | Yield (k, v) rest => update (setitem k v d) rest
  | Raised e => Raise e
  end.

(** [OrderedDict(items)] *)
Definition new {V} (items : generated (string * V)) : result (t V) :=
  update empty items.

End OrderedDict.

(** ** CSVObjectStorage *)

Record CSVObjectStorage : Type := {
  filename : string;
  csv_format : Dialect
}.

Module CSVObjectStorage.

Definition init (filename : string) : CSVObjectStorage :=
  {| filename := filename;
     csv_format := {| delimiter := SPACE; quotechar := DQUOTE |} |}.

(** [load]: the rows the generator yields.  [os.path.isfile] holds of
    the paths of the regular files; the text of the file is read as the
    encoding of the locale decodes it. *)
Definition load (self : CSVObjectStorage) : M World (generated (list string)) :=
  λ w,
    let w' := log (Loaded (filename self)) w in
    match fs w !! filename self with
    | None => (Ok StopIteration, w')
    | Some content =>
        (Ok (Reader.reader (csv_format self) (file_lines content)), w')
    end.

(** The text [save] leaves in the file: one [writerow] for each row,
    written through a file opened in text mode. *)
Definition dump (self : CSVObjectStorage) (rows : list Bookmark) : string :=
  str_concat
    (map (λ row, translate_out
                   (Writer.writerow (csv_format self) (Bookmark_iter row)))
         rows).

(** [save]: [open(self.filename, 'w')] empties the file, then every row
    is written.  No write fails in the model, so the file is seen with
    all the rows only. *)
Definition save (self : CSVObjectStorage) (rows : list Bookmark) : M World unit :=
  λ w,
    (Ok (),
     {| fs := <[filename self := dump self rows]> (fs w);
        trace := trace w ++ [Saved (filename self)] |}).

End CSVObjectStorage.

(** ** Settings *)

(** The four values [choices] allows for [command]. *)
Inductive Command : Type :=
| cmd_list
| cmd_add
| cmd_rm
| cmd_open.

Global Instance Command_eq_dec : EqDecision Command.
Proof. solve_decision. Defined.

Definition Command_of_string (s : string) : option Command :=
  if bool_decide (s = "list") then Some cmd_list
  else if bool_decide (s = "add") then Some cmd_add
  else if bool_decide (s = "rm") then Some cmd_rm
  else if bool_decide (s = "open") then Some cmd_open
  else None.

(** The process: its arguments ([sys.argv] without the program name),
    its environment, and the home directories of the password database,
    [pw_dir_self] for the user of the process. *)
Record Process : Type := {
  argv : list string;
  environ : gmap string string;
  pw_dir_self : option string;
  pw_dir : string → option string
}.

(** [s.find(c, start)], the length of [s] when [c] is not found. *)
Fixpoint find_or_len (c : ascii) (start : nat) (s : string) : nat :=
  match s with
  | "" => 0
  | String d s' =>
      match start with
      | O => if ascii_eqb d c then 0 else S (find_or_len c 0 s')
      | S n => S (find_or_len c n s')
      end
  end.

(** [s[n:]] *)
Fixpoint str_drop (n : nat) (s : string) : string :=
  match n, s with
  | O, _ => s
  | S n', String _ s' => str_drop n' s'
  | S _, "" => ""
  end.

(** [s[:n]] *)
Fixpoint str_take (n : nat) (s : string) : string :=
  match n, s with
  | O, _ => ""
  | S n', String c s' => String c (str_take n' s')
  | S _, "" => ""
  end.

(** [s.rstrip(c)] *)
Fixpoint rstrip (c : ascii) (s : string) : string :=
  match s with
  | "" => ""
  | String d s' =>
      match rstrip c s' with
      | "" => if ascii_eqb d c then "" else chr d
      | r => String d r
      end
  end.

(** [os.path.expanduser] of [posixpath]. *)
Definition expanduser (p : Process) (path : string) : string :=
  if negb (startswith "~" path) then path
  else
    let i := find_or_len "/"%char 1 path in
    let userhome :=
      if bool_decide (i = 1%nat)
      then match environ p !! "HOME" with
           | Some home => Some home
           | None => pw_dir_self p
           end
      else pw_dir p (str_take (i - 1) (str_drop 1 path)) in
    match userhome with
    | None => path
    | Some userhome =>
        match rstrip "/"%char userhome ++ str_drop i path with
        | "" => "/"
        | r => r
        end
    end.

Record Settings : Type := {
  command : Command;
  command_args : list string;
  force : bool;
  storage_path : string
}.

Definition with_storage_path (self : Settings) (path : string) : Settings :=
  {| command := command self;
     command_args := command_args self;
     force := force self;
     storage_path := path |}.

(** *** The argument parser of [init_from_args]

    [parse_args] models [parser.parse_args(namespace=self)] for the parser
    that [init_from_args] builds: the positionals [command], with its
    [choices], and [command_args], with [nargs='*'], and the options
    [-f], [--storage-path] and the [-h]/[--help] that the library adds.
    It follows [ArgumentParser._parse_known_args] of CPython 3.11.  Every
    argument string is first taken for an option or for a positional
    ([_parse_optional]: abbreviated long options, explicit arguments
    after [=], clustered short options, negative numbers, strings with a
    space, and the separator [--]); then positionals and options are
    consumed in turn.  [parse_args] returns the attributes set on [self],
    or raises the [SystemExit] of the parser: status 2 after a usage
    error, status 0 after the help.  What the parser writes itself, the
    usage and the error on standard error and the help on standard
    output, is not part of the model.

    One family of command lines has no counterpart in [Settings]: when
    [--storage-path] is given the explicit argument [--], as in
    [--storage-path=--], the library leaves an empty list for the storage
    path.  [parse_args] answers it with [TypeError]: this is how the
    program ends there when the count of arguments is right and
    [WEBMARK_STORAGE_PATH] is not set, [os.path.expanduser] refusing the
    list. *)

Module argparse.

(** The actions of the options: [-h] and [--help] print the help and
    exit, [-f] stores [True] in [force], [--storage-path] stores its
    argument. *)
Inductive Action : Type :=
| help
| store_true
| store.

Definition option_string_actions : list (string * Action) :=
  [("-h", help); ("--help", help); ("-f", store_true);
   ("--storage-path", store)].

(** The number of argument strings an option takes. *)
Definition nargs (action : Action) : nat :=
  match action with
  | store => 1
  | _ => 0
  end.

Definition choices : list string := ["list"; "add"; "rm"; "open"].

(** The action an option string names (none when the parser has no such
    option), the option string, and the explicit argument given with
    it. *)
Definition option_tuple : Type := option Action * string * option string.

(** [s.split(c, 1)] when [c] is in [s]. *)
Fixpoint split_at (c : ascii) (s : string) : option (string * string) :=
  match s with
  | "" => None
  | String d s' =>
      if ascii_eqb d c then Some ("", s')
      else match split_at c s' with
           | Some (l, r) => Some (String d l, r)
           | None => None
           end
  end.

Definition is_digit (c : ascii) : bool :=
  (48 <=? nat_of_ascii c)%nat && (nat_of_ascii c <=? 57)%nat.

Fixpoint skip_digits (s : string) : string :=
  match s with
  | String c s' => if is_digit c then skip_digits s' else s
  | "" => ""
  end.

(** Where [$] matches: at the end of the string, and before a line feed
    that ends it. *)
Definition at_end (s : string) : bool :=
  bool_decide (s = "") || bool_decide (s = chr LF).

(** [_negative_number_matcher], the pattern [^-\d+$|^-\d*\.\d+$]. *)
Definition negative_number_matcher (s : string) : bool :=
  match s with
  | String "-" s1 =>
      let s2 := skip_digits s1 in
      negb (bool_decide (s2 = s1)) && at_end s2
      || match s2 with
         | String "." s3 =>
             let s4 := skip_digits s3 in
             negb (bool_decide (s4 = s3)) && at_end s4
         | _ => false
         end
  | _ => false
  end.

(** [_get_option_tuples], for a string of two characters at least that
    starts with a dash: the long options it abbreviates, or the short
    option it starts with. *)
Definition get_option_tuples (option_string : string) : list option_tuple :=
  if startswith "--" option_string
  then
    let '(option_prefix, explicit_arg) :=
      match split_at "=" option_string with
      | Some (l, r) => (l, Some r)
      | None => (option_string, None)
      end in
    omap (λ item : string * Action,
            if startswith option_prefix item.1
            then Some (Some item.2, item.1, explicit_arg) else None)
         option_string_actions
  else
    let short_option_prefix := str_take 2 option_string in
    let short_explicit_arg := str_drop 2 option_string in
    omap (λ item : string * Action,
            if bool_decide (item.1 = short_option_prefix)
            then Some (Some item.2, item.1, Some short_explicit_arg)
            else if startswith option_string item.1
            then Some (Some item.2, item.1, None) else None)
         option_string_actions.

(** [_parse_optional]: nothing for a positional, the option tuple for an
    option; an ambiguous abbreviation is a usage error. *)
Definition parse_optional (arg_string : string) : result (option option_tuple) :=
  if bool_decide (arg_string = "") then Ok None
  else if negb (startswith "-" arg_string) then Ok None
  else
    match OrderedDict.get arg_string option_string_actions with
    | Some action => Ok (Some (Some action, arg_string, None))
    | None =>
        if bool_decide (String.length arg_string = 1%nat) then Ok None
        else
          let with_equals :=
            match split_at "=" arg_string with
            | Some (option_string, explicit_arg) =>
                match OrderedDict.get option_string option_string_actions with
                | Some action => Some (Some action, option_string, Some explicit_arg)
                | None => None
                end
            | None => None
            end in
          match with_equals with
          | Some option_tuple => Ok (Some option_tuple)
          | None =>
              match get_option_tuples arg_string with
              | _ :: _ :: _ => Raise (SystemExit 2)
              | [option_tuple] => Ok (Some option_tuple)
              | [] =>
                  if negative_number_matcher arg_string then Ok None
                  else if str_contains SPACE arg_string then Ok None
                  else Ok (Some (None, arg_string, None))
              end
          end
    end.

(** The argument strings as [arg_strings_pattern] sees them: an [A] for a
    positional, an [O] for an option, a dash for the first [--], after
    which every string is a positional. *)
Inductive token : Type :=
| Arg (arg_string : string)
| Opt (option_tuple : option_tuple)
| DashDash.

Fixpoint arg_strings_pattern (arg_strings : list string) : result (list token) :=
  match arg_strings with
  | [] => Ok []
  | arg_string :: rest =>
      if bool_decide (arg_string = "--") then Ok (DashDash :: map Arg rest)
      else
        match parse_optional arg_string with
        | Raise e => Raise e
        | Ok option_tuple =>
            match arg_strings_pattern rest with
            | Raise e => Raise e
            | Ok pattern =>
                Ok (match option_tuple with
                    | None => Arg arg_string
                    | Some option_tuple => Opt option_tuple
                    end :: pattern)
            end
        end
  end.

Definition arg_string (t : token) : string :=
  match t with
  | Arg s => s
  | Opt (_, s, _) => s
  | DashDash => "--"
  end.

(** A value stored in the namespace: a string, or a list of strings. *)
Inductive value : Type :=
| Str (s : string)
| Lst (l : list string).

Record Namespace : Type := {
  ns_command : option value;
  ns_command_args : option (list string);
  ns_force : bool;
  ns_storage_path : value
}.

(** The parser at work: the namespace, whether the two positionals are
    still to be parsed, and the strings nobody took. *)
Record state : Type := {
  namespace : Namespace;
  positionals : bool;
  extras : list string
}.

Definition initial : state :=
  {| namespace := {| ns_command := None; ns_command_args := None;
                     ns_force := false; ns_storage_path := Str "~/.webmark" |};
     positionals := true;
     extras := [] |}.

Definition add_extras (l : list string) (st : state) : state :=
  {| namespace := namespace st; positionals := positionals st;
     extras := (extras st ++ l)%list |}.

(** [arg_strings.remove('--')], nothing when it is not there. *)
Fixpoint remove_first (x : string) (l : list string) : list string :=
  match l with
  | [] => []
  | y :: l' => if bool_decide (y = x) then l' else y :: remove_first x l'
  end.

Definition check_value (choices : option (list string)) (v : string) : bool :=
  match choices with
  | Some choices => bool_decide (v ∈ choices)
  | None => true
  end.

(** [_get_values] for an action whose [nargs] is [None]: one string
    gives that string, anything else the list. *)
Definition get_values (choices : option (list string)) (arg_strings : list string)
  : result value :=
  match remove_first "--" arg_strings with
  | [v] => if check_value choices v then Ok (Str v) else Raise (SystemExit 2)
  | l => if forallb (check_value choices) l then Ok (Lst l)
         else Raise (SystemExit 2)
  end.

Definition take_action (action : Action) (argument_strings : list string)
    (st : state) : result state :=
  let ns := namespace st in
  match action with
  | help => Raise (SystemExit 0)
  | store_true =>
      Ok {| namespace := {| ns_command := ns_command ns;
                            ns_command_args := ns_command_args ns;
                            ns_force := true;
                            ns_storage_path := ns_storage_path ns |};
            positionals := positionals st; extras := extras st |}
  | store =>
      match get_values None argument_strings with
      | Raise e => Raise e
      | Ok v =>
          Ok {| namespace := {| ns_command := ns_command ns;
                                ns_command_args := ns_command_args ns;
                                ns_force := ns_force ns;
                                ns_storage_path := v |};
                positionals := positionals st; extras := extras st |}
      end
  end.

Fixpoint take_actions (action_tuples : list (Action * list string)) (st : state)
  : result state :=
  match action_tuples with
  | [] => Ok st
  | (action, args) :: action_tuples' =>
      match take_action action args st with
      | Raise e => Raise e
      | Ok st => take_actions action_tuples' st
      end
  end.

(** The loop of [consume_optional] over an explicit argument: the actions
    found with their argument strings, and the action, if there is one,
    whose argument strings are those that follow on the command line.  An
    option of one dash that takes no argument has the explicit argument
    read as further options of one dash. *)
Fixpoint explicit_loop (action : Action) (option_string explicit_arg : string)
  : result (list (Action * list string) * option Action) :=
  match nargs action with
  | O =>
      match explicit_arg with
      | String c rest =>
          if startswith "--" option_string then Raise (SystemExit 2)
          else
            match OrderedDict.get ("-" ++ chr c) option_string_actions with
            | Some action' =>
                match rest with
                | "" => Ok ([(action, [])], Some action')
                | _ =>
                    match explicit_loop action' ("-" ++ chr c) rest with
                    | Raise e => Raise e
                    | Ok (action_tuples, last) =>
                        Ok ((action, []) :: action_tuples, last)
                    end
                end
            | None => Raise (SystemExit 2)
            end
      | "" => Raise (SystemExit 2)
      end
  | _ => Ok ([(action, [explicit_arg])], None)
  end.

Definition is_dash (t : token) : bool :=
  match t with
  | DashDash => true
  | _ => false
  end.

Fixpoint span (tokens : list token) : list token * list token :=
  match tokens with
  | t :: tokens' =>
      if is_dash t then let '(l, r) := span tokens' in (t :: l, r)
      else ([], tokens)
  | [] => ([], [])
  end.

(** [_match_arguments_partial] for the two positionals on the strings
    before the next option: [command] matches [-*A-*] and [command_args]
    matches [-*[A-]*], so both are matched or none is. *)
Definition match_arguments_partial (pending : list token)
  : option (list token * list token) :=
  let '(dashes, rest) := span pending in
  match rest with
  | Arg s :: rest' =>
      let '(dashes', rest'') := span rest' in
      Some ((dashes ++ Arg s :: dashes')%list, rest'')
  | _ => None
  end.

Definition consume_positionals (pending : list token) (st : state) : result state :=
  match (if positionals st then match_arguments_partial pending else None) with
  | Some (command, command_args) =>
      match get_values (Some choices) (map arg_string command) with
      | Raise e => Raise e
      | Ok v =>
          let ns := namespace st in
          Ok {| namespace :=
                  {| ns_command := Some v;
                     ns_command_args :=
                       Some (remove_first "--" (map arg_string command_args));
                     ns_force := ns_force ns;
                     ns_storage_path := ns_storage_path ns |};
                positionals := false;
                extras := extras st |}
      end
  | None => Ok (add_extras (map arg_string pending) st)
  end.

(** The loop of [_parse_known_args]: the positionals that stand before an
    option are consumed, then the option with its arguments; [pending]
    holds the strings met since the last option. *)
Fixpoint consume (pattern pending : list token) (st : state) : result state :=
  match pattern with
  | [] => consume_positionals pending st
  | Opt (None, option_string, _) :: pattern' =>
      match consume_positionals pending st with
      | Raise e => Raise e
      | Ok st => consume pattern' [] (add_extras [option_string] st)
      end
  | Opt (Some action, option_string, explicit_arg) :: pattern' =>
      match consume_positionals pending st with
      | Raise e => Raise e
      | Ok st =>
          match (match explicit_arg with
                 | Some explicit_arg =>
                     explicit_loop action option_string explicit_arg
                 | None => Ok ([], Some action)
                 end) with
          | Raise e => Raise e
          | Ok (action_tuples, None) =>
              match take_actions action_tuples st with
              | Raise e => Raise e
              | Ok st => consume pattern' [] st
              end
          | Ok (action_tuples, Some last) =>
              match nargs last with
              | O =>
                  match take_actions (action_tuples ++ [(last, [])])%list st with
                  | Raise e => Raise e
                  | Ok st => consume pattern' [] st
                  end
              | S _ =>
                  match pattern' with
                  | Arg v :: pattern'' =>
                      match take_actions (action_tuples ++ [(last, [v])])%list st with
                      | Raise e => Raise e
                      | Ok st => consume pattern'' [] st
                      end
                  | _ => Raise (SystemExit 2)
                  end
              end
          end
      end
  | t :: pattern' => consume pattern' (pending ++ [t])%list st
  end.

(** The namespace and the extras; both positionals are required. *)
Definition parse_known_args (args : list string) : result (Namespace * list string) :=
  match arg_strings_pattern args with
  | Raise e => Raise e
  | Ok pattern =>
      match consume pattern [] initial with
      | Raise e => Raise e
      | Ok st =>
          if positionals st then Raise (SystemExit 2)
          else Ok (namespace st, extras st)
      end
  end.

Definition parse_args (args : list string) : result Settings :=
  match parse_known_args args with
  | Raise e => Raise e
  | Ok (_, _ :: _) => Raise (SystemExit 2)
  | Ok (ns, []) =>
      match ns_command ns, ns_storage_path ns with
      | Some (Str c), Str path =>
          match Command_of_string c with
          | Some command =>
              Ok {| command := command;
                    command_args := default [] (ns_command_args ns);
                    force := ns_force ns;
                    storage_path := path |}
          | None => Raise TypeError
          end
      | _, _ => Raise TypeError
      end
  end.

End argparse.

Module Settings.
Section parser.

(** [parser.parse_args(namespace=self)] on the arguments of the
    process. *)
Variable parse_args : list string → result Settings.

Definition add_usage : string :=
  "To add bookmark use following command:" ++ chr LF ++ chr TAB
  ++ "webmark add {code} {url} {description}".

Definition open_usage : string :=
  "To open bookmark use following command:" ++ chr LF ++ chr TAB
  ++ "webmark open {code}".

Definition rm_usage : string :=
  "To remove bookmark use following command:" ++ chr LF ++ chr TAB
  ++ "webmark rm {code}".

Definition init_from_args (p : Process) : result Settings :=
  match parse_args (argv p) with
  | Raise e => Raise e
  | Ok self =>
      if bool_decide (command self = cmd_add)
         && negb (length (command_args self) =? 3)%nat
      then Raise (ArgumentsError add_usage)
      else if bool_decide (command self = cmd_open)
              && negb (length (command_args self) =? 1)%nat
      then Raise (ArgumentsError open_usage)
      else if bool_decide (command self = cmd_rm)
              && negb (length (command_args self) =? 1)%nat
      then Raise (ArgumentsError rm_usage)
      else Ok self
  end.

Definition init_from_env (p : Process) (self : Settings) : Settings :=
  with_storage_path self
    (match environ p !! "WEBMARK_STORAGE_PATH" with
     | Some path => path
     | None => storage_path self
     end).

Definition init (p : Process) : result Settings :=
  match init_from_args p with
  | Raise e => Raise e
  | Ok self =>
      let self := init_from_env p self in
      Ok (with_storage_path self (expanduser p (storage_path self)))
  end.

End parser.
End Settings.

(** ** BookmarksApp *)

Record BookmarksApp : Type := {
  settings : Settings;
  storage : CSVObjectStorage;
  bookmarks : OrderedDict.t Bookmark
}.

Module BookmarksApp.

(** A method runs on the object and the world. *)
Definition method (A : Type) : Type := M (BookmarksApp * World) A.

Definition self : method BookmarksApp := λ s, (Ok s.1, s).

Definition set_bookmarks (d : OrderedDict.t Bookmark) : method unit :=
  λ s, (Ok (),
        ({| settings := settings s.1; storage := storage s.1; bookmarks := d |},
         s.2)).

Definition io {A} (m : M World A) : method A :=
  λ s, let '(r, w) := m s.2 in (r, (s.1, w)).

Fixpoint for_each {St A} (l : list A) (body : A → M St unit) : M St unit :=
  match l with
  | [] => ret ()
  | x :: l' => body x ;; for_each l' body
  end.

Definition init (settings : Settings) : M World BookmarksApp :=
  let storage := CSVObjectStorage.init (storage_path settings) in
  rows <- CSVObjectStorage.load storage ;;
  bookmarks <- lift (OrderedDict.new
                       (gen_map (λ x, Ok (code x, x))
                                (gen_map Bookmark_make rows))) ;;
  ret {| settings := settings; storage := storage; bookmarks := bookmarks |}.

Definition empty_message : string := chr TAB ++ "It's empty here!  :(  ".

Definition duplicate_message (bookmark : Bookmark) : string :=
  "There is a bookmark with that code:" ++ chr LF
  ++ Bookmark_str bookmark ++ chr LF ++ chr LF
  ++ "To override it add option -f".

Definition unknown_message (code : string) : string :=
  "There is no bookmark with code " ++ code.

Definition add : method unit :=
  app <- self ;;
  bookmark <- lift (Bookmark_new (command_args (settings app))) ;;
  if negb (force (settings app))
     && OrderedDict.contains (code bookmark) (bookmarks app)
  then
    bookmark <- lift (OrderedDict.getitem (code bookmark) (bookmarks app)) ;;
    raise (ApplicationError (duplicate_message bookmark))
  else
    set_bookmarks (OrderedDict.setitem (code bookmark) bookmark (bookmarks app)) ;;
    app <- self ;;
    io (CSVObjectStorage.save (storage app) (OrderedDict.values (bookmarks app))).

(** [self.settings.command_args[0]] *)
Definition first_arg (app : BookmarksApp) : result string :=
  match command_args (settings app) with
  | code :: _ => Ok code
  | [] => Raise IndexError
  end.

(** A [Bookmark] is a tuple of three items, so [not bookmark] holds of
    [None] only. *)
Definition rm : method unit :=
  app <- self ;;
  code <- lift (first_arg app) ;;
  let '(bookmark, d) := OrderedDict.pop code (bookmarks app) in
  set_bookmarks d ;;
  match bookmark with
  | None => raise (ApplicationError (unknown_message code))
  | Some _ =>
      app <- self ;;
      io (CSVObjectStorage.save (storage app) (OrderedDict.values (bookmarks app)))
  end.

Definition open : method unit :=
  app <- self ;;
  code <- lift (first_arg app) ;;
  match OrderedDict.get code (bookmarks app) with
  | None => raise (ApplicationError (unknown_message code))
  | Some bookmark => io (open_new_tab (url bookmark))
  end.

Definition list : method unit :=
  app <- self ;;
  (match bookmarks app with
   | [] => io (print empty_message)
   | _ :: _ => ret ()
   end) ;;
  for_each (OrderedDict.values (bookmarks app))
           (λ bookmark, io (print (Bookmark_str bookmark))).

Definition run : method unit :=
  app <- self ;;
  match command (settings app) with
  | cmd_list => list
  | cmd_add => add
  | cmd_rm => rm
  | cmd_open => open
  end.

End BookmarksApp.

(** ** The program *)

(** How the process ends: with an exit status, or with the traceback of
    an exception nobody caught (and status 1). *)
Inductive termination : Type :=
| Exited (status : Z)
| Traceback (e : exn).

Definition terminate (r : result unit) : termination :=
  match r with
  | Ok _ => Exited 0
  | Raise (SystemExit status) => Exited status
  | Raise e => Traceback e
  end.

Section program.

Variable parse_args : list string → result Settings.

(** The body of the [try]. *)
Definition body (p : Process) : M World unit :=
  settings <- lift (Settings.init parse_args p) ;;
  app <- BookmarksApp.init settings ;;
  λ w, let '(r, s) := BookmarksApp.run (app, w) in (r, s.2).

(** The [except] clause. *)
Definition handler (e : exn) : M World unit :=
  match e with
  | ApplicationError msg | ArgumentsError msg =>
      print msg ;; raise (SystemExit 1)
  | _ => raise e
  end.

Definition main (p : Process) : M World unit :=
  λ w, match body p w with
       | (Ok a, w') => (Ok a, w')
       | (Raise e, w') => handler e w'
       end.

End program.


(** * The vocabulary of the properties *)

(** The dialect of [CSVObjectStorage], and the reader in a given state. *)
Local Abbreviation fmt := {| delimiter := SPACE; quotechar := DQUOTE |}.
Local Abbreviation mk := Reader.mkReader.

(** A field without carriage return and line feed. *)
Definition plain (f : string) : bool :=
  negb (str_contains CR f) && negb (str_contains LF f).

(** A field the reader accepts: at most [field_limit] characters. *)
Definition fits (f : string) : Prop :=
  (N.of_nat (String.length f) <= field_limit)%N.

(** A field has a character that makes the writer quote it. *)
Fixpoint has_special (f : string) : bool :=
  match f with
  | "" => false
  | String c f' => Writer.special fmt c || has_special f'
  end.

(** The characters of a field, each quote twice. *)
Fixpoint doubled (f : string) : string :=
  match f with
  | "" => ""
  | String c f' =>
      if ascii_eqb c DQUOTE then String DQUOTE (String c (doubled f'))
      else String c (doubled f')
  end.

(** What the writer makes of a field. *)
Definition encoded (f : string) : string :=
  if has_special f then chr DQUOTE ++ doubled f ++ chr DQUOTE else f.

(** A field the storage keeps: no newline, and within the limit. *)
Definition field_ok (f : string) : Prop := plain f = true ∧ fits f.

Definition storable (b : Bookmark) : Prop :=
  field_ok (code b) ∧ field_ok (url b) ∧ field_ok (description b).

(** The text of a bookmark's line, without the line terminator. *)
Definition line_of (b : Bookmark) : string :=
  encoded (code b) ++ String SPACE (encoded (url b)
    ++ String SPACE (encoded (description b))).

(** The word made of [n] letters a. *)
Definition word (n : N) : string := N.iter n (String "a"%char) "".

(** The two errors of the application, by the place that raises them. *)
Definition DuplicateCodeError (existing : Bookmark) : exn :=
  ApplicationError (BookmarksApp.duplicate_message existing).

Definition UnknownCodeError (code : string) : exn :=
  ApplicationError (BookmarksApp.unknown_message code).

(** What [save] does to the world. *)
Definition saved_world (self : CSVObjectStorage) (rows : list Bookmark) (w : World)
  : World :=
  {| fs := <[filename self := CSVObjectStorage.dump self rows]> (fs w);
     trace := trace w ++ [Saved (filename self)] |}.

Definition with_bookmarks (app : BookmarksApp) (d : OrderedDict.t Bookmark)
  : BookmarksApp :=
  {| settings := settings app; storage := storage app; bookmarks := d |}.

(** The keys are unique, and every key is the code of its bookmark. *)
Definition unique_codes (d : OrderedDict.t Bookmark) : Prop :=
  NoDup (OrderedDict.keys d) ∧ Forall (λ item, code item.2 = item.1) d.

(** The object a method leaves. *)
Definition object_after (m : BookmarksApp.method unit) (app : BookmarksApp)
    (w : World) : BookmarksApp :=
  (m (app, w)).2.1.

(** The codes of [l] that are not in [seen], each where it comes first. *)
Fixpoint new_codes (seen : list string) (l : list string) : list string :=
  match l with
  | [] => []
  | c :: l' =>
      if bool_decide (c ∈ seen) then new_codes seen l'
      else c :: new_codes (seen ++ [c]) l'
  end.

(** The codes of [l] in the order of their first occurrences. *)
Definition first_occurrences (l : list string) : list string := new_codes [] l.

(** The last bookmark of [bs] with the code [c]. *)
Definition last_with_code (c : string) (bs : list Bookmark) : option Bookmark :=
  last (filter (λ b, code b = c) bs).

Definition store (d : OrderedDict.t Bookmark) (b : Bookmark) : OrderedDict.t Bookmark :=
  OrderedDict.setitem (code b) b d.

(** The object with the arguments of another invocation. *)
Definition with_command_args (app : BookmarksApp) (args : list string) : BookmarksApp :=
  {| settings := {| command := command (settings app);
                    command_args := args;
                    force := force (settings app);
                    storage_path := storage_path (settings app) |};
     storage := storage app;
     bookmarks := bookmarks app |}.

(** The exception that ends a generator. *)
Fixpoint gen_exn {A} (g : generated A) : option exn :=
  match g with
  | StopIteration => None
  | Yield _ rest => gen_exn rest
  | Raised e => Some e
  end.

(** The usage message of a command whose positional arguments are not as
    many as it takes. *)
Definition wrong_count (ns : Settings) : option string :=
  match command ns with
  | cmd_add =>
      if bool_decide (length (command_args ns) ≠ 3%nat)
      then Some Settings.add_usage else None
  | cmd_open =>
      if bool_decide (length (command_args ns) ≠ 1%nat)
      then Some Settings.open_usage else None
  | cmd_rm =>
      if bool_decide (length (command_args ns) ≠ 1%nat)
      then Some Settings.rm_usage else None
  | cmd_list => None
  end.

(** The number of positional arguments the command takes: [list] takes
    any. *)
Definition arity_ok (self : Settings) : Prop :=
  match command self with
  | cmd_list => True
  | cmd_add => length (command_args self) = 3%nat
  | cmd_rm | cmd_open => length (command_args self) = 1%nat
  end.

(** The line of a bookmark with its end: CR LF as [save] writes it, or
    the line feed alone of a file edited on a POSIX system. *)
Definition ended_line (item : Bookmark * bool) : string :=
  line_of item.1 ++ (if item.2 then lineterminator else chr LF).

(** A text of such lines. *)
Definition lines_text (items : list (Bookmark * bool)) : string :=
  str_concat (map ended_line items).

(** The object with other settings, as the next invocation builds it. *)
Definition with_settings (app : BookmarksApp) (s : Settings) : BookmarksApp :=
  {| settings := s; storage := storage app; bookmarks := bookmarks app |}.

(** The generator that yields the items of [l] and goes on as [g]. *)
Definition yield_then {A} (l : list A) (g : generated A) : generated A :=
  foldr Yield g l.

(** The path [init_from_env] chooses: the value of the variable when it is
    set, the path the parser left otherwise. *)
Definition chosen_path (p : Process) (ns : Settings) : string :=
  match environ p !! "WEBMARK_STORAGE_PATH" with
  | Some path => path
  | None => storage_path ns
  end.

(** The storage file, told without the csv writer.  A field with no
    space, no double quote, no carriage return and no line feed stands as
    it is; any other field stands between double quotes, each of its
    double quotes written twice.  A line is the three fields of a
    bookmark with one space between them, ended by CR LF. *)
Definition file_field (f : string) : string :=
  if str_contains SPACE f || str_contains DQUOTE f
     || str_contains CR f || str_contains LF f
  then chr DQUOTE ++ doubled f ++ chr DQUOTE
  else f.

Definition file_line (b : Bookmark) : string :=
  file_field (code b) ++ " " ++ file_field (url b) ++ " "
  ++ file_field (description b) ++ chr CR ++ chr LF.

Definition file_text (bs : list Bookmark) : string :=
  foldr (λ b text, file_line b ++ text) "" bs.

(** What the events put on standard output: [print] writes its argument
    and a line feed. *)
Fixpoint stdout (events : list event) : string :=
  match events with
  | [] => ""
  | Printed s :: events' => s ++ chr LF ++ stdout events'
  | _ :: events' => stdout events'
  end.

(** A bookmark whose fields hold no line feed. *)
Definition one_line (b : Bookmark) : Prop :=
  str_contains LF (code b) = false
  ∧ str_contains LF (url b) = false
  ∧ str_contains LF (description b) = false.

(** Arguments that do not start with a dash. *)
Definition no_dash (l : list string) : Prop :=
  Forall (λ a, startswith "-" a = false) l.

(** * Properties *)

(** ** Strings *)

Lemma str_app_nil_l (s : string) : "" ++ s = s.
Proof. reflexivity. Qed.

Lemma str_app_cons (c : ascii) (s t : string) : String c s ++ t = String c (s ++ t).
Proof. reflexivity. Qed.

Lemma str_app_nil_r (s : string) : s ++ "" = s.
Proof. induction s as [|c s IH]; [done|]. by rewrite str_app_cons, IH. Qed.

Lemma str_app_assoc (s t u : string) : (s ++ t) ++ u = s ++ (t ++ u).
Proof.
  induction s as [|c s IH]; [done|]. by rewrite !str_app_cons, IH.
Qed.

Lemma str_length_app (s t : string) :
  String.length (s ++ t) = (String.length s + String.length t)%nat.
Proof.
  induction s as [|c s IH]; [done|]. rewrite str_app_cons. simpl. by rewrite IH.
Qed.

(** Appends to the right, heads exposed. *)
Ltac str_norm :=
  unfold chr;
  repeat first [ rewrite str_app_assoc | rewrite str_app_cons
               | rewrite str_app_nil_l | rewrite str_app_nil_r ].

Lemma ascii_eqb_true (a b : ascii) : ascii_eqb a b = true ↔ a = b.
Proof. unfold ascii_eqb. apply bool_decide_eq_true. Qed.

Lemma ascii_eqb_false (a b : ascii) : ascii_eqb a b = false ↔ a ≠ b.
Proof. unfold ascii_eqb. apply bool_decide_eq_false. Qed.

Lemma ascii_eqb_refl (a : ascii) : ascii_eqb a a = true.
Proof. by apply ascii_eqb_true. Qed.

(** ** The csv round trip *)

Section csv.

(** *** What the writer writes *)

Lemma join_append_data_spec (f : string) (q : bool) :
  Writer.join_append_data fmt f q = (q || has_special f, doubled f).
Proof.
  revert q. induction f as [|c f IH]; intros q; simpl.
  - by rewrite orb_false_r.
  - rewrite IH. f_equal. by destruct (Writer.special fmt c), q.
Qed.

Lemma special_false (c : ascii) :
  Writer.special fmt c = false →
  ascii_eqb c SPACE = false ∧ ascii_eqb c DQUOTE = false
  ∧ Reader.is_newline c = false.
Proof.
  unfold Writer.special, Reader.is_newline, lineterminator. simpl.
  destruct (ascii_eqb c SPACE), (ascii_eqb c DQUOTE), (ascii_eqb c CR),
    (ascii_eqb c LF); simpl; intros; try discriminate; done.
Qed.

Lemma doubled_plain (f : string) : has_special f = false → doubled f = f.
Proof.
  induction f as [|c f IH]; simpl; [done|].
  intros [Hc Hf]%orb_false_elim.
  apply special_false in Hc as (_ & -> & _). by rewrite IH.
Qed.

Lemma join_append_encoded (self : Writer.WriterObj) (f : string) :
  Writer.join_append fmt self f false =
  {| Writer.rec_buf :=
       Writer.rec_buf self
       ++ (match Writer.num_fields self with O => "" | S _ => chr SPACE end)
       ++ encoded f;
     Writer.num_fields := S (Writer.num_fields self) |}.
Proof.
  unfold Writer.join_append. rewrite join_append_data_spec. simpl.
  unfold encoded. destruct (has_special f) eqn:Hs; simpl.
  - done.
  - by rewrite doubled_plain, str_app_nil_r.
Qed.

Lemma str_app_not_empty (s : string) (c : ascii) (t : string) :
  ∃ d u, s ++ String c t = String d u.
Proof. destruct s; simpl; eauto. Qed.

(** The line of a bookmark. *)
Lemma writerow_Bookmark (b : Bookmark) :
  Writer.writerow fmt (Bookmark_iter b) =
  (encoded (code b) ++ String SPACE (encoded (url b)
     ++ String SPACE (encoded (description b)))) ++ lineterminator.
Proof.
  unfold Writer.writerow, Bookmark_iter. simpl fold_left.
  rewrite !join_append_encoded. simpl.
  destruct (str_app_not_empty (encoded (code b)) SPACE
              (encoded (url b) ++ String SPACE (encoded (description b))))
    as (d & u & E).
  unfold lineterminator.
  str_norm. rewrite E. simpl. rewrite <- E. by str_norm.
Qed.

(** *** The reader on what the writer wrote *)

Lemma feed_app (self : Reader.ReaderObj) (a b : string) :
  Reader.feed fmt self (a ++ b) =
  match Reader.feed fmt self a with
  | Ok self' => Reader.feed fmt self' b
  | Raise e => Raise e
  end.
Proof.
  revert self. induction a as [|c a IH]; intros self; [done|].
  rewrite str_app_cons. simpl.
  destruct (Reader.parse_process_char fmt self (Reader.Chr c)); [apply IH|done].
Qed.

Lemma set_state_mk fs acc st st' :
  Reader.set_state (mk fs acc st) st' = mk fs acc st'.
Proof. reflexivity. Qed.

Lemma parse_save_field_mk fs acc st :
  Reader.parse_save_field (mk fs acc st) = mk (fs ++ [acc]) "" st.
Proof. reflexivity. Qed.

Lemma parse_add_char_ok fs acc st (c : ascii) :
  (N.of_nat (String.length acc) < field_limit)%N →
  Reader.parse_add_char (mk fs acc st) c = Ok (mk fs (acc ++ chr c) st).
Proof.
  intros H. unfold Reader.parse_add_char. simpl.
  by apply N.leb_gt in H as ->.
Qed.

Lemma fits_step acc (c : ascii) (f : string) :
  fits (acc ++ String c f) →
  (N.of_nat (String.length acc) < field_limit)%N ∧ fits ((acc ++ chr c) ++ f).
Proof.
  unfold fits. str_norm. rewrite !str_length_app. simpl. lia.
Qed.

Lemma feed_in_field fs acc (f : string) :
  has_special f = false → fits (acc ++ f) →
  Reader.feed fmt (mk fs acc Reader.IN_FIELD) f
  = Ok (mk fs (acc ++ f) Reader.IN_FIELD).
Proof.
  revert acc. induction f as [|c f IH]; intros acc Hs Hfit.
  - by rewrite str_app_nil_r.
  - simpl in Hs. apply orb_false_elim in Hs as [Hc Hf].
    apply special_false in Hc as (Hsp & Hq & Hnl).
    apply fits_step in Hfit as [Hlt Hfit].
    simpl. unfold Reader.parse_process_char. simpl.
    rewrite Hnl, Hsp, parse_add_char_ok by done.
    rewrite IH by done. by str_norm.
Qed.

Lemma feed_in_quoted fs acc (f : string) :
  fits (acc ++ f) →
  Reader.feed fmt (mk fs acc Reader.IN_QUOTED_FIELD) (doubled f)
  = Ok (mk fs (acc ++ f) Reader.IN_QUOTED_FIELD).
Proof.
  revert acc. induction f as [|c f IH]; intros acc Hfit.
  - by rewrite str_app_nil_r.
  - apply fits_step in Hfit as [Hlt Hfit].
    simpl. destruct (ascii_eqb c DQUOTE) eqn:Hq.
    + apply ascii_eqb_true in Hq as ->.
      simpl. unfold Reader.parse_process_char. simpl.
      rewrite set_state_mk, parse_add_char_ok, set_state_mk by done.
      rewrite IH by done. by str_norm.
    + simpl. unfold Reader.parse_process_char. simpl. rewrite Hq.
      rewrite parse_add_char_ok by done.
      rewrite IH by done. by str_norm.
Qed.

Ltac reader_simpl :=
  simpl; rewrite ?set_state_mk, ?parse_save_field_mk; simpl.

(** A field and the delimiter after it. *)
Lemma feed_encoded_delimiter fs (f rest : string) :
  fits f →
  Reader.feed fmt (mk fs "" Reader.START_FIELD) (encoded f ++ String SPACE rest)
  = Reader.feed fmt (mk (fs ++ [f]) "" Reader.START_FIELD) rest.
Proof.
  intros Hfit. unfold encoded. destruct (has_special f) eqn:Hs.
  - str_norm. reader_simpl.
    rewrite feed_app, feed_in_quoted by done. by reader_simpl.
  - destruct f as [|c f].
    + str_norm. by reader_simpl.
    + simpl in Hs. apply orb_false_elim in Hs as [Hc Hf].
      apply special_false in Hc as (Hsp & Hq & Hnl).
      apply (fits_step "") in Hfit as [Hlt Hfit].
      str_norm. simpl. unfold Reader.parse_process_char at 1. simpl.
      rewrite Hnl, Hq, Hsp, set_state_mk.
      rewrite feed_app, feed_in_field by done. reader_simpl. by str_norm.
Qed.

(** The last field and the line feed after it. *)
Lemma feed_encoded_newline fs (f : string) :
  fits f →
  Reader.feed fmt (mk fs "" Reader.START_FIELD) (encoded f ++ chr LF)
  = Ok (mk (fs ++ [f]) "" Reader.EAT_CRNL).
Proof.
  intros Hfit. unfold encoded. destruct (has_special f) eqn:Hs.
  - str_norm. reader_simpl.
    rewrite feed_app, feed_in_quoted by done. by reader_simpl.
  - destruct f as [|c f].
    + str_norm. by reader_simpl.
    + simpl in Hs. apply orb_false_elim in Hs as [Hc Hf].
      apply special_false in Hc as (Hsp & Hq & Hnl).
      apply (fits_step "") in Hfit as [Hlt Hfit].
      str_norm. simpl. unfold Reader.parse_process_char at 1. simpl.
      rewrite Hnl, Hq, Hsp, set_state_mk.
      rewrite feed_app, feed_in_field by done. reader_simpl. by str_norm.
Qed.

(** The first character of a field and its delimiter is no newline. *)
Lemma encoded_head (f rest : string) :
  ∃ c s, encoded f ++ String SPACE rest = String c s
         ∧ Reader.is_newline c = false.
Proof.
  unfold encoded. destruct (has_special f) eqn:Hs.
  - str_norm. eauto.
  - destruct f as [|c f]; str_norm; [eauto|].
    simpl in Hs. apply orb_false_elim in Hs as [Hc Hf].
    apply special_false in Hc as (_ & _ & Hnl). eauto.
Qed.

Lemma feed_start_record fs acc (c : ascii) (s : string) :
  Reader.is_newline c = false →
  Reader.feed fmt (mk fs acc Reader.START_RECORD) (String c s)
  = Reader.feed fmt (mk fs acc Reader.START_FIELD) (String c s).
Proof.
  intros Hnl. simpl. unfold Reader.parse_process_char. simpl.
  by rewrite Hnl, set_state_mk.
Qed.

Lemma feed_line_Bookmark (b : Bookmark) :
  storable b →
  Reader.feed_line fmt Reader.parse_reset (line_of b ++ chr LF)
  = Ok (mk (Bookmark_iter b) "" Reader.START_RECORD).
Proof.
  intros ([_ Hc] & [_ Hu] & [_ Hd]).
  unfold Reader.feed_line, Reader.parse_reset, line_of.
  rewrite !str_app_assoc.
  destruct (encoded_head (code b)
              (encoded (url b) ++ String SPACE (encoded (description b) ++ chr LF)))
    as (c & s & E & Hnl).
  str_norm. unfold chr in E. rewrite E, feed_start_record, <- E by done.
  rewrite !feed_encoded_delimiter by done.
  change (String LF "") with (chr LF).
  rewrite feed_encoded_newline by done. done.
Qed.

(** *** The lines of the file *)

Lemma str_contains_app (c : ascii) (a b : string) :
  str_contains c (a ++ b) = str_contains c a || str_contains c b.
Proof.
  induction a as [|d a IH]; [done|].
  rewrite str_app_cons. simpl. by rewrite IH, orb_assoc.
Qed.

Lemma plain_app (a b : string) : plain (a ++ b) = plain a && plain b.
Proof.
  unfold plain. rewrite !str_contains_app.
  by destruct (str_contains CR a), (str_contains LF a),
    (str_contains CR b), (str_contains LF b).
Qed.

Lemma plain_cons (c : ascii) (s : string) :
  plain (String c s) = negb (Reader.is_newline c) && plain s.
Proof.
  unfold plain, Reader.is_newline. simpl. unfold ascii_eqb.
  rewrite (bool_decide_ext (CR = c) (c = CR)) by done.
  rewrite (bool_decide_ext (LF = c) (c = LF)) by done.
  by destruct (bool_decide (c = CR)), (bool_decide (c = LF)),
    (str_contains CR s), (str_contains LF s).
Qed.

Lemma plain_doubled (f : string) : plain (doubled f) = plain f.
Proof.
  induction f as [|c f IH]; [done|]. simpl.
  destruct (ascii_eqb c DQUOTE) eqn:Hq.
  - apply ascii_eqb_true in Hq as ->. by rewrite !plain_cons, IH.
  - by rewrite !plain_cons, IH.
Qed.

Lemma plain_encoded (f : string) : plain (encoded f) = plain f.
Proof.
  unfold encoded. destruct (has_special f); [|done].
  rewrite !plain_app, plain_doubled. unfold chr. rewrite !plain_cons.
  simpl. by rewrite andb_true_r.
Qed.

Lemma plain_line_of (b : Bookmark) : storable b → plain (line_of b) = true.
Proof.
  intros ([Hc _] & [Hu _] & [Hd _]). unfold line_of.
  rewrite !plain_app, !plain_cons, !plain_app, !plain_cons, !plain_encoded.
  by rewrite Hc, Hu, Hd.
Qed.

Lemma translate_out_id (s : string) : translate_out s = s.
Proof.
  induction s as [|c s IH]; [done|]. simpl. rewrite IH.
  destruct (ascii_eqb c LF) eqn:E; [|done].
  by apply ascii_eqb_true in E as ->.
Qed.

Lemma lines_from_line (cur body rest : string) :
  plain body = true →
  lines_from cur (translate_in (body ++ lineterminator ++ rest))
  = (cur ++ body ++ chr LF) :: lines_from "" (translate_in rest).
Proof.
  revert cur. induction body as [|c body IH]; intros cur Hp.
  - unfold lineterminator. by str_norm.
  - rewrite plain_cons in Hp. apply andb_prop in Hp as [Hc Hp].
    apply negb_true_iff in Hc. unfold Reader.is_newline in Hc.
    apply orb_false_elim in Hc as [Hlf Hcr].
    rewrite str_app_cons. simpl. rewrite Hcr. simpl. rewrite Hlf.
    rewrite IH by done. by str_norm.
Qed.

Lemma dump_cons (path : string) (b : Bookmark) (rows : list Bookmark) :
  CSVObjectStorage.dump (CSVObjectStorage.init path) (b :: rows)
  = line_of b ++ lineterminator
    ++ CSVObjectStorage.dump (CSVObjectStorage.init path) rows.
Proof.
  unfold CSVObjectStorage.dump. simpl.
  by rewrite translate_out_id, writerow_Bookmark, str_app_assoc.
Qed.

Lemma has_special_contains (f : string) :
  has_special f
  = str_contains SPACE f || str_contains DQUOTE f
    || str_contains CR f || str_contains LF f.
Proof.
  induction f as [|c f IH]; [done|]. simpl. rewrite IH.
  unfold Writer.special, lineterminator. simpl. unfold ascii_eqb.
  rewrite (bool_decide_ext (SPACE = c) (c = SPACE)) by done.
  rewrite (bool_decide_ext (DQUOTE = c) (c = DQUOTE)) by done.
  rewrite (bool_decide_ext (CR = c) (c = CR)) by done.
  rewrite (bool_decide_ext (LF = c) (c = LF)) by done.
  destruct (bool_decide (c = SPACE)), (bool_decide (c = DQUOTE)),
    (bool_decide (c = CR)), (bool_decide (c = LF)),
    (str_contains SPACE f), (str_contains DQUOTE f),
    (str_contains CR f), (str_contains LF f); done.
Qed.

Lemma encoded_file_field (f : string) : encoded f = file_field f.
Proof. unfold encoded, file_field. by rewrite has_special_contains. Qed.

(** What [save] writes is the text of the storage file. *)
Lemma dump_file_text (path : string) (rows : list Bookmark) :
  CSVObjectStorage.dump (CSVObjectStorage.init path) rows = file_text rows.
Proof.
  induction rows as [|b rows IH]; [done|].
  rewrite dump_cons, IH. cbn [file_text foldr].
  unfold file_line, line_of, lineterminator.
  rewrite !encoded_file_field. simpl. by str_norm.
Qed.

Lemma file_text_app (bs1 bs2 : list Bookmark) :
  file_text (bs1 ++ bs2) = file_text bs1 ++ file_text bs2.
Proof.
  induction bs1 as [|b bs1 IH]; [done|].
  cbn [List.app file_text foldr]. fold (file_text (bs1 ++ bs2)).
  fold (file_text bs1). by rewrite IH, str_app_assoc.
Qed.

(** The reader gives back the rows of the bookmarks that were dumped. *)
Lemma reader_dump (path : string) (rows : list Bookmark) :
  Forall storable rows →
  Reader.reader fmt
    (file_lines (CSVObjectStorage.dump (CSVObjectStorage.init path) rows))
  = yield_all (map Bookmark_iter rows).
Proof.
  induction 1 as [|b rows Hb Hrows IH]; [done|].
  rewrite dump_cons. unfold file_lines, Reader.reader in *.
  rewrite lines_from_line by by apply plain_line_of.
  rewrite str_app_nil_l. cbn [Reader.rows_from].
  rewrite feed_line_Bookmark by done. simpl. by rewrite IH.
Qed.

(** *** A field over the limit *)

Lemma word_succ (n : N) : word (N.succ n) = String "a"%char (word n).
Proof. unfold word. by rewrite N.iter_succ. Qed.

Lemma word_length (n : N) : N.of_nat (String.length (word n)) = n.
Proof.
  induction n as [|n IH] using N.peano_ind; [done|].
  rewrite word_succ. simpl String.length. lia.
Qed.

Lemma word_has_special (n : N) : has_special (word n) = false.
Proof.
  induction n as [|n IH] using N.peano_ind; [done|].
  rewrite word_succ. simpl. by rewrite IH.
Qed.

Lemma word_plain (n : N) : plain (word n) = true.
Proof.
  induction n as [|n IH] using N.peano_ind; [done|].
  by rewrite word_succ, plain_cons, IH.
Qed.

Lemma feed_in_field_overflow fs acc (f rest : string) :
  has_special f = false →
  (N.of_nat (String.length acc) <= field_limit)%N →
  (field_limit < N.of_nat (String.length acc) + N.of_nat (String.length f))%N →
  Reader.feed fmt (mk fs acc Reader.IN_FIELD) (f ++ rest) = Raise csv_Error.
Proof.
  revert acc. induction f as [|c f IH]; intros acc Hs Hle Hlt.
  - simpl in Hlt. lia.
  - simpl in Hs. apply orb_false_elim in Hs as [Hc Hf].
    apply special_false in Hc as (Hsp & Hq & Hnl).
    rewrite str_app_cons. simpl. unfold Reader.parse_process_char. simpl.
    rewrite Hnl, Hsp. unfold Reader.parse_add_char. simpl.
    destruct (N.leb_spec field_limit (N.of_nat (String.length acc))) as [H|H];
      [done|].
    apply IH; [done| |]; rewrite str_length_app; simpl in *; lia.
Qed.

(** The reader refuses the line of a word of more than [field_limit]
    letters. *)
Lemma feed_line_overflow (n : N) (rest : string) :
  (field_limit < n)%N →
  Reader.feed_line fmt Reader.parse_reset (word n ++ rest) = Raise csv_Error.
Proof.
  intros Hn. unfold Reader.feed_line, Reader.parse_reset.
  destruct n as [|p] using N.peano_ind; [done|]. clear IHp.
  rewrite word_succ, str_app_cons. simpl.
  unfold Reader.parse_process_char. simpl. rewrite set_state_mk.
  rewrite feed_in_field_overflow; [done|apply word_has_special|done|].
  rewrite word_length. simpl. lia.
Qed.

End csv.

Lemma load_after_save (path : string) (rows : list Bookmark) (w : World) :
  (CSVObjectStorage.load (CSVObjectStorage.init path)
     (CSVObjectStorage.save (CSVObjectStorage.init path) rows w).2).1
  = Ok (Reader.reader {| delimiter := SPACE; quotechar := DQUOTE |}
          (file_lines (CSVObjectStorage.dump (CSVObjectStorage.init path) rows))).
Proof.
  unfold CSVObjectStorage.load, CSVObjectStorage.save. cbn [snd fs filename].
  change (filename (CSVObjectStorage.init path)) with path.
  by rewrite lookup_insert_eq.
Qed.

Lemma make_iter (rows : list Bookmark) :
  gen_map Bookmark_make (yield_all (map Bookmark_iter rows)) = yield_all rows.
Proof.
  induction rows as [|[c u d] rows IH]; [done|]. simpl. by rewrite IH.
Qed.

(** C1 (amended).  For every sequence of bookmarks whose fields hold no
    carriage return and no line feed and have at most 131072 characters
    each, [save] followed by [load] on the same file yields the rows of
    these bookmarks, in the same order and with every field as it was;
    [Bookmark._make] turns them back into the bookmarks saved. *)
Theorem C1_save_load_roundtrip (path : string) (rows : list Bookmark) (w : World) :
  Forall storable rows →
  let self := CSVObjectStorage.init path in
  let saved := (CSVObjectStorage.save self rows w).2 in
  (CSVObjectStorage.load self saved).1 = Ok (yield_all (map Bookmark_iter rows))
  ∧ gen_map Bookmark_make (yield_all (map Bookmark_iter rows)) = yield_all rows.
Proof.
  intros Hrows self saved. split; [|apply make_iter].
  unfold saved, self. by rewrite load_after_save, reader_dump.
Qed.

Lemma C1_save_load_roundtrip_witness :
  let rows := [mkBookmark "a1" "http://example.com" "My Site";
               mkBookmark "q" ("say " ++ chr DQUOTE ++ "hi" ++ chr DQUOTE) ""] in
  let self := CSVObjectStorage.init "/home/u/.webmark" in
  let saved := (CSVObjectStorage.save self rows (mkWorld ∅ [])).2 in
  Forall storable rows
  ∧ (CSVObjectStorage.load self saved).1 = Ok (yield_all (map Bookmark_iter rows))
  ∧ gen_map Bookmark_make (yield_all (map Bookmark_iter rows)) = yield_all rows.
Proof.
  intros rows self saved.
  assert (Hrows : Forall storable rows).
  { repeat constructor; vm_compute; discriminate. }
  split; [exact Hrows|].
  exact (C1_save_load_roundtrip "/home/u/.webmark" rows (mkWorld ∅ []) Hrows).
Defined.

(** C1, the claim as it stands: a bookmark whose code is a word of 131073
    letters is made of plain fields, yet after [save] the generator of
    [load] ends with the [csv.Error] of the field size limit instead of
    yielding the row. *)
Lemma C1_counterexample :
  let b := mkBookmark (word 131073) "u" "d" in
  let self := CSVObjectStorage.init "/home/u/.webmark" in
  let saved := (CSVObjectStorage.save self [b] (mkWorld ∅ [])).2 in
  Forall (λ f, plain f = true) (Bookmark_iter b)
  ∧ NoDup [b]
  ∧ (CSVObjectStorage.load self saved).1 = Ok (Raised csv_Error)
  ∧ (CSVObjectStorage.load self saved).1 ≠ Ok (yield_all (map Bookmark_iter [b])).
Proof.
  intros b self saved.
  assert (Hload : (CSVObjectStorage.load self saved).1 = Ok (Raised csv_Error)).
  { unfold saved, self. rewrite load_after_save, dump_cons.
    unfold file_lines. rewrite lines_from_line.
    - rewrite str_app_nil_l. unfold Reader.reader. cbn [Reader.rows_from].
      unfold line_of, b. cbn [code url description]. unfold encoded at 1.
      rewrite word_has_special, str_app_assoc, feed_line_overflow; done.
    - unfold line_of, b. cbn [code url description].
      rewrite plain_app, plain_encoded, word_plain. done. }
  split; [|split; [|split]].
  - unfold b, Bookmark_iter. cbn [code url description].
    constructor; [apply word_plain|]. by repeat constructor.
  - apply NoDup_singleton.
  - exact Hload.
  - rewrite Hload. discriminate.
Qed.

(** ** The ordered dictionary *)

Section ordered_dict.

Context {V : Type}.
Implicit Types (d : OrderedDict.t V) (k : string) (v : V).

Lemma contains_get k d :
  OrderedDict.contains k d = bool_decide (is_Some (OrderedDict.get k d)).
Proof.
  induction d as [|[k' v'] d IH]; [done|]. simpl.
  by destruct (bool_decide (k' = k)).
Qed.

Lemma contains_true k v d :
  OrderedDict.get k d = Some v → OrderedDict.contains k d = true.
Proof. intros H. rewrite contains_get, H. apply bool_decide_eq_true. eauto. Qed.

Lemma contains_false k d :
  OrderedDict.get k d = None → OrderedDict.contains k d = false.
Proof.
  intros H. rewrite contains_get, H. apply bool_decide_eq_false. by intros [? ?].
Qed.

Lemma get_None_keys k d : OrderedDict.get k d = None ↔ k ∉ OrderedDict.keys d.
Proof.
  unfold OrderedDict.keys. induction d as [|[k' v'] d IH].
  - split; [intros _; apply not_elem_of_nil|done].
  - cbn [OrderedDict.get]. rewrite fmap_cons, not_elem_of_cons. cbn [fst].
    case_bool_decide as E.
    + subst k'. split; [done|]. by intros [? _].
    + rewrite IH. split; [|by intros [_ ?]]. intros ?. split; [congruence|done].
Qed.

Lemma get_Some_keys k v d : OrderedDict.get k d = Some v → k ∈ OrderedDict.keys d.
Proof.
  intros H. destruct (decide (k ∈ OrderedDict.keys d)) as [|Hn]; [done|].
  apply get_None_keys in Hn. congruence.
Qed.

Lemma remove_absent k d : OrderedDict.get k d = None → OrderedDict.remove k d = d.
Proof.
  induction d as [|[k' v'] d IH]; simpl; [done|].
  case_bool_decide; [done|]. intros ?%IH. by f_equal.
Qed.

Lemma filter_absent k d :
  k ∉ OrderedDict.keys d → filter (λ item, item.1 ≠ k) d = d.
Proof.
  unfold OrderedDict.keys. induction d as [|[k' v'] d IH]; [done|].
  rewrite fmap_cons, not_elem_of_cons. simpl. intros [Hk Hd].
  rewrite filter_cons_True by (simpl; congruence). by rewrite IH.
Qed.

(** With unique keys, removing a key leaves the other items as they
    stand. *)
Lemma remove_filter k d :
  NoDup (OrderedDict.keys d) →
  OrderedDict.remove k d = filter (λ item, item.1 ≠ k) d.
Proof.
  unfold OrderedDict.keys. induction d as [|[k' v'] d IH]; [done|].
  rewrite fmap_cons. intros [Hk' Hd]%NoDup_cons. simpl. case_bool_decide as E.
  - subst k'. rewrite filter_cons_False by (simpl; auto).
    by rewrite filter_absent.
  - rewrite filter_cons_True by done. by rewrite IH.
Qed.

Lemma keys_setitem k v d :
  OrderedDict.keys (OrderedDict.setitem k v d)
  = if OrderedDict.contains k d then OrderedDict.keys d
    else (OrderedDict.keys d ++ [k])%list.
Proof.
  unfold OrderedDict.keys. induction d as [|[k' v'] d IH]; [done|].
  cbn [OrderedDict.setitem OrderedDict.contains].
  case_bool_decide; rewrite !fmap_cons; [done|].
  rewrite IH. cbn [fst orb]. by destruct (OrderedDict.contains k d).
Qed.

Lemma get_setitem k k' v d :
  OrderedDict.get k' (OrderedDict.setitem k v d)
  = if bool_decide (k = k') then Some v else OrderedDict.get k' d.
Proof.
  induction d as [|[k0 v0] d IH]; simpl.
  - done.
  - destruct (bool_decide_reflect (k0 = k)) as [->|Hne]; simpl.
    + by destruct (bool_decide (k = k')).
    + rewrite IH. destruct (bool_decide_reflect (k0 = k')) as [->|?]; [|done].
      by rewrite bool_decide_eq_false_2.
Qed.

Lemma setitem_setitem k v v' d :
  OrderedDict.setitem k v' (OrderedDict.setitem k v d) = OrderedDict.setitem k v' d.
Proof.
  induction d as [|[k0 v0] d IH]; simpl.
  - by rewrite bool_decide_eq_true_2.
  - destruct (bool_decide_reflect (k0 = k)) as [->|Hne]; simpl.
    + by rewrite bool_decide_eq_true_2.
    + by rewrite bool_decide_eq_false_2, IH.
Qed.

Lemma keys_remove_subseteq k d x :
  x ∈ OrderedDict.keys (OrderedDict.remove k d) → x ∈ OrderedDict.keys d.
Proof.
  unfold OrderedDict.keys. induction d as [|[k' v'] d IH]; [done|].
  cbn [OrderedDict.remove]. case_bool_decide.
  - rewrite fmap_cons, elem_of_cons. auto.
  - rewrite !fmap_cons, !elem_of_cons. intros [?|?]; auto.
Qed.

Lemma NoDup_keys_remove k d :
  NoDup (OrderedDict.keys d) → NoDup (OrderedDict.keys (OrderedDict.remove k d)).
Proof.
  unfold OrderedDict.keys. induction d as [|[k' v'] d IH]; simpl; [done|].
  intros [Hk' Hd]%NoDup_cons. case_bool_decide; simpl; [done|].
  apply NoDup_cons. split; [|auto].
  intros Hin. apply Hk'. by apply (keys_remove_subseteq k d).
Qed.

Lemma NoDup_keys_setitem k v d :
  NoDup (OrderedDict.keys d) → NoDup (OrderedDict.keys (OrderedDict.setitem k v d)).
Proof.
  intros Hd. rewrite keys_setitem, contains_get.
  case_bool_decide as E; [done|].
  apply NoDup_app. split; [done|]. split; [|apply NoDup_singleton].
  intros x Hx Hk%list_elem_of_singleton. subst x. apply E.
  destruct (OrderedDict.get k d) eqn:G; [eauto|].
  by apply get_None_keys in G.
Qed.

End ordered_dict.

(** ** The commands *)

Lemma app_eta (app : BookmarksApp) :
  {| settings := settings app; storage := storage app; bookmarks := bookmarks app |}
  = app.
Proof. by destruct app. Qed.

(** C2.  When [add] runs without [-f] and the code is in the collection,
    it raises the [ApplicationError] of a duplicate code, whose message
    holds the text of the bookmark in the collection and the advice to add
    [-f]; the object and the world are left as they were: the collection,
    the files and the calls of the storage are the same, so [save] was
    not called. *)
Theorem C2_add_existing_without_force
    (app : BookmarksApp) (w : World) (c u d : string) (existing : Bookmark) :
  command_args (settings app) = [c; u; d] →
  force (settings app) = false →
  OrderedDict.get c (bookmarks app) = Some existing →
  BookmarksApp.add (app, w) = (Raise (DuplicateCodeError existing), (app, w))
  ∧ DuplicateCodeError existing
    = ApplicationError
        ("There is a bookmark with that code:" ++ chr LF
         ++ ("[" ++ code existing ++ "] " ++ url existing ++ " - "
             ++ description existing)
         ++ chr LF ++ chr LF ++ "To override it add option -f").
Proof.
  intros Hargs Hforce Hget. split; [|done].
  unfold BookmarksApp.add, bind, BookmarksApp.self, lift. simpl.
  rewrite Hargs, Hforce. simpl.
  rewrite (contains_true _ _ _ Hget). simpl.
  unfold OrderedDict.getitem. by rewrite Hget.
Qed.

Lemma C2_add_existing_without_force_witness :
  let existing := mkBookmark "a1" "http://x.com" "desc" in
  let app := {| settings := {| command := cmd_add;
                               command_args := ["a1"; "http://y.com"; "desc2"];
                               force := false;
                               storage_path := "/home/u/.webmark" |};
                storage := CSVObjectStorage.init "/home/u/.webmark";
                bookmarks := [("a1", existing)] |} in
  let w := mkWorld {[ "/home/u/.webmark" :=
                         "a1 http://x.com desc" ++ lineterminator ]} [] in
  BookmarksApp.add (app, w) = (Raise (DuplicateCodeError existing), (app, w)).
Proof.
  intros existing app w.
  exact (proj1 (C2_add_existing_without_force app w "a1" "http://y.com" "desc2"
                  existing eq_refl eq_refl eq_refl)).
Defined.

(** C4.  [rm] of a code that is not in the collection raises the
    [ApplicationError] of an unknown code and leaves the object and the
    world as they were ([save] is not called).  [rm] of a code that is in
    the collection returns with that item taken out of the collection, the
    other items in their order, and with the file written anew: it holds
    the line of every bookmark that is left, in the order of the
    collection, and nothing else (the storage of the object being the
    one its constructor made for the storage path). *)
Theorem C4_rm (app : BookmarksApp) (w : World) (c : string) :
  command_args (settings app) = [c] →
  NoDup (OrderedDict.keys (bookmarks app)) →
  (OrderedDict.get c (bookmarks app) = None →
   BookmarksApp.rm (app, w)
   = (Raise (ApplicationError ("There is no bookmark with code " ++ c)), (app, w)))
  ∧ (∀ b, OrderedDict.get c (bookmarks app) = Some b →
     storage app = CSVObjectStorage.init (storage_path (settings app)) →
     let left := filter (λ item, item.1 ≠ c) (bookmarks app) in
     BookmarksApp.rm (app, w)
     = (Ok (), (with_bookmarks app left,
                {| fs := <[storage_path (settings app) := file_text left.*2]> (fs w);
                   trace := trace w ++ [Saved (storage_path (settings app))] |}))
     ∧ c ∉ left.*1).
Proof.
  intros Hargs Hnodup. split.
  - intros Hget.
    unfold BookmarksApp.rm, bind, BookmarksApp.self, lift, BookmarksApp.first_arg.
    simpl. rewrite Hargs. unfold OrderedDict.pop. rewrite Hget.
    unfold BookmarksApp.set_bookmarks, raise. simpl.
    by rewrite (remove_absent _ _ Hget), app_eta.
  - intros b Hget Hstorage left. split.
    + unfold BookmarksApp.rm, bind, BookmarksApp.self, lift, BookmarksApp.first_arg.
      simpl. rewrite Hargs. unfold OrderedDict.pop. rewrite Hget.
      unfold BookmarksApp.set_bookmarks, BookmarksApp.io, CSVObjectStorage.save.
      simpl. rewrite remove_filter by done. rewrite Hstorage, dump_file_text.
      by unfold with_bookmarks, OrderedDict.values; rewrite Hstorage.
    + unfold left. intros Hin.
      apply list_elem_of_fmap in Hin as ([k v] & -> & Hin).
      apply list_elem_of_filter in Hin as [Hne _]. by apply Hne.
Qed.

Lemma C4_rm_witness :
  let path := "/home/u/.webmark" in
  let app := {| settings := {| command := cmd_rm; command_args := ["a1"];
                               force := false; storage_path := path |};
                storage := CSVObjectStorage.init path;
                bookmarks := [("a1", mkBookmark "a1" "http://x.com" "desc");
                              ("b2", mkBookmark "b2" "http://y.com" "my site")] |} in
  let w := mkWorld {[ path := "a1 http://x.com desc" ++ lineterminator
                              ++ "b2 http://y.com " ++ chr DQUOTE ++ "my site"
                              ++ chr DQUOTE ++ lineterminator ]}
                   [Loaded path] in
  BookmarksApp.rm (app, w)
  = (Ok (), (with_bookmarks app [("b2", mkBookmark "b2" "http://y.com" "my site")],
             mkWorld (<[ path := "b2 http://y.com " ++ chr DQUOTE ++ "my site"
                                 ++ chr DQUOTE ++ chr CR ++ chr LF ]> (fs w))
                     [Loaded path; Saved path])).
Proof.
  intros path app w.
  assert (Hnodup : NoDup (OrderedDict.keys (bookmarks app))).
  { apply (bool_decide_unpack _). by vm_compute. }
  exact (proj1 (proj2 (C4_rm app w "a1" eq_refl Hnodup)
                  (mkBookmark "a1" "http://x.com" "desc") eq_refl eq_refl)).
Defined.

Lemma for_each_print (app : BookmarksApp) (l : list Bookmark) (w : World) :
  BookmarksApp.for_each l
    (λ bookmark, BookmarksApp.io (print (Bookmark_str bookmark))) (app, w)
  = (Ok (), (app, {| fs := fs w;
                     trace := trace w ++ map (λ b, Printed (Bookmark_str b)) l |})).
Proof.
  revert w. induction l as [|b l IH]; intros w.
  - simpl. unfold ret. rewrite app_nil_r. by destruct w.
  - simpl. unfold bind, BookmarksApp.io, print, log. simpl.
    rewrite IH. simpl. by rewrite <- app_assoc.
Qed.

Lemma lines_from_ended (cur body rest : string) :
  str_contains LF body = false →
  lines_from cur (body ++ chr LF ++ rest)
  = (cur ++ body ++ chr LF) :: lines_from "" rest.
Proof.
  revert cur. induction body as [|c body IH]; intros cur Hbody.
  - by str_norm.
  - simpl in Hbody. apply orb_false_elim in Hbody as [Hc Hbody].
    rewrite str_app_cons. cbn [lines_from].
    unfold ascii_eqb in *. rewrite (bool_decide_ext (c = LF) (LF = c)) by done.
    rewrite Hc, IH by done. by str_norm.
Qed.

Lemma lines_stdout (l : list string) :
  Forall (λ s, str_contains LF s = false) l →
  lines_from "" (stdout (map Printed l)) = map (λ s, s ++ chr LF) l.
Proof.
  induction 1 as [|s l Hs Hl IH]; [done|].
  cbn [map stdout]. by rewrite lines_from_ended, IH.
Qed.

Lemma one_line_str (b : Bookmark) :
  one_line b →
  str_contains LF ("[" ++ code b ++ "] " ++ url b ++ " - " ++ description b) = false.
Proof.
  intros (Hc & Hu & Hd). rewrite !str_contains_app, Hc, Hu, Hd. by vm_compute.
Qed.

(** C6 (amended).  [list] on an empty collection prints the line of the
    empty collection, and nothing else.  On a collection that is not
    empty it calls [print] once for each bookmark, in the order of the
    collection, with the code between brackets, the url, a dash and the
    description; nothing else changes.  When no field of the collection
    holds a line feed, standard output has got exactly one line for each
    bookmark. *)
Theorem C6_list (app : BookmarksApp) (w : World) :
  let printed :=
    match bookmarks app with
    | [] => [Printed (chr TAB ++ "It's empty here!  :(  ")]
    | _ :: _ =>
        map (λ b, Printed ("[" ++ code b ++ "] " ++ url b ++ " - "
                            ++ description b))
            (bookmarks app).*2
    end in
  BookmarksApp.list (app, w)
  = (Ok (), (app, {| fs := fs w; trace := trace w ++ printed |}))
  ∧ (Forall one_line (bookmarks app).*2 →
     lines_from "" (stdout printed)
     = match bookmarks app with
       | [] => [chr TAB ++ "It's empty here!  :(  " ++ chr LF]
       | _ :: _ =>
           map (λ b, "[" ++ code b ++ "] " ++ url b ++ " - "
                     ++ description b ++ chr LF)
               (bookmarks app).*2
       end
     ∧ (bookmarks app ≠ [] →
        length (lines_from "" (stdout printed)) = length (bookmarks app))).
Proof.
  intros printed. split.
  { unfold BookmarksApp.list, bind, BookmarksApp.self, printed. simpl.
    destruct (bookmarks app) as [|item d] eqn:E.
    - by unfold BookmarksApp.io, print, log, ret.
    - unfold ret. by rewrite for_each_print. }
  intros Hlines.
  assert (Hout : lines_from "" (stdout printed)
                 = match bookmarks app with
                   | [] => [chr TAB ++ "It's empty here!  :(  " ++ chr LF]
                   | _ :: _ =>
                       map (λ b, "[" ++ code b ++ "] " ++ url b ++ " - "
                                 ++ description b ++ chr LF)
                           (bookmarks app).*2
                   end).
  { unfold printed. destruct (bookmarks app) as [|item d]; [done|].
    rewrite <- (map_map (λ b, "[" ++ code b ++ "] " ++ url b ++ " - "
                              ++ description b) Printed).
    rewrite lines_stdout.
    - rewrite map_map. apply map_ext. intros b. by str_norm.
    - apply Forall_fmap. eapply Forall_impl; [exact Hlines|].
      intros b Hb. by apply one_line_str. }
  split; [exact Hout|].
  intros Hne. rewrite Hout. destruct (bookmarks app) as [|item d]; [done|].
  by rewrite length_map, length_fmap.
Qed.

Lemma C6_list_witness :
  let path := "/home/u/.webmark" in
  let app := {| settings := {| command := cmd_list; command_args := [];
                               force := false; storage_path := path |};
                storage := CSVObjectStorage.init path;
                bookmarks := [("a1", mkBookmark "a1" "http://x.com" "My Site");
                              ("b2", mkBookmark "b2" "http://y.com" "other")] |} in
  let w := mkWorld ∅ [Loaded path] in
  let printed := [Printed "[a1] http://x.com - My Site";
                  Printed "[b2] http://y.com - other"] in
  Forall one_line (bookmarks app).*2
  ∧ BookmarksApp.list (app, w)
    = (Ok (), (app, mkWorld ∅ (Loaded path :: printed)))
  ∧ lines_from "" (stdout printed)
    = ["[a1] http://x.com - My Site" ++ chr LF;
       "[b2] http://y.com - other" ++ chr LF].
Proof.
  intros path app w printed.
  assert (Hlines : Forall one_line (bookmarks app).*2).
  { repeat constructor. }
  split; [exact Hlines|].
  split; [exact (proj1 (C6_list app w))|].
  exact (proj1 (proj2 (C6_list app w) Hlines)).
Defined.

(** C6, the claim as it stands: [add] stores a description of two lines,
    the storage gives it back, and [list] then puts two lines on standard
    output for the one bookmark of the collection. *)
Lemma C6_counterexample :
  let path := "/home/u/.webmark" in
  let two_lines := "first" ++ chr LF ++ "second" in
  let settings := {| command := cmd_add;
                     command_args := ["a1"; "http://x.com"; two_lines];
                     force := false; storage_path := path |} in
  let app := {| settings := settings; storage := CSVObjectStorage.init path;
                bookmarks := [] |} in
  let added := BookmarksApp.add (app, mkWorld ∅ []) in
  let printed := [Printed ("[a1] http://x.com - " ++ two_lines)] in
  added.1 = Ok ()
  ∧ bookmarks added.2.1 = [("a1", mkBookmark "a1" "http://x.com" two_lines)]
  ∧ (BookmarksApp.init settings added.2.2).1 = Ok added.2.1
  ∧ BookmarksApp.list added.2
    = (Ok (), (added.2.1,
               {| fs := fs added.2.2; trace := trace added.2.2 ++ printed |}))
  ∧ lines_from "" (stdout printed)
    = ["[a1] http://x.com - first" ++ chr LF; "second" ++ chr LF]
  ∧ length (lines_from "" (stdout printed)) ≠ length (bookmarks added.2.1).
Proof.
  intros path two_lines settings app added printed.
  repeat split; try reflexivity. vm_compute. discriminate.
Qed.

(** C7.  When no file stands at the storage path, the generator of
    [load] yields nothing and raises nothing, and the application is
    built with an empty collection. *)
Theorem C7_load_missing_file (settings : Settings) (w : World) :
  fs w !! storage_path settings = None →
  let self := CSVObjectStorage.init (storage_path settings) in
  CSVObjectStorage.load self w
  = (Ok StopIteration, log (Loaded (storage_path settings)) w)
  ∧ BookmarksApp.init settings w
    = (Ok {| settings := settings; storage := self; bookmarks := [] |},
       log (Loaded (storage_path settings)) w).
Proof.
  intros Hfile self.
  assert (Hload : CSVObjectStorage.load self w
                  = (Ok StopIteration, log (Loaded (storage_path settings)) w)).
  { unfold CSVObjectStorage.load, self. simpl. by rewrite Hfile. }
  split; [done|].
  unfold BookmarksApp.init, bind. fold self. by rewrite Hload.
Qed.

Lemma C7_load_missing_file_witness :
  let settings := {| command := cmd_list; command_args := []; force := false;
                     storage_path := "/home/u/.webmark" |} in
  BookmarksApp.init settings (mkWorld ∅ [])
  = (Ok {| settings := settings;
           storage := CSVObjectStorage.init "/home/u/.webmark";
           bookmarks := [] |},
     mkWorld ∅ [Loaded "/home/u/.webmark"]).
Proof.
  intros settings.
  exact (proj2 (C7_load_missing_file settings (mkWorld ∅ []) eq_refl)).
Defined.

(** ** The invariant of the collection *)

Lemma Forall_setitem {V} (P : string * V → Prop) k v (d : OrderedDict.t V) :
  P (k, v) → (∀ v', P (k, v') → P (k, v)) → Forall P d →
  Forall P (OrderedDict.setitem k v d).
Proof.
  intros Hkv _. induction 1 as [|[k' v'] d Hx Hd IH]; simpl.
  - by constructor.
  - case_bool_decide; subst; constructor; auto.
Qed.

Lemma Forall_remove {V} (P : string * V → Prop) k (d : OrderedDict.t V) :
  Forall P d → Forall P (OrderedDict.remove k d).
Proof.
  induction 1 as [|[k' v'] d Hx Hd IH]; simpl; [constructor|].
  case_bool_decide; [done|]. by constructor.
Qed.

Lemma unique_codes_setitem (b : Bookmark) (d : OrderedDict.t Bookmark) :
  unique_codes d → unique_codes (OrderedDict.setitem (code b) b d).
Proof.
  intros [Hnd Hall]. split; [by apply NoDup_keys_setitem|].
  by apply Forall_setitem.
Qed.

Lemma unique_codes_remove (k : string) (d : OrderedDict.t Bookmark) :
  unique_codes d → unique_codes (OrderedDict.remove k d).
Proof.
  intros [Hnd Hall]. split; [by apply NoDup_keys_remove|by apply Forall_remove].
Qed.

Lemma unique_codes_update (d d' : OrderedDict.t Bookmark) (g : generated Bookmark) :
  unique_codes d →
  OrderedDict.update d (gen_map (λ x, Ok (code x, x)) g) = Ok d' →
  unique_codes d'.
Proof.
  revert d. induction g as [|b g IH|e]; intros d Hd; simpl.
  - by intros [= <-].
  - apply IH. by apply unique_codes_setitem.
  - done.
Qed.

Lemma init_bookmarks (settings : Settings) (w w' : World) (app : BookmarksApp) :
  BookmarksApp.init settings w = (Ok app, w') →
  ∃ rows, OrderedDict.new (gen_map (λ x, Ok (code x, x)) (gen_map Bookmark_make rows))
          = Ok (bookmarks app).
Proof.
  unfold BookmarksApp.init, bind, lift, ret.
  destruct (CSVObjectStorage.load _ w) as [[rows|e] w1] eqn:E; [|done].
  destruct (OrderedDict.new _) as [d|e] eqn:Hnew; [|done].
  intros [= <- _]. eauto.
Qed.

Lemma add_keeps_unique_codes (app : BookmarksApp) (w : World) :
  unique_codes (bookmarks app) →
  unique_codes (bookmarks (object_after BookmarksApp.add app w)).
Proof.
  intros Hd. unfold object_after, BookmarksApp.add, bind, BookmarksApp.self, lift.
  simpl. destruct (Bookmark_new _) as [b|e]; [|done].
  destruct (negb _ && _); simpl.
  - by destruct (OrderedDict.getitem _ _).
  - by apply unique_codes_setitem.
Qed.

Lemma rm_keeps_unique_codes (app : BookmarksApp) (w : World) :
  unique_codes (bookmarks app) →
  unique_codes (bookmarks (object_after BookmarksApp.rm app w)).
Proof.
  intros Hd. unfold object_after, BookmarksApp.rm, bind, BookmarksApp.self, lift.
  simpl. destruct (BookmarksApp.first_arg app) as [c|e]; [|done].
  simpl. destruct (OrderedDict.get c (bookmarks app)); simpl;
    by apply unique_codes_remove.
Qed.

Lemma open_keeps_object (app : BookmarksApp) (w : World) :
  object_after BookmarksApp.open app w = app.
Proof.
  unfold object_after, BookmarksApp.open, bind, BookmarksApp.self, lift.
  simpl. destruct (BookmarksApp.first_arg app) as [c|e]; [|done].
  by destruct (OrderedDict.get c (bookmarks app)).
Qed.

Lemma list_keeps_object (app : BookmarksApp) (w : World) :
  object_after BookmarksApp.list app w = app.
Proof.
  unfold object_after, BookmarksApp.list, bind, BookmarksApp.self. simpl.
  destruct (bookmarks app) as [|item d]; [done|].
  unfold ret. by rewrite for_each_print.
Qed.

(** C9.  The collection [BookmarksApp] builds from the storage has unique
    keys, each the code of its bookmark; and [add], [rm], [list] and
    [open] (and so [run]) keep this, whether they return or raise. *)
Theorem C9_unique_codes_invariant :
  (∀ settings w app w',
     BookmarksApp.init settings w = (Ok app, w') → unique_codes (bookmarks app))
  ∧ (∀ m app w,
       m ∈ [BookmarksApp.add; BookmarksApp.rm; BookmarksApp.list;
            BookmarksApp.open; BookmarksApp.run] →
       unique_codes (bookmarks app) →
       unique_codes (bookmarks (object_after m app w))).
Proof.
  split.
  - intros settings w app w' (rows & Hnew)%init_bookmarks.
    apply (unique_codes_update [] _ (gen_map Bookmark_make rows)); [|done].
    split; [apply NoDup_nil_2|constructor].
  - intros m app w Hm Hd.
    assert (Hadd := add_keeps_unique_codes app w Hd).
    assert (Hrm := rm_keeps_unique_codes app w Hd).
    assert (Hlist := list_keeps_object app w).
    assert (Hopen := open_keeps_object app w).
    apply list_elem_of_In in Hm. simpl in Hm.
    destruct Hm as [<-|[<-|[<-|[<-|[<-|[]]]]]]; try done.
    + by rewrite Hlist.
    + by rewrite Hopen.
    + unfold object_after in *.
      unfold BookmarksApp.run, bind, BookmarksApp.self. simpl.
      destruct (command (settings app)); try done.
      * by rewrite Hlist.
      * by rewrite Hopen.
Qed.

Lemma C9_unique_codes_invariant_witness :
  let app := {| settings := {| command := cmd_add;
                               command_args := ["b2"; "http://y.com"; "other"];
                               force := false;
                               storage_path := "/home/u/.webmark" |};
                storage := CSVObjectStorage.init "/home/u/.webmark";
                bookmarks := [("a1", mkBookmark "a1" "http://x.com" "desc")] |} in
  unique_codes (bookmarks app)
  ∧ unique_codes (bookmarks (object_after BookmarksApp.run app (mkWorld ∅ []))).
Proof.
  intros app.
  assert (Hd : unique_codes (bookmarks app)).
  { split; [apply NoDup_singleton|by repeat constructor]. }
  split; [exact Hd|].
  apply (proj2 C9_unique_codes_invariant BookmarksApp.run app (mkWorld ∅ []));
    [|exact Hd].
  apply list_elem_of_In. simpl. tauto.
Defined.

(** ** Building the collection from the storage *)

Lemma update_bookmarks (d : OrderedDict.t Bookmark) (bs : list Bookmark) :
  OrderedDict.update d
    (gen_map (λ x, Ok (code x, x))
       (gen_map Bookmark_make (yield_all (map Bookmark_iter bs))))
  = Ok (fold_left store bs d).
Proof.
  revert d. induction bs as [|[c u e] bs IH]; intros d; [done|].
  simpl. by rewrite IH.
Qed.

Lemma elem_of_keys_contains {V} k (d : OrderedDict.t V) :
  bool_decide (k ∈ OrderedDict.keys d) = OrderedDict.contains k d.
Proof.
  rewrite contains_get. apply bool_decide_ext. split.
  - intros Hin. destruct (OrderedDict.get k d) eqn:G; [eauto|].
    by apply get_None_keys in G.
  - intros [v G]. by apply get_Some_keys in G.
Qed.

Lemma keys_fold_store (d : OrderedDict.t Bookmark) (bs : list Bookmark) :
  OrderedDict.keys (fold_left store bs d)
  = (OrderedDict.keys d ++ new_codes (OrderedDict.keys d) (map code bs))%list.
Proof.
  revert d. induction bs as [|b bs IH]; intros d; simpl.
  - by rewrite app_nil_r.
  - rewrite IH. unfold store at 1 2. rewrite keys_setitem, elem_of_keys_contains.
    destruct (OrderedDict.contains (code b) d); [done|].
    by rewrite <- app_assoc.
Qed.

Lemma get_fold_store (c : string) (d : OrderedDict.t Bookmark) (bs : list Bookmark) :
  OrderedDict.get c (fold_left store bs d)
  = match last_with_code c bs with
    | Some b => Some b
    | None => OrderedDict.get c d
    end.
Proof.
  unfold last_with_code. revert d. induction bs as [|b bs IH]; intros d; [done|].
  simpl. rewrite IH. unfold store. rewrite get_setitem, filter_cons.
  destruct (decide (code b = c)) as [E|E].
  - rewrite bool_decide_eq_true_2, last_cons by done.
    by destruct (last (filter _ bs)).
  - by rewrite bool_decide_eq_false_2.
Qed.

Lemma NoDup_keys_fold_store (d : OrderedDict.t Bookmark) (bs : list Bookmark) :
  NoDup (OrderedDict.keys d) → NoDup (OrderedDict.keys (fold_left store bs d)).
Proof.
  revert d. induction bs as [|b bs IH]; intros d Hd; [done|].
  simpl. apply IH. by apply NoDup_keys_setitem.
Qed.

(** C10.  When the storage yields the rows of the bookmarks [bs], codes
    repeated or not, the application is built (nothing is raised); its
    collection has one key for each code, in the order in which the codes
    first occur in [bs], and the bookmark of a code is the last one of
    [bs] with that code. *)
Theorem C10_duplicate_codes_in_storage
    (settings : Settings) (w : World) (bs : list Bookmark) :
  (CSVObjectStorage.load (CSVObjectStorage.init (storage_path settings)) w).1
  = Ok (yield_all (map Bookmark_iter bs)) →
  ∃ app,
    BookmarksApp.init settings w = (Ok app, log (Loaded (storage_path settings)) w)
    ∧ OrderedDict.keys (bookmarks app) = first_occurrences (map code bs)
    ∧ NoDup (OrderedDict.keys (bookmarks app))
    ∧ ∀ c, OrderedDict.get c (bookmarks app) = last_with_code c bs.
Proof.
  intros Hload.
  exists {| settings := settings;
            storage := CSVObjectStorage.init (storage_path settings);
            bookmarks := fold_left store bs [] |}.
  split; [|split; [|split]].
  - unfold BookmarksApp.init, bind, lift, ret.
    destruct (CSVObjectStorage.load _ w) as [r w1] eqn:E.
    simpl in Hload. subst r.
    unfold OrderedDict.new, OrderedDict.empty. rewrite update_bookmarks.
    unfold CSVObjectStorage.load in E. simpl in E.
    by destruct (fs w !! storage_path settings); injection E as _ <-.
  - simpl. by rewrite keys_fold_store.
  - simpl. apply NoDup_keys_fold_store, NoDup_nil_2.
  - intros c. simpl. rewrite get_fold_store. by destruct (last_with_code c bs).
Qed.

Lemma C10_duplicate_codes_in_storage_witness :
  let settings := {| command := cmd_list; command_args := []; force := false;
                     storage_path := "/home/u/.webmark" |} in
  let text := "a1 http://x.com first" ++ chr LF
              ++ "b2 http://y.com other" ++ chr LF
              ++ "a1 http://z.com second" ++ chr LF in
  let w := mkWorld {[ "/home/u/.webmark" := text ]} [] in
  ∃ app,
    BookmarksApp.init settings w = (Ok app, log (Loaded "/home/u/.webmark") w)
    ∧ OrderedDict.keys (bookmarks app) = ["a1"; "b2"]
    ∧ NoDup (OrderedDict.keys (bookmarks app))
    ∧ ∀ c, OrderedDict.get c (bookmarks app)
           = last_with_code c [mkBookmark "a1" "http://x.com" "first";
                               mkBookmark "b2" "http://y.com" "other";
                               mkBookmark "a1" "http://z.com" "second"].
Proof.
  intros settings text w.
  apply (C10_duplicate_codes_in_storage settings w
           [mkBookmark "a1" "http://x.com" "first";
            mkBookmark "b2" "http://y.com" "other";
            mkBookmark "a1" "http://z.com" "second"]).
  vm_compute. reflexivity.
Defined.

(** ** Adding with [-f] *)

Lemma add_force (app : BookmarksApp) (w : World) (c u d : string) :
  command_args (settings app) = [c; u; d] →
  force (settings app) = true →
  let stored := OrderedDict.setitem c (mkBookmark c u d) (bookmarks app) in
  BookmarksApp.add (app, w)
  = (Ok (), (with_bookmarks app stored,
             saved_world (storage app) (OrderedDict.values stored) w)).
Proof.
  intros Hargs Hforce stored.
  unfold BookmarksApp.add, bind, BookmarksApp.self, lift. simpl.
  by rewrite Hargs, Hforce.
Qed.

Lemma filter_eq_absent (c : string) (l : list string) :
  c ∉ l → filter (λ k, k = c) l = [].
Proof.
  induction l as [|x l IH]; [done|].
  rewrite not_elem_of_cons. intros [Hx Hl].
  rewrite filter_cons_False by congruence. auto.
Qed.

(** A key of a list without duplicates occurs once. *)
Lemma count_NoDup (c : string) (l : list string) :
  NoDup l → c ∈ l → length (filter (λ k, k = c) l) = 1%nat.
Proof.
  induction 1 as [|x l Hx Hl IH]; [by intros ?%elem_of_nil|].
  destruct (decide (x = c)) as [->|Hne]; intros Hin.
  - rewrite filter_cons_True by done. by rewrite filter_eq_absent.
  - rewrite filter_cons_False by done. apply IH.
    apply elem_of_cons in Hin as [?|?]; [congruence|done].
Qed.

(** C5.  From any collection, two [add] with [-f] for the same code both
    return; the collection then has one entry for the code, the bookmark
    of the second call; it is the collection a single [add] of the second
    bookmark gives; the keys are those left by the first call, which are
    the keys from before when the code was among them (the entry stays
    where it was) and the keys from before followed by the code
    otherwise; and the file holds the whole collection. *)
Theorem C5_add_force_twice
    (app : BookmarksApp) (w : World) (c u1 d1 u2 d2 : string) :
  force (settings app) = true →
  NoDup (OrderedDict.keys (bookmarks app)) →
  let first := BookmarksApp.add (with_command_args app [c; u1; d1], w) in
  let app1 := first.2.1 in
  let second := BookmarksApp.add (with_command_args app1 [c; u2; d2], first.2.2) in
  let app2 := second.2.1 in
  first.1 = Ok () ∧ second.1 = Ok ()
  ∧ length (filter (λ k, k = c) (OrderedDict.keys (bookmarks app2))) = 1%nat
  ∧ OrderedDict.get c (bookmarks app2) = Some (mkBookmark c u2 d2)
  ∧ bookmarks app2 = OrderedDict.setitem c (mkBookmark c u2 d2) (bookmarks app)
  ∧ OrderedDict.keys (bookmarks app2) = OrderedDict.keys (bookmarks app1)
  ∧ OrderedDict.keys (bookmarks app1)
    = (if OrderedDict.contains c (bookmarks app)
       then OrderedDict.keys (bookmarks app)
       else (OrderedDict.keys (bookmarks app) ++ [c])%list)
  ∧ fs second.2.2 !! filename (storage app)
    = Some (CSVObjectStorage.dump (storage app)
              (OrderedDict.values (bookmarks app2))).
Proof.
  intros Hforce Hnodup first app1 second app2.
  assert (Hfirst : first
            = (Ok (),
               (with_bookmarks (with_command_args app [c; u1; d1])
                  (OrderedDict.setitem c (mkBookmark c u1 d1) (bookmarks app)),
                saved_world (storage app)
                  (OrderedDict.values
                     (OrderedDict.setitem c (mkBookmark c u1 d1) (bookmarks app)))
                  w))).
  { unfold first. by rewrite (add_force _ w c u1 d1). }
  assert (Hsecond : second.1 = Ok ()
            ∧ bookmarks app2
              = OrderedDict.setitem c (mkBookmark c u2 d2) (bookmarks app)
            ∧ fs second.2.2 !! filename (storage app)
              = Some (CSVObjectStorage.dump (storage app)
                        (OrderedDict.values (bookmarks app2)))).
  { unfold app2, second, app1. rewrite Hfirst. cbn [fst snd].
    rewrite (add_force _ _ c u2 d2) by done. cbn [fst snd].
    split; [done|]. split.
    - simpl. apply setitem_setitem.
    - simpl. apply lookup_insert_eq. }
  destruct Hsecond as (Hok & Hbook & Hfile).
  assert (Hkeys1 : OrderedDict.keys (bookmarks app1)
            = (if OrderedDict.contains c (bookmarks app)
               then OrderedDict.keys (bookmarks app)
               else (OrderedDict.keys (bookmarks app) ++ [c])%list)).
  { unfold app1. rewrite Hfirst. simpl. apply keys_setitem. }
  assert (Hkeys2 : OrderedDict.keys (bookmarks app2)
                   = OrderedDict.keys (bookmarks app1)).
  { rewrite Hbook, Hkeys1. apply keys_setitem. }
  assert (Hget : OrderedDict.get c (bookmarks app2) = Some (mkBookmark c u2 d2)).
  { rewrite Hbook, get_setitem. by rewrite bool_decide_eq_true_2. }
  split; [by rewrite Hfirst|]. split; [done|]. split.
  - apply count_NoDup.
    + rewrite Hbook. by apply NoDup_keys_setitem.
    + by apply get_Some_keys in Hget.
  - done.
Qed.

Lemma C5_add_force_twice_witness :
  let app := {| settings := {| command := cmd_add; command_args := [];
                               force := true;
                               storage_path := "/home/u/.webmark" |};
                storage := CSVObjectStorage.init "/home/u/.webmark";
                bookmarks := [("a1", mkBookmark "a1" "http://x.com" "desc");
                              ("b2", mkBookmark "b2" "http://y.com" "other")] |} in
  let w := mkWorld ∅ [] in
  let first := BookmarksApp.add (with_command_args app ["a1"; "u1"; "d1"], w) in
  let second :=
    BookmarksApp.add (with_command_args first.2.1 ["a1"; "u2"; "d2"], first.2.2) in
  bookmarks second.2.1
  = [("a1", mkBookmark "a1" "u2" "d2");
     ("b2", mkBookmark "b2" "http://y.com" "other")].
Proof.
  intros app w first second.
  assert (Hnodup : NoDup (OrderedDict.keys (bookmarks app))).
  { apply (bool_decide_unpack _). by vm_compute. }
  exact (proj1 (proj2 (proj2 (proj2 (proj2
           (C5_add_force_twice app w "a1" "u1" "d1" "u2" "d2" eq_refl Hnodup)))))).
Defined.

(** ** The configuration *)

Lemma init_from_env_set (p : Process) (self : Settings) (path : string) :
  environ p !! "WEBMARK_STORAGE_PATH" = Some path →
  Settings.init_from_env p self = with_storage_path self path.
Proof. intros H. unfold Settings.init_from_env. by rewrite H. Qed.

Lemma init_from_env_unset (p : Process) (self : Settings) :
  environ p !! "WEBMARK_STORAGE_PATH" = None →
  Settings.init_from_env p self = with_storage_path self (storage_path self).
Proof. intros H. unfold Settings.init_from_env. by rewrite H. Qed.

(** C3 (amended).  Let the parser have accepted the arguments, so that the
    storage path it left is the value of [--storage-path], or the default
    without the flag.  When [WEBMARK_STORAGE_PATH] is set, the storage
    path of the configuration is the value of the variable, with the
    tilde expanded, whatever the flag said.  When the variable is not
    set, it is the path the parser left, with the tilde expanded. *)
Theorem C3_storage_path_precedence
    (parse_args : list string → result Settings) (p : Process) (ns : Settings) :
  Settings.init_from_args parse_args p = Ok ns →
  (∀ path, environ p !! "WEBMARK_STORAGE_PATH" = Some path →
     Settings.init parse_args p = Ok (with_storage_path ns (expanduser p path)))
  ∧ (environ p !! "WEBMARK_STORAGE_PATH" = None →
     Settings.init parse_args p
     = Ok (with_storage_path ns (expanduser p (storage_path ns)))).
Proof.
  intros Hargs. unfold Settings.init. rewrite Hargs. split.
  - intros path Henv. by rewrite (init_from_env_set _ _ path).
  - intros Henv. by rewrite init_from_env_unset.
Qed.

Lemma C3_storage_path_precedence_witness :
  let p := {| argv := ["--storage-path"; "~/marks"; "list"];
              environ := {[ "HOME" := "/home/u" ]};
              pw_dir_self := None;
              pw_dir := λ _, None |} in
  Settings.init argparse.parse_args p
  = Ok {| command := cmd_list; command_args := []; force := false;
          storage_path := "/home/u/marks" |}.
Proof.
  intros p.
  exact (proj2 (C3_storage_path_precedence argparse.parse_args p
                  {| command := cmd_list; command_args := []; force := false;
                     storage_path := "~/marks" |} eq_refl) eq_refl).
Defined.

(** C3, the claim as it stands: with [--storage-path /tmp/flag.webmark] on
    the command line and [WEBMARK_STORAGE_PATH] set to
    [/tmp/env.webmark], the parser stores the value of the flag, and the
    configuration ends with the value of the variable. *)
Lemma C3_counterexample :
  let p := {| argv := ["--storage-path"; "/tmp/flag.webmark"; "list"];
              environ := {[ "WEBMARK_STORAGE_PATH" := "/tmp/env.webmark" ]};
              pw_dir_self := None;
              pw_dir := λ _, None |} in
  argparse.parse_args (argv p)
  = Ok {| command := cmd_list; command_args := []; force := false;
          storage_path := "/tmp/flag.webmark" |}
  ∧ ∃ self, Settings.init argparse.parse_args p = Ok self
            ∧ storage_path self = "/tmp/env.webmark"
            ∧ storage_path self ≠ "/tmp/flag.webmark".
Proof.
  intros p. split; [reflexivity|].
  eexists. split; [reflexivity|]. split; [reflexivity|]. discriminate.
Qed.

(** ** The errors at the top level *)

Lemma parse_add_char_raise self c e :
  Reader.parse_add_char self c = Raise e → e = csv_Error.
Proof. unfold Reader.parse_add_char. case_match; by intros [=]. Qed.

Lemma parse_process_char_raise fmt self c e :
  Reader.parse_process_char fmt self c = Raise e → e = csv_Error.
Proof.
  unfold Reader.parse_process_char, Reader.start_field.
  repeat case_match; try (by intros [=]);
    try (intros [= <-]); eauto using parse_add_char_raise.
Qed.

Lemma feed_raise fmt self line e :
  Reader.feed fmt self line = Raise e → e = csv_Error.
Proof.
  revert self. induction line as [|c line IH]; intros self; simpl; [done|].
  destruct (Reader.parse_process_char fmt self (Reader.Chr c)) eqn:E; [apply IH|].
  intros [= <-]. by apply parse_process_char_raise in E.
Qed.

Lemma rows_from_raise fmt self lines e :
  gen_exn (Reader.rows_from fmt self lines) = Some e → e = csv_Error.
Proof.
  revert self. induction lines as [|line lines IH]; intros self; simpl.
  - by case_match.
  - unfold Reader.feed_line.
    destruct (Reader.feed fmt self line) as [self1|e1] eqn:E1.
    + destruct (Reader.parse_process_char fmt self1 Reader.EOL) as [self2|e2] eqn:E2.
      * case_match; simpl; apply IH.
      * simpl. intros [= <-]. by apply parse_process_char_raise in E2.
    + simpl. intros [= <-]. by apply feed_raise in E1.
Qed.

Lemma gen_map_raise {A B} (f : A → result B) (g : generated A) e :
  gen_exn (gen_map f g) = Some e →
  gen_exn g = Some e ∨ ∃ x, f x = Raise e.
Proof.
  induction g as [|x g IH|e']; simpl; [done| |by left].
  destruct (f x) eqn:E; simpl; [done|]. intros [= <-]. eauto.
Qed.

Lemma update_raise {V} (d : OrderedDict.t V) g e :
  OrderedDict.update d g = Raise e → gen_exn g = Some e.
Proof.
  revert d. induction g as [|[k v] g IH|e']; intros d; simpl; [done|apply IH|].
  by intros [= <-].
Qed.

(** What escapes from the construction of the application: an error of the
    reader, or the [TypeError] of a row that has not three fields. *)
Lemma init_raise (settings : Settings) (w w' : World) e :
  BookmarksApp.init settings w = (Raise e, w') → e = csv_Error ∨ e = TypeError.
Proof.
  unfold BookmarksApp.init, bind, lift, ret, CSVObjectStorage.load.
  destruct (fs w !! _) as [content|]; [|done].
  destruct (OrderedDict.new _) as [d|e'] eqn:Hnew; [done|].
  intros [= <- _]. apply update_raise in Hnew.
  apply gen_map_raise in Hnew as [Hnew|[x [=]]].
  apply gen_map_raise in Hnew as [Hnew|[x Hx]].
  - left. by apply rows_from_raise in Hnew.
  - right. unfold Bookmark_make in Hx. by repeat case_match; simplify_eq.
Qed.

(** No command raises an [ArgumentsError]. *)
Lemma run_raise (app : BookmarksApp) (w : World) s e msg :
  BookmarksApp.run (app, w) = (Raise e, s) → e ≠ ArgumentsError msg.
Proof.
  unfold BookmarksApp.run, bind, BookmarksApp.self. simpl.
  destruct (command (settings app)).
  - unfold BookmarksApp.list, bind, BookmarksApp.self. simpl.
    destruct (bookmarks app) as [|item d]; [done|].
    unfold ret. by rewrite for_each_print.
  - unfold BookmarksApp.add, bind, BookmarksApp.self, lift, raise,
      Bookmark_new, OrderedDict.getitem, BookmarksApp.set_bookmarks,
      BookmarksApp.io, CSVObjectStorage.save.
    simpl. repeat case_match; intros ?; by simplify_eq.
  - unfold BookmarksApp.rm, bind, BookmarksApp.self, lift, raise,
      BookmarksApp.first_arg, BookmarksApp.set_bookmarks,
      BookmarksApp.io, CSVObjectStorage.save, OrderedDict.pop.
    simpl. repeat case_match; intros ?; by simplify_eq.
  - unfold BookmarksApp.open, bind, BookmarksApp.self, lift, raise,
      BookmarksApp.first_arg, BookmarksApp.io, open_new_tab.
    simpl. repeat case_match; intros ?; by simplify_eq.
Qed.

(** The parser on a first argument that is not an option and not a
    command. *)
Lemma parse_optional_raise (arg_string : string) e :
  argparse.parse_optional arg_string = Raise e → e = SystemExit 2.
Proof.
  unfold argparse.parse_optional. repeat case_match; by intros [=].
Qed.

Lemma arg_strings_pattern_raise (arg_strings : list string) e :
  argparse.arg_strings_pattern arg_strings = Raise e → e = SystemExit 2.
Proof.
  induction arg_strings as [|a l IH]; [done|]. cbn [argparse.arg_strings_pattern].
  case_bool_decide; [done|].
  destruct (argparse.parse_optional a) as [t|e'] eqn:Ha.
  - destruct (argparse.arg_strings_pattern l); [done|]. intros [= <-]. by apply IH.
  - intros [= <-]. by apply parse_optional_raise in Ha.
Qed.

Lemma not_option_not_separator (c : string) : startswith "-" c = false → c ≠ "--".
Proof. by intros H ->. Qed.

Lemma get_values_not_a_choice (c : string) (l : list string) :
  c ≠ "--" → c ∉ argparse.choices →
  argparse.get_values (Some argparse.choices) (c :: l) = Raise (SystemExit 2).
Proof.
  intros Hc Hno. unfold argparse.get_values. cbn [argparse.remove_first].
  rewrite bool_decide_eq_false_2 by done.
  assert (Hcheck : argparse.check_value (Some argparse.choices) c = false).
  { unfold argparse.check_value. by rewrite bool_decide_eq_false_2. }
  destruct (argparse.remove_first "--" l); cbn [forallb]; by rewrite Hcheck.
Qed.

Lemma consume_positionals_not_a_choice (c : string) (pending : list argparse.token)
    (st : argparse.state) :
  c ≠ "--" → c ∉ argparse.choices → argparse.positionals st = true →
  argparse.consume_positionals (argparse.Arg c :: pending) st = Raise (SystemExit 2).
Proof.
  intros Hc Hno Hpos. unfold argparse.consume_positionals. rewrite Hpos.
  unfold argparse.match_arguments_partial. cbn [argparse.span argparse.is_dash].
  destruct (argparse.span pending) as [dashes rest]. cbn [app map argparse.arg_string].
  by rewrite get_values_not_a_choice.
Qed.

Lemma consume_not_a_choice (c : string) (pattern pending : list argparse.token)
    (st : argparse.state) :
  c ≠ "--" → c ∉ argparse.choices → argparse.positionals st = true →
  argparse.consume pattern (argparse.Arg c :: pending) st = Raise (SystemExit 2).
Proof.
  intros Hc Hno Hpos. revert pending.
  induction pattern as [|t pattern IH]; intros pending.
  - by apply consume_positionals_not_a_choice.
  - destruct t as [a|[[[action|] option_string] explicit_arg]|];
      cbn [argparse.consume];
      rewrite ?consume_positionals_not_a_choice by done; try done;
      apply (IH (pending ++ [_])%list).
Qed.

Lemma parse_args_not_a_choice (c : string) (rest : list string) :
  startswith "-" c = false → c ∉ ["list"; "add"; "rm"; "open"] →
  argparse.parse_args (c :: rest) = Raise (SystemExit 2).
Proof.
  intros Hc Hno. pose proof (not_option_not_separator c Hc) as Hsep.
  unfold argparse.parse_args, argparse.parse_known_args.
  cbn [argparse.arg_strings_pattern]. rewrite bool_decide_eq_false_2 by done.
  assert (Hpos : argparse.parse_optional c = Ok None).
  { unfold argparse.parse_optional. case_bool_decide; [done|]. by rewrite Hc. }
  rewrite Hpos.
  destruct (argparse.arg_strings_pattern rest) as [pattern|e] eqn:Hrest.
  - cbn [argparse.consume]. by rewrite (consume_not_a_choice c pattern []).
  - by apply arg_strings_pattern_raise in Hrest as ->.
Qed.

Section top_level.

Variable parse_args : list string → result Settings.

(** An [ArgumentsError] comes from the configuration, before the world is
    touched. *)
Lemma body_ArgumentsError (p : Process) (w w' : World) (msg : string) :
  body parse_args p w = (Raise (ArgumentsError msg), w') →
  Settings.init parse_args p = Raise (ArgumentsError msg) ∧ w' = w.
Proof.
  unfold body, bind, lift.
  destruct (Settings.init parse_args p) as [settings|e]; [|by intros [= -> ->]].
  destruct (BookmarksApp.init settings w) as [[app|e] w1] eqn:Einit.
  - destruct (BookmarksApp.run (app, w1)) as [r s] eqn:Erun.
    intros [= -> _]. by apply (run_raise _ _ _ _ msg) in Erun.
  - intros [= -> _]. by apply init_raise in Einit as [?|?].
Qed.

Lemma init_from_args_wrong_count (p : Process) (ns : Settings) (usage : string) :
  parse_args (argv p) = Ok ns → wrong_count ns = Some usage →
  Settings.init_from_args parse_args p = Raise (ArgumentsError usage).
Proof.
  intros Hparse. unfold Settings.init_from_args, wrong_count. rewrite Hparse.
  destruct (command ns); simpl; [done|..];
    case_bool_decide as Hlen; intros [= <-];
    apply Nat.eqb_neq in Hlen; by rewrite Hlen.
Qed.

(** C8 (amended).  At the top level:
    - an [ArgumentsError] is raised before the storage is touched, its
      message is printed, and the process exits with status 1;
    - this is what happens when [add] has not three positional arguments,
      or [rm] or [open] has not one;
    - an [ApplicationError] has its message printed, and the process exits
      with status 1;
    - when the argument parser itself ends the process, the process exits
      with the status of the parser, the program prints no message of its
      own and the storage is not touched;
    - this is what the parser of [init_from_args] does, with status 2,
      when the first argument is not an option and is not one of the four
      commands, whatever follows it: a command that is not known is no
      [ArgumentsError].
    In none of these cases is there a traceback. *)
Theorem C8_errors_at_top_level (p : Process) (w : World) :
  (∀ msg w',
     body parse_args p w = (Raise (ArgumentsError msg), w') →
     w' = w
     ∧ main parse_args p w = (Raise (SystemExit 1), log (Printed msg) w)
     ∧ terminate (main parse_args p w).1 = Exited 1)
  ∧ (∀ ns usage,
       parse_args (argv p) = Ok ns → wrong_count ns = Some usage →
       body parse_args p w = (Raise (ArgumentsError usage), w))
  ∧ (∀ msg w',
       body parse_args p w = (Raise (ApplicationError msg), w') →
       main parse_args p w = (Raise (SystemExit 1), log (Printed msg) w')
       ∧ terminate (main parse_args p w).1 = Exited 1)
  ∧ (∀ status,
       parse_args (argv p) = Raise (SystemExit status) →
       main parse_args p w = (Raise (SystemExit status), w)
       ∧ terminate (main parse_args p w).1 = Exited status)
  ∧ (∀ c rest,
       argv p = c :: rest →
       startswith "-" c = false →
       c ∉ ["list"; "add"; "rm"; "open"] →
       argparse.parse_args (argv p) = Raise (SystemExit 2)
       ∧ main argparse.parse_args p w = (Raise (SystemExit 2), w)
       ∧ terminate (main argparse.parse_args p w).1 = Exited 2).
Proof.
  split; [|split; [|split; [|split]]].
  - intros msg w' Hbody.
    destruct (body_ArgumentsError _ _ _ _ Hbody) as [_ ->].
    assert (Hmain : main parse_args p w
                    = (Raise (SystemExit 1), log (Printed msg) w)).
    { unfold main. by rewrite Hbody. }
    by rewrite Hmain.
  - intros ns usage Hparse Hcount.
    unfold body, bind, lift, Settings.init.
    by rewrite (init_from_args_wrong_count p ns usage).
  - intros msg w' Hbody.
    assert (Hmain : main parse_args p w
                    = (Raise (SystemExit 1), log (Printed msg) w')).
    { unfold main. by rewrite Hbody. }
    by rewrite Hmain.
  - intros status Hparse.
    assert (Hmain : main parse_args p w = (Raise (SystemExit status), w)).
    { unfold main, body, bind, lift, Settings.init, Settings.init_from_args.
      by rewrite Hparse. }
    by rewrite Hmain.
  - intros c rest Hargv Hc Hno.
    assert (Hparse : argparse.parse_args (argv p) = Raise (SystemExit 2)).
    { rewrite Hargv. by apply parse_args_not_a_choice. }
    assert (Hmain : main argparse.parse_args p w = (Raise (SystemExit 2), w)).
    { unfold main, body, bind, lift, Settings.init, Settings.init_from_args.
      by rewrite Hparse. }
    by rewrite Hmain.
Qed.

End top_level.

Lemma C8_errors_at_top_level_witness :
  let p := {| argv := ["add"; "a1"; "http://x.com"];
              environ := {[ "HOME" := "/home/u" ]};
              pw_dir_self := None;
              pw_dir := λ _, None |} in
  let p' := {| argv := ["frobnicate"; "a1"; "-h"];
               environ := {[ "HOME" := "/home/u" ]};
               pw_dir_self := None;
               pw_dir := λ _, None |} in
  let w := mkWorld ∅ [] in
  body argparse.parse_args p w = (Raise (ArgumentsError Settings.add_usage), w)
  ∧ main argparse.parse_args p w
    = (Raise (SystemExit 1), log (Printed Settings.add_usage) w)
  ∧ terminate (main argparse.parse_args p w).1 = Exited 1
  ∧ main argparse.parse_args p' w = (Raise (SystemExit 2), w).
Proof.
  intros p p' w.
  assert (Hbody : body argparse.parse_args p w
                  = (Raise (ArgumentsError Settings.add_usage), w)).
  { exact (proj1 (proj2 (C8_errors_at_top_level argparse.parse_args p w))
             {| command := cmd_add; command_args := ["a1"; "http://x.com"];
                force := false; storage_path := "~/.webmark" |}
             Settings.add_usage eq_refl eq_refl). }
  assert (Hno : "frobnicate" ∉ ["list"; "add"; "rm"; "open"]).
  { apply (bool_decide_unpack _). by vm_compute. }
  split; [exact Hbody|].
  split; [|split].
  - exact (proj1 (proj2 (proj1 (C8_errors_at_top_level argparse.parse_args p w)
                           Settings.add_usage w Hbody))).
  - exact (proj2 (proj2 (proj1 (C8_errors_at_top_level argparse.parse_args p w)
                           Settings.add_usage w Hbody))).
  - exact (proj1 (proj2 (proj2 (proj2 (proj2 (proj2
             (C8_errors_at_top_level argparse.parse_args p' w))))
             "frobnicate" ["a1"; "-h"] eq_refl eq_refl Hno))).
Defined.

(** C8, the claim as it stands: for a command that is not among the
    choices, the parser ends the process with status 2; no
    [ArgumentsError] is raised and the handler prints nothing. *)
Lemma C8_counterexample :
  let p := {| argv := ["frobnicate"];
              environ := ∅;
              pw_dir_self := None;
              pw_dir := λ _, None |} in
  let w := mkWorld ∅ [] in
  Settings.init argparse.parse_args p = Raise (SystemExit 2)
  ∧ main argparse.parse_args p w = (Raise (SystemExit 2), w)
  ∧ terminate (main argparse.parse_args p w).1 = Exited 2
  ∧ terminate (main argparse.parse_args p w).1 ≠ Exited 1.
Proof.
  intros p w. repeat split; try reflexivity. discriminate.
Qed.

(** * Further properties *)

(** ** The commands on the collection *)

Lemma setitem_absent {V} (k : string) (v : V) (d : OrderedDict.t V) :
  OrderedDict.get k d = None → OrderedDict.setitem k v d = (d ++ [(k, v)])%list.
Proof.
  induction d as [|[k' v'] d IH]; simpl; [done|].
  case_bool_decide; [done|]. intros ?%IH. by f_equal.
Qed.

Lemma remove_last {V} (k : string) (v : V) (d : OrderedDict.t V) :
  OrderedDict.get k d = None → OrderedDict.remove k (d ++ [(k, v)]) = d.
Proof.
  induction d as [|[k' v'] d IH]; simpl.
  - by rewrite bool_decide_eq_true_2.
  - case_bool_decide; [done|]. intros ?%IH. by f_equal.
Qed.

Lemma get_last {V} (k : string) (v : V) (d : OrderedDict.t V) :
  OrderedDict.get k d = None → OrderedDict.get k (d ++ [(k, v)]) = Some v.
Proof.
  induction d as [|[k' v'] d IH]; simpl.
  - by rewrite bool_decide_eq_true_2.
  - by case_bool_decide.
Qed.

Lemma get_filter_ne {V} (k : string) (d : OrderedDict.t V) :
  OrderedDict.get k (filter (λ item, item.1 ≠ k) d) = None.
Proof.
  apply get_None_keys. unfold OrderedDict.keys. intros Hin.
  apply list_elem_of_fmap in Hin as ([k' v] & -> & Hin).
  apply list_elem_of_filter in Hin as [Hne _]. by apply Hne.
Qed.

Lemma values_app {V} (d1 d2 : OrderedDict.t V) :
  OrderedDict.values (d1 ++ d2) = (OrderedDict.values d1 ++ OrderedDict.values d2)%list.
Proof. unfold OrderedDict.values. apply fmap_app. Qed.

Lemma add_stores (app : BookmarksApp) (w : World) (c u d : string) :
  command_args (settings app) = [c; u; d] →
  force (settings app) = true ∨ OrderedDict.get c (bookmarks app) = None →
  let stored := OrderedDict.setitem c (mkBookmark c u d) (bookmarks app) in
  BookmarksApp.add (app, w)
  = (Ok (), (with_bookmarks app stored,
             saved_world (storage app) (OrderedDict.values stored) w)).
Proof.
  intros Hargs Hcase stored.
  unfold BookmarksApp.add, bind, BookmarksApp.self, lift. simpl.
  rewrite Hargs. simpl.
  destruct Hcase as [->|Hnone]; [done|].
  by rewrite (contains_false _ _ Hnone), andb_false_r.
Qed.

Lemma rm_present (app : BookmarksApp) (w : World) (c : string) (rest : list string)
    (b : Bookmark) :
  command_args (settings app) = c :: rest →
  OrderedDict.get c (bookmarks app) = Some b →
  let left := OrderedDict.remove c (bookmarks app) in
  BookmarksApp.rm (app, w)
  = (Ok (), (with_bookmarks app left,
             saved_world (storage app) (OrderedDict.values left) w)).
Proof.
  intros Hargs Hget left.
  unfold BookmarksApp.rm, bind, BookmarksApp.self, lift, BookmarksApp.first_arg.
  simpl. rewrite Hargs. unfold OrderedDict.pop. by rewrite Hget.
Qed.

Lemma rm_absent (app : BookmarksApp) (w : World) (c : string) (rest : list string) :
  command_args (settings app) = c :: rest →
  OrderedDict.get c (bookmarks app) = None →
  BookmarksApp.rm (app, w) = (Raise (UnknownCodeError c), (app, w)).
Proof.
  intros Hargs Hget.
  unfold BookmarksApp.rm, bind, BookmarksApp.self, lift, BookmarksApp.first_arg.
  simpl. rewrite Hargs. unfold OrderedDict.pop. rewrite Hget.
  unfold BookmarksApp.set_bookmarks, raise. simpl.
  by rewrite (remove_absent _ _ Hget), app_eta.
Qed.

(** X1.  [open] looks the first argument up in the collection.  When the
    code is not there, it raises the [ApplicationError] of an unknown code
    and no page is opened; when it is there, the url of its bookmark is
    opened in a new tab.  Either way the collection and the files stay as
    they were, and [save] is not called. *)
Theorem X1_open (app : BookmarksApp) (w : World) (c : string) (rest : list string) :
  command_args (settings app) = c :: rest →
  (OrderedDict.get c (bookmarks app) = None →
   BookmarksApp.open (app, w)
   = (Raise (ApplicationError ("There is no bookmark with code " ++ c)), (app, w)))
  ∧ (∀ b, OrderedDict.get c (bookmarks app) = Some b →
     BookmarksApp.open (app, w)
     = (Ok (), (app, {| fs := fs w; trace := trace w ++ [OpenedTab (url b)] |}))).
Proof.
  intros Hargs. split.
  - intros Hget.
    unfold BookmarksApp.open, bind, BookmarksApp.self, lift, BookmarksApp.first_arg.
    simpl. by rewrite Hargs, Hget.
  - intros b Hget.
    unfold BookmarksApp.open, bind, BookmarksApp.self, lift, BookmarksApp.first_arg.
    simpl. by rewrite Hargs, Hget.
Qed.

Lemma X1_open_witness :
  let app := {| settings := {| command := cmd_open; command_args := ["a1"];
                               force := false;
                               storage_path := "/home/u/.webmark" |};
                storage := CSVObjectStorage.init "/home/u/.webmark";
                bookmarks := [("a1", mkBookmark "a1" "http://x.com" "desc")] |} in
  BookmarksApp.open (app, mkWorld ∅ [])
  = (Ok (), (app, mkWorld ∅ [OpenedTab "http://x.com"])).
Proof.
  intros app.
  exact (proj2 (X1_open app (mkWorld ∅ []) "a1" [] eq_refl)
           (mkBookmark "a1" "http://x.com" "desc") eq_refl).
Defined.

(** X2.  [add] of a code that is not in the collection returns, with or
    without [-f]: the new bookmark goes to the end of the collection, the
    other items stay as they are, and the file is written anew with the
    line of every bookmark of the collection, in order, the line of the
    new bookmark last.  The storage of the object is the one its
    constructor made for the storage path. *)
Theorem X2_add_new_code (app : BookmarksApp) (w : World) (c u d : string) :
  command_args (settings app) = [c; u; d] →
  storage app = CSVObjectStorage.init (storage_path (settings app)) →
  OrderedDict.get c (bookmarks app) = None →
  BookmarksApp.add (app, w)
  = (Ok (),
     (with_bookmarks app (bookmarks app ++ [(c, mkBookmark c u d)]),
      {| fs := <[storage_path (settings app) :=
                   file_text (bookmarks app).*2 ++ file_line (mkBookmark c u d)]>
                 (fs w);
         trace := trace w ++ [Saved (storage_path (settings app))] |})).
Proof.
  intros Hargs Hstorage Hnone.
  rewrite (add_stores app w c u d Hargs (or_intror Hnone)).
  rewrite (setitem_absent _ _ _ Hnone), values_app.
  unfold saved_world. rewrite Hstorage, dump_file_text.
  cbn [filename CSVObjectStorage.init]. unfold OrderedDict.values.
  rewrite file_text_app. cbn [fmap list_fmap snd file_text foldr].
  by rewrite str_app_nil_r.
Qed.

Lemma X2_add_new_code_witness :
  let path := "/home/u/.webmark" in
  let app := {| settings := {| command := cmd_add;
                               command_args := ["b2"; "http://y.com"; "my site"];
                               force := false; storage_path := path |};
                storage := CSVObjectStorage.init path;
                bookmarks := [("a1", mkBookmark "a1" "http://x.com" "desc")] |} in
  let w := mkWorld {[ path := "a1 http://x.com desc" ++ chr CR ++ chr LF ]}
                   [Loaded path] in
  BookmarksApp.add (app, w)
  = (Ok (),
     (with_bookmarks app [("a1", mkBookmark "a1" "http://x.com" "desc");
                          ("b2", mkBookmark "b2" "http://y.com" "my site")],
      mkWorld (<[ path := "a1 http://x.com desc" ++ chr CR ++ chr LF
                          ++ "b2 http://y.com " ++ chr DQUOTE ++ "my site"
                          ++ chr DQUOTE ++ chr CR ++ chr LF ]> (fs w))
              [Loaded path; Saved path])).
Proof.
  intros path app w.
  exact (X2_add_new_code app w "b2" "http://y.com" "my site"
           eq_refl eq_refl eq_refl).
Defined.

(** X3.  [add] of a code that is not in the collection followed by [rm] of
    that code: both return, the collection is the one from before, and
    the file holds that collection. *)
Theorem X3_add_then_rm (app : BookmarksApp) (w : World) (c u d : string) :
  OrderedDict.get c (bookmarks app) = None →
  let first := BookmarksApp.add (with_command_args app [c; u; d], w) in
  let second := BookmarksApp.rm (with_command_args first.2.1 [c], first.2.2) in
  first.1 = Ok () ∧ second.1 = Ok ()
  ∧ bookmarks second.2.1 = bookmarks app
  ∧ fs second.2.2
    = <[filename (storage app) :=
          CSVObjectStorage.dump (storage app) (OrderedDict.values (bookmarks app))]>
        (fs w).
Proof.
  intros Hnone first second.
  assert (Hfirst : first
            = (Ok (),
               (with_bookmarks (with_command_args app [c; u; d])
                  (bookmarks app ++ [(c, mkBookmark c u d)]),
                saved_world (storage app)
                  (OrderedDict.values (bookmarks app ++ [(c, mkBookmark c u d)]))
                  w))).
  { unfold first.
    rewrite (add_stores (with_command_args app [c; u; d]) w c u d eq_refl
               (or_intror Hnone)).
    cbn [with_command_args bookmarks storage].
    by rewrite (setitem_absent _ _ _ Hnone). }
  assert (Hsecond : second
            = (Ok (),
               (with_bookmarks (with_command_args first.2.1 [c]) (bookmarks app),
                saved_world (storage app) (OrderedDict.values (bookmarks app))
                  first.2.2))).
  { unfold second. rewrite Hfirst. cbn [fst snd].
    rewrite (rm_present
               (with_command_args
                  (with_bookmarks (with_command_args app [c; u; d])
                     (bookmarks app ++ [(c, mkBookmark c u d)])) [c])
               _ c [] (mkBookmark c u d) eq_refl);
      cbn [with_command_args with_bookmarks bookmarks storage].
    - by rewrite (remove_last _ _ _ Hnone).
    - by apply get_last. }
  split; [by rewrite Hfirst|]. split; [by rewrite Hsecond|].
  split; [by rewrite Hsecond|].
  rewrite Hsecond, Hfirst. cbn [fst snd saved_world fs].
  apply insert_insert_eq.
Qed.

Lemma X3_add_then_rm_witness :
  let app := {| settings := {| command := cmd_add; command_args := [];
                               force := false;
                               storage_path := "/home/u/.webmark" |};
                storage := CSVObjectStorage.init "/home/u/.webmark";
                bookmarks := [("a1", mkBookmark "a1" "http://x.com" "desc")] |} in
  let first :=
    BookmarksApp.add (with_command_args app ["b2"; "http://y.com"; "other"],
                      mkWorld ∅ []) in
  let second := BookmarksApp.rm (with_command_args first.2.1 ["b2"], first.2.2) in
  bookmarks second.2.1 = [("a1", mkBookmark "a1" "http://x.com" "desc")].
Proof.
  intros app first second.
  exact (proj1 (proj2 (proj2
           (X3_add_then_rm app (mkWorld ∅ []) "b2" "http://y.com" "other"
              eq_refl)))).
Defined.

(** X4.  A second [rm] of the code a first [rm] took out raises the
    [ApplicationError] of an unknown code, and leaves the collection and
    the world as the first [rm] left them: the file is not written
    again. *)
Theorem X4_rm_twice (app : BookmarksApp) (w : World) (c : string) (b : Bookmark) :
  command_args (settings app) = [c] →
  NoDup (OrderedDict.keys (bookmarks app)) →
  OrderedDict.get c (bookmarks app) = Some b →
  let first := BookmarksApp.rm (app, w) in
  first.1 = Ok ()
  ∧ BookmarksApp.rm first.2
    = (Raise (ApplicationError ("There is no bookmark with code " ++ c)), first.2).
Proof.
  intros Hargs Hnodup Hget first.
  assert (Hfirst : first
            = (Ok (),
               (with_bookmarks app (filter (λ item, item.1 ≠ c) (bookmarks app)),
                saved_world (storage app)
                  (OrderedDict.values
                     (filter (λ item, item.1 ≠ c) (bookmarks app))) w))).
  { unfold first. rewrite (rm_present app w c [] b Hargs Hget).
    by rewrite remove_filter. }
  split; [by rewrite Hfirst|].
  rewrite Hfirst. cbn [snd].
  apply (rm_absent _ _ c []); [done|]. apply get_filter_ne.
Qed.

Lemma X4_rm_twice_witness :
  let app := {| settings := {| command := cmd_rm; command_args := ["a1"];
                               force := false;
                               storage_path := "/home/u/.webmark" |};
                storage := CSVObjectStorage.init "/home/u/.webmark";
                bookmarks := [("a1", mkBookmark "a1" "http://x.com" "desc")] |} in
  let first := BookmarksApp.rm (app, mkWorld ∅ []) in
  BookmarksApp.rm first.2
  = (Raise (ApplicationError "There is no bookmark with code a1"), first.2).
Proof.
  intros app first.
  exact (proj2 (X4_rm_twice app (mkWorld ∅ []) "a1"
                  (mkBookmark "a1" "http://x.com" "desc")
                  eq_refl (NoDup_singleton "a1") eq_refl)).
Defined.

(** ** From one invocation to the next *)

Lemma keys_app {V} (d1 d2 : OrderedDict.t V) :
  OrderedDict.keys (d1 ++ d2) = (OrderedDict.keys d1 ++ OrderedDict.keys d2)%list.
Proof. unfold OrderedDict.keys. apply fmap_app. Qed.

(** Storing the bookmarks of a collection one after the other builds the
    collection again. *)
Lemma fold_store_values (d1 d2 : OrderedDict.t Bookmark) :
  NoDup (OrderedDict.keys (d1 ++ d2)) →
  Forall (λ item, code item.2 = item.1) d2 →
  fold_left store (OrderedDict.values d2) d1 = (d1 ++ d2)%list.
Proof.
  revert d1. induction d2 as [|[k b] d2 IH]; intros d1 Hnodup Hcodes.
  - by rewrite app_nil_r.
  - apply Forall_cons in Hcodes as [Hk Hcodes]. simpl in Hk. subst k.
    unfold OrderedDict.values. rewrite fmap_cons. cbn [fold_left snd].
    fold (OrderedDict.values d2).
    assert (Hnone : OrderedDict.get (code b) d1 = None).
    { apply get_None_keys. intros Hin.
      rewrite keys_app in Hnodup. apply NoDup_app in Hnodup as (_ & Hdisj & _).
      apply (Hdisj _ Hin). unfold OrderedDict.keys. rewrite fmap_cons.
      apply list_elem_of_here. }
    unfold store at 2. rewrite (setitem_absent _ _ _ Hnone).
    rewrite IH; [by rewrite <- app_assoc| |done].
    by rewrite <- app_assoc.
Qed.

(** Building the application on a file that holds the dump of a
    collection gives that collection. *)
Lemma init_on_dump (settings : Settings) (w : World) (d : OrderedDict.t Bookmark) :
  unique_codes d →
  Forall storable (OrderedDict.values d) →
  fs w !! storage_path settings
  = Some (CSVObjectStorage.dump (CSVObjectStorage.init (storage_path settings))
            (OrderedDict.values d)) →
  BookmarksApp.init settings w
  = (Ok {| settings := settings;
           storage := CSVObjectStorage.init (storage_path settings);
           bookmarks := d |},
     log (Loaded (storage_path settings)) w).
Proof.
  intros [Hnodup Hcodes] Hstorable Hfile.
  unfold BookmarksApp.init, bind, lift, ret, CSVObjectStorage.load.
  cbn [filename CSVObjectStorage.init csv_format]. rewrite Hfile.
  change {| delimiter := SPACE; quotechar := DQUOTE |}
    with (csv_format (CSVObjectStorage.init (storage_path settings))) at 1.
  cbn [csv_format CSVObjectStorage.init].
  rewrite reader_dump by done.
  unfold OrderedDict.new, OrderedDict.empty. rewrite update_bookmarks.
  by rewrite (fold_store_values [] d).
Qed.

(** X5.  What [save] writes, [BookmarksApp] reads back: for a collection
    with unique keys, each the code of its bookmark, whose fields hold no
    carriage return and no line feed and are within the field size limit,
    [save] of its bookmarks followed by the construction of the
    application on the same path gives the same collection, item for item
    and in the same order. *)
Theorem X5_save_then_init (settings : Settings) (w : World)
    (d : OrderedDict.t Bookmark) :
  unique_codes d →
  Forall storable (OrderedDict.values d) →
  let self := CSVObjectStorage.init (storage_path settings) in
  let saved := (CSVObjectStorage.save self (OrderedDict.values d) w).2 in
  BookmarksApp.init settings saved
  = (Ok {| settings := settings; storage := self; bookmarks := d |},
     log (Loaded (storage_path settings)) saved).
Proof.
  intros Hd Hstorable self saved.
  apply init_on_dump; [done|done|].
  unfold saved, self, CSVObjectStorage.save. cbn [snd fs filename].
  apply lookup_insert_eq.
Qed.

Lemma X5_save_then_init_witness :
  let settings := {| command := cmd_list; command_args := []; force := false;
                     storage_path := "/home/u/.webmark" |} in
  let d := [("b2", mkBookmark "b2" "http://y.com" "My Site");
            ("a1", mkBookmark "a1" "http://x.com" "")] in
  let self := CSVObjectStorage.init "/home/u/.webmark" in
  let saved := (CSVObjectStorage.save self (OrderedDict.values d) (mkWorld ∅ [])).2 in
  (BookmarksApp.init settings saved).1
  = Ok {| settings := settings; storage := self; bookmarks := d |}.
Proof.
  intros settings d self saved.
  assert (Hd : unique_codes d).
  { split; [apply (bool_decide_unpack _); by vm_compute|by repeat constructor]. }
  assert (Hs : Forall storable (OrderedDict.values d)).
  { repeat constructor; vm_compute; discriminate. }
  exact (f_equal fst (X5_save_then_init settings (mkWorld ∅ []) d Hd Hs)).
Defined.

Lemma Forall_values_setitem {V} (P : V → Prop) k v (d : OrderedDict.t V) :
  P v → Forall P (OrderedDict.values d) →
  Forall P (OrderedDict.values (OrderedDict.setitem k v d)).
Proof.
  unfold OrderedDict.values. intros Hv.
  induction d as [|[k' v'] d IH]; cbn [OrderedDict.setitem].
  - intros _. rewrite fmap_cons. by repeat constructor.
  - rewrite fmap_cons. intros [Hv' Hd]%Forall_cons.
    case_bool_decide; rewrite fmap_cons; constructor; auto.
Qed.

Lemma Forall_values_remove {V} (P : V → Prop) k (d : OrderedDict.t V) :
  Forall P (OrderedDict.values d) →
  Forall P (OrderedDict.values (OrderedDict.remove k d)).
Proof.
  unfold OrderedDict.values.
  induction d as [|[k' v'] d IH]; cbn [OrderedDict.remove]; [done|].
  rewrite fmap_cons. intros [Hv' Hd]%Forall_cons.
  case_bool_decide; [done|]. rewrite fmap_cons. constructor; auto.
Qed.

(** What [add] has done when it returns. *)
Lemma add_returns (app : BookmarksApp) (w : World) :
  (BookmarksApp.add (app, w)).1 = Ok () →
  ∃ b, Bookmark_new (command_args (settings app)) = Ok b
       ∧ BookmarksApp.add (app, w)
         = (Ok (),
            (with_bookmarks app (OrderedDict.setitem (code b) b (bookmarks app)),
             saved_world (storage app)
               (OrderedDict.values
                  (OrderedDict.setitem (code b) b (bookmarks app))) w)).
Proof.
  unfold BookmarksApp.add, bind, BookmarksApp.self, lift. simpl.
  destruct (Bookmark_new _) as [b|e]; [|done].
  destruct (negb _ && _); simpl.
  - by destruct (OrderedDict.getitem _ _).
  - intros _. by exists b.
Qed.

(** What [rm] has done when it returns. *)
Lemma rm_returns (app : BookmarksApp) (w : World) :
  (BookmarksApp.rm (app, w)).1 = Ok () →
  ∃ c, BookmarksApp.rm (app, w)
       = (Ok (),
          (with_bookmarks app (OrderedDict.remove c (bookmarks app)),
           saved_world (storage app)
             (OrderedDict.values (OrderedDict.remove c (bookmarks app))) w)).
Proof.
  unfold BookmarksApp.rm, bind, BookmarksApp.self, lift. simpl.
  destruct (BookmarksApp.first_arg app) as [c|e]; [|done].
  simpl. destruct (OrderedDict.get c (bookmarks app)); [|done].
  intros _. by exists c.
Qed.

(** X6.  When [add] or [rm] returns, the next invocation on the same
    storage path starts from the collection this one ended with.  Let the
    storage of the object be that of its storage path, its collection
    have unique keys, each the code of its bookmark, and the fields of
    its bookmarks and of the bookmark to add hold no carriage return and
    no line feed and be within the field size limit.  Then the
    application built after the command, for any settings with the same
    storage path, has the collection the command left. *)
Theorem X6_next_invocation (m : BookmarksApp.method unit)
    (app : BookmarksApp) (w : World) (next : Settings) :
  m ∈ [BookmarksApp.add; BookmarksApp.rm] →
  storage app = CSVObjectStorage.init (storage_path (settings app)) →
  storage_path next = storage_path (settings app) →
  unique_codes (bookmarks app) →
  Forall storable (OrderedDict.values (bookmarks app)) →
  (∀ b, Bookmark_new (command_args (settings app)) = Ok b → storable b) →
  (m (app, w)).1 = Ok () →
  BookmarksApp.init next (m (app, w)).2.2
  = (Ok (with_settings (m (app, w)).2.1 next),
     log (Loaded (storage_path next)) (m (app, w)).2.2).
Proof.
  intros Hm Hstorage Hpath Hd Hfields Hnew Hok.
  assert (Hafter : ∃ d,
            unique_codes d ∧ Forall storable (OrderedDict.values d)
            ∧ m (app, w)
              = (Ok (), (with_bookmarks app d,
                         saved_world (storage app) (OrderedDict.values d) w))).
  { apply list_elem_of_In in Hm. simpl in Hm. destruct Hm as [<-|[<-|[]]].
    - destruct (add_returns app w Hok) as (b & Hb & Hadd).
      exists (OrderedDict.setitem (code b) b (bookmarks app)).
      split; [by apply unique_codes_setitem|]. split; [|done].
      apply Forall_values_setitem; auto.
    - destruct (rm_returns app w Hok) as (c & Hrm).
      exists (OrderedDict.remove c (bookmarks app)).
      split; [by apply unique_codes_remove|]. split; [|done].
      by apply Forall_values_remove. }
  destruct Hafter as (d & Hud & Hsd & ->). cbn [fst snd].
  rewrite (init_on_dump next _ d Hud Hsd).
  - unfold with_settings, with_bookmarks. cbn [storage bookmarks].
    by rewrite Hstorage, Hpath.
  - unfold saved_world. cbn [fs]. rewrite Hstorage, Hpath.
    cbn [filename CSVObjectStorage.init]. apply lookup_insert_eq.
Qed.

Lemma X6_next_invocation_witness :
  let app := {| settings := {| command := cmd_add;
                               command_args := ["b2"; "http://y.com"; "My Site"];
                               force := false;
                               storage_path := "/home/u/.webmark" |};
                storage := CSVObjectStorage.init "/home/u/.webmark";
                bookmarks := [("a1", mkBookmark "a1" "http://x.com" "desc")] |} in
  let next := {| command := cmd_list; command_args := []; force := false;
                 storage_path := "/home/u/.webmark" |} in
  let after := (BookmarksApp.add (app, mkWorld ∅ [])).2 in
  (BookmarksApp.init next after.2).1 = Ok (with_settings after.1 next).
Proof.
  intros app next after.
  assert (Hm : BookmarksApp.add ∈ [BookmarksApp.add; BookmarksApp.rm]).
  { apply list_elem_of_here. }
  assert (Hd : unique_codes (bookmarks app)).
  { split; [apply NoDup_singleton|by repeat constructor]. }
  assert (Hs : Forall storable (OrderedDict.values (bookmarks app))).
  { repeat constructor; vm_compute; discriminate. }
  assert (Hnew : ∀ b, Bookmark_new (command_args (settings app)) = Ok b →
                      storable b).
  { intros b [= <-]. repeat constructor; vm_compute; discriminate. }
  exact (f_equal fst
           (X6_next_invocation BookmarksApp.add app (mkWorld ∅ []) next
              Hm eq_refl eq_refl Hd Hs Hnew eq_refl)).
Defined.

(** ** The configuration that is built *)



Lemma init_from_args_arity (parse_args : list string → result Settings)
    (p : Process) (ns : Settings) :
  Settings.init_from_args parse_args p = Ok ns →
  parse_args (argv p) = Ok ns ∧ arity_ok ns.
Proof.
  unfold Settings.init_from_args, arity_ok.
  destruct (parse_args (argv p)) as [self|e]; [|done].
  destruct (command self) eqn:Hc; simpl;
    try destruct (length (command_args self) =? _)%nat eqn:Hlen; simpl;
    try done; intros [= <-]; rewrite Hc; try done;
    by apply Nat.eqb_eq in Hlen.
Qed.



Lemma init_inv (parse_args : list string → result Settings)
    (p : Process) (s : Settings) :
  Settings.init parse_args p = Ok s →
  ∃ ns, parse_args (argv p) = Ok ns ∧ arity_ok ns
        ∧ s = {| command := command ns;
                 command_args := command_args ns;
                 force := force ns;
                 storage_path := expanduser p (chosen_path p ns) |}.
Proof.
  unfold Settings.init.
  destruct (Settings.init_from_args parse_args p) as [ns|e] eqn:Hargs; [|done].
  intros [= <-]. apply init_from_args_arity in Hargs as [Hparse Harity].
  by exists ns.
Qed.

Lemma expanduser_no_tilde (p : Process) (path : string) :
  startswith "~" path = false → expanduser p path = path.
Proof. intros H. unfold expanduser. by rewrite H. Qed.

Lemma expanduser_home_dir (p : Process) (rest : string) :
  expanduser p ("~/" ++ rest)
  = match (match environ p !! "HOME" with
           | Some home => Some home
           | None => pw_dir_self p
           end) with
    | Some home => rstrip "/"%char home ++ "/" ++ rest
    | None => "~/" ++ rest
    end.
Proof.
  unfold expanduser. str_norm. simpl.
  destruct (match environ p !! "HOME" with
            | Some home => Some home
            | None => pw_dir_self p
            end) as [home|]; [|done].
  by destruct (str_app_not_empty (rstrip "/"%char home) "/"%char rest)
    as (c & s & ->).
Qed.

(** X8.  The storage path of the settings that are built.  A chosen path
    that does not start with a tilde is taken as it is.  A chosen path
    [~/rest] becomes the home directory without its trailing slashes,
    followed by [/rest]; the home directory is the value of [HOME], or
    without [HOME] the one of the password database; without either the
    path stays as it is. *)
Theorem X8_storage_path_resolved (parse_args : list string → result Settings)
    (p : Process) (ns s : Settings) :
  parse_args (argv p) = Ok ns →
  Settings.init parse_args p = Ok s →
  (startswith "~" (chosen_path p ns) = false →
   storage_path s = chosen_path p ns)
  ∧ (∀ rest home,
       chosen_path p ns = "~/" ++ rest →
       environ p !! "HOME" = Some home
       ∨ (environ p !! "HOME" = None ∧ pw_dir_self p = Some home) →
       storage_path s = rstrip "/"%char home ++ "/" ++ rest)
  ∧ (∀ rest,
       chosen_path p ns = "~/" ++ rest →
       environ p !! "HOME" = None → pw_dir_self p = None →
       storage_path s = "~/" ++ rest).
Proof.
  intros Hparse Hinit.
  apply init_inv in Hinit as (ns' & Hparse' & _ & ->).
  assert (ns' = ns) as -> by congruence. cbn [storage_path].
  split; [by apply expanduser_no_tilde|]. split.
  - intros rest home -> Hhome. rewrite expanduser_home_dir.
    by destruct Hhome as [->|[-> ->]].
  - intros rest -> Hhome Hpw. by rewrite expanduser_home_dir, Hhome, Hpw.
Qed.

Lemma X8_storage_path_resolved_witness :
  let p := {| argv := ["list"];
              environ := {[ "HOME" := "/home/u/" ]};
              pw_dir_self := None;
              pw_dir := λ _, None |} in
  let s := {| command := cmd_list; command_args := []; force := false;
              storage_path := "/home/u/.webmark" |} in
  Settings.init argparse.parse_args p = Ok s
  ∧ storage_path s = rstrip "/"%char "/home/u/" ++ "/" ++ ".webmark".
Proof.
  intros p s. split; [reflexivity|].
  exact (proj1 (proj2 (X8_storage_path_resolved argparse.parse_args p
                         {| command := cmd_list; command_args := [];
                            force := false; storage_path := "~/.webmark" |}
                         s eq_refl eq_refl))
           ".webmark" "/home/u/" eq_refl (or_introl eq_refl)).
Defined.

(** ** Commands that raise an error of the application *)

Lemma add_raise_inv (app : BookmarksApp) (w : World) (c u d : string) e s :
  command_args (settings app) = [c; u; d] →
  BookmarksApp.add (app, w) = (Raise e, s) →
  s = (app, w) ∧ force (settings app) = false
  ∧ ∃ existing, OrderedDict.get c (bookmarks app) = Some existing
                ∧ e = DuplicateCodeError existing.
Proof.
  intros Hargs.
  unfold BookmarksApp.add, bind, BookmarksApp.self, lift. simpl.
  rewrite Hargs. simpl.
  destruct (force (settings app)); simpl; [done|].
  rewrite contains_get. unfold OrderedDict.getitem.
  destruct (OrderedDict.get c (bookmarks app)) as [existing|] eqn:Hget; simpl.
  - intros [= <- <-]. eauto.
  - done.
Qed.

Lemma rm_raise_inv (app : BookmarksApp) (w : World) (c : string) e s :
  command_args (settings app) = [c] →
  BookmarksApp.rm (app, w) = (Raise e, s) →
  s = (app, w) ∧ OrderedDict.get c (bookmarks app) = None
  ∧ e = UnknownCodeError c.
Proof.
  intros Hargs Hrm.
  destruct (OrderedDict.get c (bookmarks app)) as [b|] eqn:Hget.
  - by rewrite (rm_present app w c [] b Hargs Hget) in Hrm.
  - rewrite (rm_absent app w c [] Hargs Hget) in Hrm. by injection Hrm as <- <-.
Qed.

Lemma open_raise_inv (app : BookmarksApp) (w : World) (c : string) e s :
  command_args (settings app) = [c] →
  BookmarksApp.open (app, w) = (Raise e, s) →
  s = (app, w) ∧ OrderedDict.get c (bookmarks app) = None
  ∧ e = UnknownCodeError c.
Proof.
  intros Hargs.
  unfold BookmarksApp.open, bind, BookmarksApp.self, lift, BookmarksApp.first_arg.
  simpl. rewrite Hargs.
  destruct (OrderedDict.get c (bookmarks app)) as [b|] eqn:Hget; [done|].
  by intros [= <- <-].
Qed.

Lemma list_returns (app : BookmarksApp) (w : World) :
  ∃ printed, BookmarksApp.list (app, w)
             = (Ok (), (app, {| fs := fs w; trace := trace w ++ printed |}))
             ∧ Forall (λ ev, ∃ line, ev = Printed line) printed.
Proof.
  unfold BookmarksApp.list, bind, BookmarksApp.self. simpl.
  destruct (bookmarks app) as [|item d].
  - eexists. split; [reflexivity|]. repeat constructor. eauto.
  - unfold ret. rewrite for_each_print. eexists. split; [reflexivity|].
    apply Forall_forall. intros ev (b & -> & _)%list_elem_of_fmap. eauto.
Qed.

Lemma length_one {A} (l : list A) : length l = 1%nat → ∃ x, l = [x].
Proof. destruct l as [|x [|y l]]; try done. eauto. Qed.

Lemma length_three {A} (l : list A) : length l = 3%nat → ∃ x y z, l = [x; y; z].
Proof. destruct l as [|x [|y [|z [|t l]]]]; try done. eauto. Qed.

Lemma run_raise_inv (app : BookmarksApp) (w : World) e s :
  arity_ok (settings app) →
  BookmarksApp.run (app, w) = (Raise e, s) →
  s = (app, w) ∧ ∃ msg, e = ApplicationError msg.
Proof.
  unfold arity_ok, BookmarksApp.run, bind, BookmarksApp.self. simpl.
  destruct (command (settings app)).
  - intros _. destruct (list_returns app w) as (printed & -> & _). done.
  - intros (c & u & d & Hargs)%length_three Hadd.
    destruct (add_raise_inv _ _ _ _ _ _ _ Hargs Hadd) as (-> & _ & b & _ & ->).
    unfold DuplicateCodeError. eauto.
  - intros (c & Hargs)%length_one Hrm.
    destruct (rm_raise_inv _ _ _ _ _ Hargs Hrm) as (-> & _ & ->).
    unfold UnknownCodeError. eauto.
  - intros (c & Hargs)%length_one Hopen.
    destruct (open_raise_inv _ _ _ _ _ Hargs Hopen) as (-> & _ & ->).
    unfold UnknownCodeError. eauto.
Qed.

Lemma rm_raise_first (app : BookmarksApp) (w : World) (c : string)
    (rest : list string) e s :
  command_args (settings app) = c :: rest →
  BookmarksApp.rm (app, w) = (Raise e, s) →
  s = (app, w) ∧ OrderedDict.get c (bookmarks app) = None
  ∧ e = UnknownCodeError c.
Proof.
  intros Hargs Hrm.
  destruct (OrderedDict.get c (bookmarks app)) as [b|] eqn:Hget.
  - by rewrite (rm_present app w c rest b Hargs Hget) in Hrm.
  - rewrite (rm_absent app w c rest Hargs Hget) in Hrm. by injection Hrm as <- <-.
Qed.

Lemma open_raise_first (app : BookmarksApp) (w : World) (c : string)
    (rest : list string) e s :
  command_args (settings app) = c :: rest →
  BookmarksApp.open (app, w) = (Raise e, s) →
  s = (app, w) ∧ OrderedDict.get c (bookmarks app) = None
  ∧ e = UnknownCodeError c.
Proof.
  intros Hargs.
  unfold BookmarksApp.open, bind, BookmarksApp.self, lift, BookmarksApp.first_arg.
  simpl. rewrite Hargs.
  destruct (OrderedDict.get c (bookmarks app)) as [b|] eqn:Hget; [done|].
  by intros [= <- <-].
Qed.

(** X9.  A command that raises an [ApplicationError] has changed nothing:
    the object and the world are as before the call, so nothing was
    written, printed or opened.  The error is that of [add] without [-f]
    for a code that is in the collection, with the text of the bookmark
    found there, or that of [rm] or of [open] for a code that is not in
    the collection; [list] raises none. *)
Theorem X9_application_error (app : BookmarksApp) (w : World) (msg : string)
    (s : BookmarksApp * World) :
  BookmarksApp.run (app, w) = (Raise (ApplicationError msg), s) →
  s = (app, w)
  ∧ ∃ c, head (command_args (settings app)) = Some c
    ∧ ((command (settings app) = cmd_add ∧ force (settings app) = false
        ∧ ∃ existing,
            OrderedDict.get c (bookmarks app) = Some existing
            ∧ msg = "There is a bookmark with that code:" ++ chr LF
                    ++ ("[" ++ code existing ++ "] " ++ url existing ++ " - "
                        ++ description existing)
                    ++ chr LF ++ chr LF ++ "To override it add option -f")
       ∨ ((command (settings app) = cmd_rm ∨ command (settings app) = cmd_open)
          ∧ OrderedDict.get c (bookmarks app) = None
          ∧ msg = "There is no bookmark with code " ++ c)).
Proof.
  unfold BookmarksApp.run, bind, BookmarksApp.self. simpl.
  destruct (command (settings app)) eqn:Hcmd.
  - destruct (list_returns app w) as (printed & -> & _). done.
  - intros Hadd.
    destruct (command_args (settings app)) as [|c [|u [|d [|x l]]]] eqn:Hargs;
      try (unfold BookmarksApp.add, bind, BookmarksApp.self, lift in Hadd;
           simpl in Hadd; rewrite Hargs in Hadd; by simpl in Hadd).
    destruct (add_raise_inv _ _ _ _ _ _ _ Hargs Hadd)
      as (-> & Hforce & b & Hget & [= ->]).
    split; [done|]. exists c. split; [done|]. left. eauto.
  - intros Hrm.
    destruct (command_args (settings app)) as [|c rest] eqn:Hargs.
    { unfold BookmarksApp.rm, bind, BookmarksApp.self, lift,
        BookmarksApp.first_arg in Hrm.
      simpl in Hrm. rewrite Hargs in Hrm. by simpl in Hrm. }
    destruct (rm_raise_first _ _ _ _ _ _ Hargs Hrm) as (-> & Hget & [= ->]).
    split; [done|]. exists c. split; [done|]. right. eauto.
  - intros Hopen.
    destruct (command_args (settings app)) as [|c rest] eqn:Hargs.
    { unfold BookmarksApp.open, bind, BookmarksApp.self, lift,
        BookmarksApp.first_arg in Hopen.
      simpl in Hopen. rewrite Hargs in Hopen. by simpl in Hopen. }
    destruct (open_raise_first _ _ _ _ _ _ Hargs Hopen) as (-> & Hget & [= ->]).
    split; [done|]. exists c. split; [done|]. right. eauto.
Qed.

Lemma X9_application_error_witness :
  let path := "/home/u/.webmark" in
  let existing := mkBookmark "a1" "http://x.com" "desc" in
  let app := {| settings := {| command := cmd_add;
                               command_args := ["a1"; "http://y.com"; "other"];
                               force := false; storage_path := path |};
                storage := CSVObjectStorage.init path;
                bookmarks := [("a1", existing)] |} in
  let w := mkWorld {[ path := "a1 http://x.com desc" ++ chr CR ++ chr LF ]}
                   [Loaded path] in
  let msg := "There is a bookmark with that code:" ++ chr LF
             ++ "[a1] http://x.com - desc"
             ++ chr LF ++ chr LF ++ "To override it add option -f" in
  BookmarksApp.run (app, w) = (Raise (ApplicationError msg), (app, w))
  ∧ ∃ c, head (command_args (settings app)) = Some c
    ∧ ((command (settings app) = cmd_add ∧ force (settings app) = false
        ∧ ∃ existing,
            OrderedDict.get c (bookmarks app) = Some existing
            ∧ msg = "There is a bookmark with that code:" ++ chr LF
                    ++ ("[" ++ code existing ++ "] " ++ url existing ++ " - "
                        ++ description existing)
                    ++ chr LF ++ chr LF ++ "To override it add option -f")
       ∨ ((command (settings app) = cmd_rm ∨ command (settings app) = cmd_open)
          ∧ OrderedDict.get c (bookmarks app) = None
          ∧ msg = "There is no bookmark with code " ++ c)).
Proof.
  intros path existing app w msg.
  assert (Hrun : BookmarksApp.run (app, w)
                 = (Raise (ApplicationError msg), (app, w))).
  { reflexivity. }
  split; [exact Hrun|].
  exact (proj2 (X9_application_error app w msg (app, w) Hrun)).
Defined.

(** ** How the program ends *)

Lemma init_world (settings : Settings) (w : World) :
  (BookmarksApp.init settings w).2 = log (Loaded (storage_path settings)) w.
Proof.
  unfold BookmarksApp.init, bind, lift, ret, CSVObjectStorage.load.
  cbn [filename CSVObjectStorage.init].
  destruct (fs w !! storage_path settings); by destruct (OrderedDict.new _).
Qed.

Lemma init_settings (s : Settings) (w w' : World) (app : BookmarksApp) :
  BookmarksApp.init s w = (Ok app, w') → settings app = s.
Proof.
  unfold BookmarksApp.init, bind, lift, ret, CSVObjectStorage.load.
  destruct (fs w !! _); destruct (OrderedDict.new _); try done;
    by intros [= <- _].
Qed.

Lemma init_raise_file (s : Settings) (w w' : World) e :
  BookmarksApp.init s w = (Raise e, w') → is_Some (fs w !! storage_path s).
Proof.
  unfold BookmarksApp.init, bind, lift, ret, CSVObjectStorage.load.
  cbn [filename CSVObjectStorage.init].
  destruct (fs w !! storage_path s); [eauto|done].
Qed.

Lemma arity_ok_or_not (ns : Settings) : arity_ok ns ∨ ¬ arity_ok ns.
Proof.
  unfold arity_ok.
  destruct (command ns); [by left|..];
    destruct (decide (length (command_args ns) = 3%nat));
    destruct (decide (length (command_args ns) = 1%nat)); auto.
Qed.

Section outcome.

Variable parse_args : list string → result Settings.

(** The ways [main] ends: it returns; the configuration raised; the
    construction of the application raised; or a command raised. *)
Lemma main_outcome (p : Process) (w : World) :
  (∃ s w', Settings.init parse_args p = Ok s ∧ main parse_args p w = (Ok (), w'))
  ∨ (∃ e, Settings.init parse_args p = Raise e
          ∧ main parse_args p w = handler e w)
  ∨ (∃ s e, Settings.init parse_args p = Ok s
            ∧ (e = csv_Error ∨ e = TypeError)
            ∧ is_Some (fs w !! storage_path s)
            ∧ main parse_args p w
              = (Raise e, log (Loaded (storage_path s)) w))
  ∨ (∃ s msg, Settings.init parse_args p = Ok s
              ∧ main parse_args p w
                = (Raise (SystemExit 1),
                   log (Printed msg) (log (Loaded (storage_path s)) w))).
Proof.
  unfold main, body, bind, lift.
  destruct (Settings.init parse_args p) as [s|e] eqn:Hs; [|right; left; eauto].
  pose proof (init_world s w) as Hw.
  destruct (BookmarksApp.init s w) as [[app|e] w1] eqn:Hinit; simpl in Hw; subst w1.
  - destruct (BookmarksApp.run (app, _)) as [[[]|e] [app2 w2]] eqn:Hrun.
    + left. eauto.
    + do 3 right. apply init_settings in Hinit.
      apply init_inv in Hs as (ns & _ & Harity & Hs').
      assert (Hok : arity_ok (settings app)).
      { rewrite Hinit, Hs'. done. }
      destruct (run_raise_inv _ _ _ _ Hok Hrun) as ([= -> ->] & msg & ->).
      exists s, msg. done.
  - right; right; left. exists s, e.
    split; [done|]. split; [by apply init_raise in Hinit|].
    split; [by apply init_raise_file in Hinit|].
    by apply init_raise in Hinit as [->| ->].
Qed.

Lemma handler_fs (e : exn) (w : World) :
  ∃ printed, (handler e w).2 = {| fs := fs w; trace := trace w ++ printed |}
             ∧ Forall (λ ev, ∃ line, ev = Printed line) printed.
Proof.
  destruct e; simpl;
    try (exists []; split; [by rewrite app_nil_r; destruct w|constructor]);
    (eexists; split; [reflexivity|]; repeat constructor; eauto).
Qed.

(** X10.  An invocation that ends through [sys.exit], be it the exit
    of the argument parser or the exit with status 1 of the [except]
    clause, has written nothing and opened nothing: the files are as
    before, [save] was not called and no page was opened. *)
Theorem X10_exit_writes_nothing (p : Process) (w : World) (status : Z) :
  (main parse_args p w).1 = Raise (SystemExit status) →
  fs (main parse_args p w).2 = fs w
  ∧ ∃ events, trace (main parse_args p w).2 = (trace w ++ events)%list
              ∧ ∀ x, (Saved x ∉ events) ∧ (OpenedTab x ∉ events).
Proof.
  intros Hexit.
  destruct (main_outcome p w)
    as [(s & w' & _ & Hmain)|[(e & _ & Hmain)|[(s & e & _ & He & _ & Hmain)
        |(s & msg & _ & Hmain)]]]; rewrite Hmain in *.
  - done.
  - destruct (handler_fs e w) as (printed & -> & Hprinted). split; [done|].
    exists printed. split; [done|]. intros x.
    split; intros Hin;
      apply (proj1 (Forall_forall _ _) Hprinted) in Hin as [line [=]].
  - simpl in Hexit. by destruct He as [->| ->].
  - split; [done|].
    exists [Loaded (storage_path s); Printed msg].
    split; [simpl; by rewrite <- app_assoc|].
    intros x. split; intros Hin; apply elem_of_cons in Hin as [[=]|Hin];
      by apply list_elem_of_singleton in Hin.
Qed.

(** X11.  Once the settings are built, a [csv.Error] or a [TypeError]
    that ends the program comes from the construction of the
    application: there is a file at the storage path, the constructor
    raised that exception on its rows, and the command has not run, so
    that nothing was printed, written or opened. *)
Theorem X11_traceback_origin (p : Process) (w : World) (s : Settings) (e : exn) :
  Settings.init parse_args p = Ok s →
  (main parse_args p w).1 = Raise e →
  e = csv_Error ∨ e = TypeError →
  is_Some (fs w !! storage_path s)
  ∧ BookmarksApp.init s w = (Raise e, log (Loaded (storage_path s)) w)
  ∧ main parse_args p w = (Raise e, log (Loaded (storage_path s)) w).
Proof.
  intros Hs Hmain He.
  unfold main, body, bind, lift in *. rewrite Hs in *.
  pose proof (init_world s w) as Hw.
  destruct (BookmarksApp.init s w) as [[app|e'] w1] eqn:Hinit; simpl in Hw; subst w1.
  - destruct (BookmarksApp.run (app, _)) as [[[]|e'] [app2 w2]] eqn:Hrun;
      [done|].
    destruct e'; simpl in Hmain;
      try (injection Hmain as <-; by destruct He);
      try (by destruct He as [->| ->]);
      exfalso.
    + apply init_settings in Hinit.
      apply init_inv in Hs as (ns & _ & Harity & Hs').
      assert (Hok : arity_ok (settings app)) by (by rewrite Hinit, Hs').
      by destruct (run_raise_inv _ _ _ _ Hok Hrun) as (_ & msg' & [=]).
    + apply init_settings in Hinit.
      apply init_inv in Hs as (ns & _ & Harity & Hs').
      assert (Hok : arity_ok (settings app)) by (by rewrite Hinit, Hs').
      by destruct (run_raise_inv _ _ _ _ Hok Hrun) as (_ & msg' & [=]).
  - pose proof (init_raise_file _ _ _ _ Hinit) as Hfile.
    assert (e' = e) as ->.
    { apply init_raise in Hinit as [->| ->]; simpl in Hmain; congruence. }
    split; [done|]. split; [done|].
    by destruct He as [->| ->].
Qed.

End outcome.

Lemma X10_exit_writes_nothing_witness :
  let p := {| argv := ["rm"; "zz"];
              environ := {[ "HOME" := "/home/u" ]};
              pw_dir_self := None;
              pw_dir := λ _, None |} in
  let w := mkWorld {[ "/home/u/.webmark" :=
                        "a1 http://x.com desc" ++ lineterminator ]} [] in
  (main argparse.parse_args p w).1 = Raise (SystemExit 1)
  ∧ fs (main argparse.parse_args p w).2 = fs w.
Proof.
  intros p w.
  assert (Hexit : (main argparse.parse_args p w).1 = Raise (SystemExit 1)).
  { reflexivity. }
  split; [exact Hexit|].
  exact (proj1 (X10_exit_writes_nothing argparse.parse_args p w 1 Hexit)).
Defined.

Lemma X11_traceback_origin_witness :
  let p := {| argv := ["list"];
              environ := {[ "HOME" := "/home/u" ]};
              pw_dir_self := None;
              pw_dir := λ _, None |} in
  let s := {| command := cmd_list; command_args := []; force := false;
              storage_path := "/home/u/.webmark" |} in
  let w := mkWorld {[ "/home/u/.webmark" :=
                        "a1 http://x.com" ++ lineterminator ]} [] in
  (main argparse.parse_args p w).1 = Raise TypeError
  ∧ is_Some (fs w !! storage_path s)
  ∧ BookmarksApp.init s w = (Raise TypeError, log (Loaded (storage_path s)) w)
  ∧ main argparse.parse_args p w
    = (Raise TypeError, log (Loaded (storage_path s)) w).
Proof.
  intros p s w.
  assert (Hmain : (main argparse.parse_args p w).1 = Raise TypeError).
  { reflexivity. }
  split; [exact Hmain|].
  exact (X11_traceback_origin argparse.parse_args p w s TypeError eq_refl Hmain
           (or_intror eq_refl)).
Defined.

(** ** A storage file that is not well formed *)

Lemma update_yield_then {V} (d : OrderedDict.t V) (l : list (string * V)) g :
  OrderedDict.update d (yield_then l g)
  = OrderedDict.update (fold_left (λ d item, OrderedDict.setitem item.1 item.2 d) l d) g.
Proof.
  revert d. induction l as [|[k v] l IH]; intros d; [done|]. simpl. apply IH.
Qed.

Lemma gen_map_yield_then {A B} (f : A → result B) (l : list A) (l' : list B) g :
  Forall2 (λ x y, f x = Ok y) l l' →
  gen_map f (yield_then l g) = yield_then l' (gen_map f g).
Proof.
  induction 1 as [|x y l l' Hxy Hl IH]; [done|]. simpl. by rewrite Hxy, IH.
Qed.

Lemma Forall2_make_iter (bs : list Bookmark) :
  Forall2 (λ x y, Bookmark_make x = Ok y) (map Bookmark_iter bs) bs.
Proof. induction bs as [|[c u d] bs IH]; by constructor. Qed.

Lemma Forall2_pair (bs : list Bookmark) :
  Forall2 (λ x y, (Ok (code x, x) : result (string * Bookmark)) = Ok y)
    bs (map (λ x, (code x, x)) bs).
Proof. induction bs as [|b bs IH]; by constructor. Qed.

Lemma load_world (self : CSVObjectStorage) (w : World) :
  (CSVObjectStorage.load self w).2 = log (Loaded (filename self)) w.
Proof. unfold CSVObjectStorage.load. by destruct (fs w !! filename self). Qed.

Section malformed.

Variable parse_args : list string → result Settings.

(** X12.  A row that has not three fields stops the construction of the
    application with a [TypeError], whatever the rows after it: when
    [load] yields the rows of some bookmarks and then a row of another
    length (an empty line of the file gives the row of no field), the
    construction raises [TypeError], and [main] ends with its traceback,
    nothing printed and nothing written. *)
Theorem X12_malformed_row (p : Process) (settings : Settings) (w : World)
    (bs : list Bookmark) (row : list string) (rest : generated (list string)) :
  (CSVObjectStorage.load (CSVObjectStorage.init (storage_path settings)) w).1
  = Ok (yield_then (map Bookmark_iter bs) (Yield row rest)) →
  length row ≠ 3%nat →
  BookmarksApp.init settings w
  = (Raise TypeError, log (Loaded (storage_path settings)) w)
  ∧ (Settings.init parse_args p = Ok settings →
     main parse_args p w
     = (Raise TypeError, log (Loaded (storage_path settings)) w)
     ∧ terminate (main parse_args p w).1 = Traceback TypeError).
Proof.
  intros Hload Hrow.
  assert (Hinit : BookmarksApp.init settings w
                  = (Raise TypeError, log (Loaded (storage_path settings)) w)).
  { pose proof (load_world (CSVObjectStorage.init (storage_path settings)) w)
      as Hw.
    unfold BookmarksApp.init, bind, lift, ret.
    destruct (CSVObjectStorage.load _ w) as [r w1] eqn:E.
    simpl in Hload, Hw. subst r w1.
    rewrite (gen_map_yield_then _ _ bs) by apply Forall2_make_iter.
    rewrite (gen_map_yield_then _ bs _ _ (Forall2_pair bs)).
    unfold OrderedDict.new. rewrite update_yield_then.
    assert (Hbad : Bookmark_make row = Raise TypeError).
    { destruct row as [|x [|y [|z [|t row]]]]; done. }
    simpl. by rewrite Hbad. }
  split; [done|]. intros Hs.
  assert (Hmain : main parse_args p w
                  = (Raise TypeError, log (Loaded (storage_path settings)) w)).
  { unfold main, body, bind, lift. by rewrite Hs, Hinit. }
  by rewrite Hmain.
Qed.

End malformed.

Lemma X12_malformed_row_witness :
  let p := {| argv := ["list"];
              environ := {[ "HOME" := "/home/u" ]};
              pw_dir_self := None;
              pw_dir := λ _, None |} in
  let settings := {| command := cmd_list; command_args := []; force := false;
                     storage_path := "/home/u/.webmark" |} in
  let w := mkWorld {[ "/home/u/.webmark" :=
                        "a1 http://x.com desc" ++ chr LF ++ chr LF
                        ++ "b2 http://y.com other" ++ chr LF ]} [] in
  BookmarksApp.init settings w
  = (Raise TypeError, log (Loaded "/home/u/.webmark") w)
  ∧ terminate (main argparse.parse_args p w).1 = Traceback TypeError.
Proof.
  intros p settings w.
  assert (H := X12_malformed_row argparse.parse_args p settings w
                 [mkBookmark "a1" "http://x.com" "desc"] []
                 (Yield ["b2"; "http://y.com"; "other"] StopIteration)).
  split.
  - apply H; [vm_compute; reflexivity|discriminate].
  - apply H; [vm_compute; reflexivity|discriminate|reflexivity].
Defined.

(** ** The format of the file *)

(** X13.  The file [save] leaves has one line for each bookmark, in
    order: the three fields with one space between them, then CR LF.  A
    field that holds no space, no double quote, no carriage return and no
    line feed is written as it is; any other field is written between
    double quotes, each double quote in it written twice. *)
Theorem X13_file_format (path : string) (rows : list Bookmark) (w : World) :
  let self := CSVObjectStorage.init path in
  fs (CSVObjectStorage.save self rows w).2 !! path
  = Some (str_concat
            (map (λ b, encoded (code b) ++ " " ++ encoded (url b) ++ " "
                       ++ encoded (description b) ++ lineterminator) rows))
  ∧ ∀ f, encoded f
         = if str_contains SPACE f || str_contains DQUOTE f
              || str_contains CR f || str_contains LF f
           then chr DQUOTE ++ doubled f ++ chr DQUOTE
           else f.
Proof.
  intros self. split.
  - unfold CSVObjectStorage.save, self. cbn [snd fs filename CSVObjectStorage.init].
    rewrite lookup_insert_eq. f_equal.
    induction rows as [|b rows IH]; [done|].
    rewrite dump_cons, IH. unfold line_of. simpl. by str_norm.
  - intros f. unfold encoded. by rewrite has_special_contains.
Qed.

Lemma yield_all_inj {A} (l1 l2 : list A) : yield_all l1 = yield_all l2 → l1 = l2.
Proof.
  revert l2. induction l1 as [|x l1 IH]; intros [|y l2]; try done.
  simpl. intros [= -> ?%IH]. by f_equal.
Qed.

Lemma Bookmark_iter_inj (b1 b2 : Bookmark) :
  Bookmark_iter b1 = Bookmark_iter b2 → b1 = b2.
Proof. destruct b1, b2. by intros [= -> -> ->]. Qed.

Lemma map_iter_inj (rows1 rows2 : list Bookmark) :
  map Bookmark_iter rows1 = map Bookmark_iter rows2 → rows1 = rows2.
Proof.
  revert rows2. induction rows1 as [|b1 rows1 IH]; intros [|b2 rows2]; try done.
  cbn [map]. intros Heq.
  assert (Bookmark_iter b1 = Bookmark_iter b2
          ∧ map Bookmark_iter rows1 = map Bookmark_iter rows2) as [Hb Hrows].
  { split; congruence. }
  apply Bookmark_iter_inj in Hb as ->. by rewrite (IH rows2).
Qed.

(** X14.  Two sequences of bookmarks that [save] writes as the same text
    are the same sequence, when the fields hold no carriage return and no
    line feed and are within the field size limit: the file tells the
    bookmarks and their order. *)
Theorem X14_dump_injective (path : string) (rows1 rows2 : list Bookmark) :
  Forall storable rows1 → Forall storable rows2 →
  CSVObjectStorage.dump (CSVObjectStorage.init path) rows1
  = CSVObjectStorage.dump (CSVObjectStorage.init path) rows2 →
  rows1 = rows2.
Proof.
  intros H1 H2 Hdump.
  pose proof (reader_dump path rows1 H1) as Hr1.
  rewrite Hdump, (reader_dump path rows2 H2) in Hr1.
  by apply map_iter_inj, yield_all_inj.
Qed.

Lemma X14_dump_injective_witness :
  let rows := [mkBookmark "a1" "http://x.com" "My Site"] in
  Forall storable rows ∧ rows = rows.
Proof.
  intros rows.
  assert (Hrows : Forall storable rows).
  { repeat constructor; vm_compute; discriminate. }
  split; [exact Hrows|].
  exact (X14_dump_injective "/home/u/.webmark" rows rows Hrows Hrows eq_refl).
Defined.

(** ** A file edited by hand *)

Lemma lines_from_unix_line (cur body rest : string) :
  plain body = true →
  lines_from cur (translate_in (body ++ String LF rest))
  = (cur ++ body ++ chr LF) :: lines_from "" (translate_in rest).
Proof.
  revert cur. induction body as [|c body IH]; intros cur Hp.
  - by str_norm.
  - rewrite plain_cons in Hp. apply andb_prop in Hp as [Hc Hp].
    apply negb_true_iff in Hc. unfold Reader.is_newline in Hc.
    apply orb_false_elim in Hc as [Hlf Hcr].
    rewrite str_app_cons. simpl. rewrite Hcr. simpl. rewrite Hlf.
    rewrite IH by done. by str_norm.
Qed.

Lemma lines_from_last (cur body : string) :
  plain body = true →
  lines_from cur (translate_in body)
  = match cur ++ body with "" => [] | line => [line] end.
Proof.
  revert cur. induction body as [|c body IH]; intros cur Hp.
  - rewrite str_app_nil_r. by destruct cur.
  - rewrite plain_cons in Hp. apply andb_prop in Hp as [Hc Hp].
    apply negb_true_iff in Hc. unfold Reader.is_newline in Hc.
    apply orb_false_elim in Hc as [Hlf Hcr].
    simpl. rewrite Hcr. simpl. rewrite Hlf.
    rewrite IH by done. by str_norm.
Qed.

Lemma feed_line_app (self : Reader.ReaderObj) (a b : string) :
  Reader.feed_line fmt self (a ++ b)
  = match Reader.feed fmt self a with
    | Ok self' => Reader.feed_line fmt self' b
    | Raise e => Raise e
    end.
Proof.
  unfold Reader.feed_line. rewrite feed_app.
  by destruct (Reader.feed fmt self a).
Qed.

(** The last field and the end of the line after it. *)
Lemma feed_line_encoded fs (f : string) :
  fits f →
  Reader.feed_line fmt (mk fs "" Reader.START_FIELD) (encoded f)
  = Ok (mk (fs ++ [f]) "" Reader.START_RECORD).
Proof.
  intros Hfit.
  rewrite <- (str_app_nil_r (encoded f)), feed_line_app.
  unfold encoded. destruct (has_special f) eqn:Hs.
  - str_norm. simpl. rewrite set_state_mk, feed_app, feed_in_quoted by done.
    simpl. rewrite set_state_mk. unfold Reader.feed_line. simpl.
    unfold Reader.parse_process_char. simpl.
    rewrite parse_save_field_mk, set_state_mk. by str_norm.
  - destruct f as [|c f]; [done|].
    simpl in Hs. apply orb_false_elim in Hs as [Hc Hf].
    apply special_false in Hc as (Hsp & Hq & Hnl).
    apply (fits_step "") in Hfit as [Hlt Hfit].
    simpl. unfold Reader.parse_process_char at 1. simpl.
    rewrite Hnl, Hq, Hsp, set_state_mk. rewrite feed_in_field by done.
    unfold Reader.feed_line. simpl.
    unfold Reader.parse_process_char. simpl.
    rewrite parse_save_field_mk, set_state_mk. by str_norm.
Qed.

(** The line of a bookmark without a line end. *)
Lemma feed_line_unended (b : Bookmark) :
  storable b →
  Reader.feed_line fmt Reader.parse_reset (line_of b)
  = Ok (mk (Bookmark_iter b) "" Reader.START_RECORD).
Proof.
  intros ([_ Hc] & [_ Hu] & [_ Hd]).
  unfold Reader.parse_reset, line_of.
  destruct (encoded_head (code b)
              (encoded (url b) ++ String SPACE (encoded (description b))))
    as (c & s & E & Hnl).
  assert (Hstart :
            Reader.feed_line fmt (mk [] "" Reader.START_RECORD) (String c s)
            = Reader.feed_line fmt (mk [] "" Reader.START_FIELD) (String c s)).
  { unfold Reader.feed_line. by rewrite feed_start_record. }
  rewrite E, Hstart, <- E.
  unfold Reader.feed_line at 1. rewrite !feed_encoded_delimiter by done.
  exact (feed_line_encoded (([] ++ [code b]) ++ [url b]) (description b) Hd).
Qed.

Lemma line_of_not_empty (b : Bookmark) : ∃ c s, line_of b = String c s.
Proof. unfold line_of. apply str_app_not_empty. Qed.

Lemma reader_lines_text (items : list (Bookmark * bool)) (tail : string)
    (rows : list (list string)) :
  Forall storable items.*1 →
  Reader.reader fmt (file_lines tail) = yield_all rows →
  Reader.reader fmt (file_lines (lines_text items ++ tail))
  = yield_all (map Bookmark_iter items.*1 ++ rows).
Proof.
  intros Hitems Htail.
  induction items as [|[b crlf] items IH]; [done|].
  rewrite fmap_cons in Hitems. apply Forall_cons in Hitems as [Hb Hitems].
  specialize (IH Hitems). unfold file_lines, Reader.reader in *.
  unfold lines_text in *. cbn [map str_concat].
  unfold ended_line at 1. cbn [fst snd] in *. rewrite !str_app_assoc.
  assert (Hlines :
            lines_from ""
              (translate_in
                 (line_of b ++ (if crlf then lineterminator else chr LF)
                  ++ str_concat (map ended_line items) ++ tail))
            = (line_of b ++ chr LF)
              :: lines_from ""
                   (translate_in (str_concat (map ended_line items) ++ tail))).
  { destruct crlf.
    - by rewrite lines_from_line, str_app_nil_l by by apply plain_line_of.
    - unfold chr at 1. rewrite str_app_cons, str_app_nil_l.
      by rewrite lines_from_unix_line, str_app_nil_l by by apply plain_line_of. }
  rewrite Hlines. cbn [Reader.rows_from].
  rewrite feed_line_Bookmark by done. rewrite fmap_cons. simpl. by rewrite IH.
Qed.

(** X15.  [load] reads a file whose lines end with CR LF or with a line
    feed alone, in any mixture, and whose last line may have no line end
    at all: it yields the rows of the bookmarks, in order.  (The fields
    hold no carriage return and no line feed and are within the field
    size limit.) *)
Theorem X15_load_line_ends (path : string) (w : World)
    (items : list (Bookmark * bool)) (final : Bookmark) :
  Forall storable items.*1 →
  storable final →
  let self := CSVObjectStorage.init path in
  (fs w !! path = Some (lines_text items) →
   (CSVObjectStorage.load self w).1 = Ok (yield_all (map Bookmark_iter items.*1)))
  ∧ (fs w !! path = Some (lines_text items ++ line_of final) →
     (CSVObjectStorage.load self w).1
     = Ok (yield_all (map Bookmark_iter (items.*1 ++ [final])))).
Proof.
  intros Hitems Hfinal self. split.
  - intros Hfile. unfold CSVObjectStorage.load, self.
    cbn [filename CSVObjectStorage.init csv_format]. rewrite Hfile.
    cbn [fst]. f_equal.
    rewrite <- (str_app_nil_r (lines_text items)).
    rewrite (reader_lines_text items "" []) by done. by rewrite app_nil_r.
  - intros Hfile. unfold CSVObjectStorage.load, self.
    cbn [filename CSVObjectStorage.init csv_format]. rewrite Hfile.
    cbn [fst]. f_equal.
    rewrite (reader_lines_text items (line_of final) [Bookmark_iter final]).
    + by rewrite map_app.
    + done.
    + unfold file_lines, Reader.reader.
      rewrite lines_from_last by by apply plain_line_of.
      rewrite str_app_nil_l.
      destruct (line_of_not_empty final) as (c & s & E). rewrite E, <- E.
      cbn [Reader.rows_from]. by rewrite feed_line_unended.
Qed.

Lemma X15_load_line_ends_witness :
  let items := [(mkBookmark "a1" "http://x.com" "My Site", true);
                (mkBookmark "b2" "http://y.com" "", false)] in
  let final := mkBookmark "c3" "http://z.com" "last" in
  let w := mkWorld {[ "/home/u/.webmark" := lines_text items ++ line_of final ]} [] in
  (CSVObjectStorage.load (CSVObjectStorage.init "/home/u/.webmark") w).1
  = Ok (yield_all [["a1"; "http://x.com"; "My Site"];
                   ["b2"; "http://y.com"; ""];
                   ["c3"; "http://z.com"; "last"]]).
Proof.
  intros items final w.
  assert (Hitems : Forall storable items.*1).
  { repeat constructor; vm_compute; discriminate. }
  assert (Hfinal : storable final).
  { repeat constructor; vm_compute; discriminate. }
  exact (proj2 (X15_load_line_ends "/home/u/.webmark" w items final Hitems Hfinal)
           eq_refl).
Defined.

(** ** Two invocations *)

Section two_invocations.

Variable parse_args : list string → result Settings.

Lemma main_runs (p : Process) (s : Settings) (w w1 w2 : World)
    (app app2 : BookmarksApp) :
  Settings.init parse_args p = Ok s →
  BookmarksApp.init s w = (Ok app, w1) →
  BookmarksApp.run (app, w1) = (Ok (), (app2, w2)) →
  main parse_args p w = (Ok (), w2).
Proof.
  intros Hs Hinit Hrun. unfold main, body, bind, lift.
  by rewrite Hs, Hinit, Hrun.
Qed.

(** X16.  The first bookmark.  With no file at the storage path, an
    invocation of [add] with a code, a url and a description (their
    fields without carriage return and line feed, and within the field
    size limit) returns and leaves a file of one line, the three fields
    as [save] writes them; an invocation of [list] on the same storage
    path then prints the one line [[code] url - description], returns,
    and leaves the files as they are. *)
Theorem X16_add_then_list (p1 p2 : Process) (w : World) (c u d path : string)
    (f1 f2 : bool) (args2 : list string) :
  Settings.init parse_args p1
  = Ok {| command := cmd_add; command_args := [c; u; d]; force := f1;
          storage_path := path |} →
  Settings.init parse_args p2
  = Ok {| command := cmd_list; command_args := args2; force := f2;
          storage_path := path |} →
  fs w !! path = None →
  storable (mkBookmark c u d) →
  let w1 := {| fs := <[path := line_of (mkBookmark c u d) ++ lineterminator]> (fs w);
               trace := trace w ++ [Loaded path; Saved path] |} in
  main parse_args p1 w = (Ok (), w1)
  ∧ main parse_args p2 w1
    = (Ok (),
       {| fs := fs w1;
          trace := trace w1
                   ++ [Loaded path; Printed ("[" ++ c ++ "] " ++ u ++ " - " ++ d)] |}).
Proof.
  intros Hs1 Hs2 Hfile Hb w1.
  set (b := mkBookmark c u d) in *.
  set (s1 := {| command := cmd_add; command_args := [c; u; d]; force := f1;
                storage_path := path |}) in *.
  set (s2 := {| command := cmd_list; command_args := args2; force := f2;
                storage_path := path |}) in *.
  set (app1 := {| settings := s1; storage := CSVObjectStorage.init path;
                  bookmarks := [] |}).
  set (app2 := {| settings := s2; storage := CSVObjectStorage.init path;
                  bookmarks := [(c, b)] |}).
  assert (Hdump : CSVObjectStorage.dump (CSVObjectStorage.init path) [b]
                  = line_of b ++ lineterminator).
  { rewrite dump_cons. unfold CSVObjectStorage.dump. cbn [map str_concat].
    by str_norm. }
  split.
  - apply (main_runs p1 s1 w (log (Loaded path) w) w1 app1
             (with_bookmarks app1 [(c, b)]) Hs1).
    + unfold BookmarksApp.init, bind, lift, ret, CSVObjectStorage.load.
      cbn [filename CSVObjectStorage.init storage_path s1]. by rewrite Hfile.
    + unfold BookmarksApp.run, bind, BookmarksApp.self.
      cbn [fst settings command app1 s1].
      rewrite (add_stores app1 _ c u d eq_refl (or_intror eq_refl)).
      unfold saved_world, log, w1.
      cbn [storage bookmarks app1 filename CSVObjectStorage.init fs trace
           OrderedDict.setitem OrderedDict.values fmap list_fmap snd].
      fold b. rewrite Hdump. by rewrite <- app_assoc.
  - apply (main_runs p2 s2 w1 (log (Loaded path) w1) _ app2 app2 Hs2).
    + apply (init_on_dump s2 w1 [(c, b)]).
      * split; [apply NoDup_singleton|by apply Forall_singleton].
      * change (Forall storable [b]). by apply Forall_singleton.
      * unfold w1. cbn [fs storage_path s2]. rewrite lookup_insert_eq.
        by rewrite <- Hdump.
    + unfold BookmarksApp.run, bind, BookmarksApp.self.
      cbn [fst settings command app2 s2].
      unfold BookmarksApp.list, bind, BookmarksApp.self, ret.
      cbn [fst bookmarks app2]. rewrite for_each_print.
      cbn [log fs trace OrderedDict.values fmap list_fmap snd map].
      unfold Bookmark_str, b. cbn [code url description].
      by rewrite <- app_assoc.
Qed.

End two_invocations.

Lemma X16_add_then_list_witness :
  let p1 := {| argv := ["add"; "a1"; "http://example.com"; "My Site"];
               environ := {[ "HOME" := "/home/u" ]};
               pw_dir_self := None;
               pw_dir := λ _, None |} in
  let p2 := {| argv := ["list"];
               environ := {[ "HOME" := "/home/u" ]};
               pw_dir_self := None;
               pw_dir := λ _, None |} in
  let w1 := (main argparse.parse_args p1 (mkWorld ∅ [])).2 in
  fs w1 !! "/home/u/.webmark"
  = Some ("a1 http://example.com " ++ chr DQUOTE ++ "My Site" ++ chr DQUOTE
          ++ lineterminator)
  ∧ trace (main argparse.parse_args p2 w1).2
    = [Loaded "/home/u/.webmark"; Saved "/home/u/.webmark";
       Loaded "/home/u/.webmark"; Printed "[a1] http://example.com - My Site"].
Proof.
  intros p1 p2 w1.
  assert (Hb : storable (mkBookmark "a1" "http://example.com" "My Site")).
  { repeat constructor; vm_compute; discriminate. }
  destruct (X16_add_then_list argparse.parse_args p1 p2 (mkWorld ∅ [])
              "a1" "http://example.com" "My Site" "/home/u/.webmark"
              false false [] eq_refl eq_refl (lookup_empty _) Hb) as [H1 H2].
  unfold w1. rewrite H1. cbn [snd]. split.
  - cbn [fs]. by rewrite lookup_insert_eq.
  - by rewrite H2.
Defined.

(** ** The reader is lenient *)

Lemma translate_in_cons (c : ascii) (s : string) :
  translate_in (String c s)
  = if ascii_eqb c CR
    then match s with
         | String d s'' =>
             if ascii_eqb d LF then String LF (translate_in s'')
             else String LF (translate_in s)
         | "" => chr LF
         end
    else String c (translate_in s).
Proof. by destruct s. Qed.

Lemma str_contains_CR_cons (c : ascii) (s : string) :
  str_contains CR (String c s) = ascii_eqb c CR || str_contains CR s.
Proof.
  simpl. unfold ascii_eqb. by rewrite (bool_decide_ext (CR = c) (c = CR)).
Qed.

Lemma translate_in_no_CR (s : string) : str_contains CR (translate_in s) = false.
Proof.
  assert (H : ∀ n s, (String.length s < n)%nat →
                     str_contains CR (translate_in s) = false).
  { clear s. induction n as [|n IH]; intros s Hlen; [lia|].
    destruct s as [|c s]; [done|]. rewrite translate_in_cons.
    cbn [String.length] in Hlen.
    destruct (ascii_eqb c CR) eqn:Hc.
    - destruct s as [|d s]; [done|]. cbn [String.length] in Hlen.
      destruct (ascii_eqb d LF) eqn:Hd; rewrite str_contains_CR_cons;
        (rewrite IH; [done|cbn [String.length]; lia]).
    - rewrite str_contains_CR_cons, Hc. apply IH. lia. }
  apply (H (S (String.length s))). lia.
Qed.

Lemma translate_in_length (s : string) :
  (String.length (translate_in s) <= String.length s)%nat.
Proof.
  assert (H : ∀ n s, (String.length s < n)%nat →
                     (String.length (translate_in s) <= String.length s)%nat).
  { clear s. induction n as [|n IH]; intros s Hlen; [lia|].
    destruct s as [|c s]; [done|]. rewrite translate_in_cons.
    cbn [String.length] in *.
    destruct (ascii_eqb c CR).
    - destruct s as [|d s]; [simpl; lia|]. cbn [String.length] in *.
      destruct (ascii_eqb d LF); cbn [String.length].
      + assert (String.length (translate_in s) <= String.length s)%nat
          by (apply IH; lia). lia.
      + assert (String.length (translate_in (String d s))
                <= String.length (String d s))%nat
          by (apply IH; cbn [String.length]; lia).
        cbn [String.length] in *. lia.
    - cbn [String.length].
      assert (String.length (translate_in s) <= String.length s)%nat
        by (apply IH; lia). lia. }
  apply (H (S (String.length s))). lia.
Qed.

Lemma parse_process_char_chr (self : Reader.ReaderObj) (c : ascii) :
  (N.of_nat (String.length (Reader.field self)) < field_limit)%N →
  Reader.state self ≠ Reader.EAT_CRNL ∨ Reader.is_newline c = true →
  ∃ self',
    Reader.parse_process_char fmt self (Reader.Chr c) = Ok self'
    ∧ (String.length (Reader.field self')
       <= S (String.length (Reader.field self)))%nat
    ∧ (Reader.is_newline c = false → Reader.state self' ≠ Reader.EAT_CRNL).
Proof.
  destruct self as [fs acc st]. cbn [Reader.field Reader.state].
  intros Hlt Hst.
  assert (Hlen : String.length (acc ++ chr c) = S (String.length acc)).
  { rewrite str_length_app. simpl. lia. }
  unfold Reader.parse_process_char, Reader.start_field.
  cbn [Reader.state].
  destruct st; destruct (Reader.is_newline c) eqn:Hnl;
    try (destruct Hst as [Hst|Hst]; [by destruct Hst|discriminate]);
    repeat match goal with
           | |- context [ascii_eqb ?a ?b] => destruct (ascii_eqb a b)
           end;
    rewrite ?set_state_mk, ?parse_save_field_mk;
    rewrite ?parse_add_char_ok by done;
    rewrite ?set_state_mk;
    (eexists; split; [reflexivity|]);
    cbn [Reader.field Reader.state Reader.set_state Reader.parse_save_field
         String.length];
    rewrite ?Hlen; (split; [lia|done]).
Qed.

Lemma parse_process_char_EOL (self : Reader.ReaderObj) :
  ∃ self',
    Reader.parse_process_char fmt self Reader.EOL = Ok self'
    ∧ (String.length (Reader.field self') <= String.length (Reader.field self))%nat
    ∧ (Reader.state self' = Reader.START_RECORD
       ∨ Reader.state self' = Reader.IN_QUOTED_FIELD).
Proof.
  destruct self as [fs acc st].
  unfold Reader.parse_process_char, Reader.start_field.
  destruct st; (eexists; split; [reflexivity|]);
    cbn [Reader.field Reader.state Reader.set_state Reader.parse_save_field
         String.length]; (split; [lia|auto]).
Qed.

Lemma rows_from_end (self : Reader.ReaderObj) :
  gen_exn (Reader.rows_from fmt self []) = None.
Proof. simpl. by case_match. Qed.

(** The reader on a text without carriage return: [cur] is the part of
    the line that was read, [s] the text that follows. *)
Lemma rows_from_no_exn (s cur : string) (self selfc : Reader.ReaderObj) :
  str_contains CR s = false →
  Reader.feed fmt self cur = Ok selfc →
  Reader.state selfc ≠ Reader.EAT_CRNL →
  (N.of_nat (String.length (Reader.field selfc)) + N.of_nat (String.length s)
   <= field_limit)%N →
  gen_exn (Reader.rows_from fmt self (lines_from cur s)) = None.
Proof.
  revert cur self selfc.
  induction s as [|c s IH]; intros cur self selfc Hcr Hfeed Hst Hlen.
  - cbn [lines_from]. destruct cur as [|d cur]; [apply rows_from_end|].
    cbn [Reader.rows_from]. unfold Reader.feed_line. rewrite Hfeed.
    destruct (parse_process_char_EOL selfc) as (self' & -> & _ & _).
    case_match; cbn [gen_exn]; apply rows_from_end.
  - rewrite str_contains_CR_cons in Hcr.
    apply orb_false_elim in Hcr as [Hc Hcr].
    cbn [String.length] in Hlen. cbn [lines_from].
    destruct (ascii_eqb c LF) eqn:Hlf.
    + cbn [Reader.rows_from]. rewrite feed_line_app, Hfeed.
      unfold Reader.feed_line. cbn [Reader.feed chr].
      destruct (parse_process_char_chr selfc c) as (self1 & -> & Hlen1 & _).
      { lia. }
      { right. unfold Reader.is_newline. by rewrite Hlf. }
      destruct (parse_process_char_EOL self1) as (self2 & -> & Hlen2 & Hst2).
      case_match; cbn [gen_exn].
      * apply (IH "" Reader.parse_reset Reader.parse_reset); try done.
        cbn [Reader.parse_reset Reader.field String.length]. lia.
      * apply (IH "" self2 self2); try done.
        -- by destruct Hst2 as [->| ->].
        -- lia.
    + destruct (parse_process_char_chr selfc c) as (self1 & Hstep & Hlen1 & Hst1).
      { lia. }
      { by left. }
      apply (IH (cur ++ chr c) self self1); try done.
      * rewrite feed_app, Hfeed. cbn [Reader.feed chr]. by rewrite Hstep.
      * apply Hst1. unfold Reader.is_newline. by rewrite Hlf, Hc.
      * lia.
Qed.

Lemma gen_exn_None {A} (g : generated A) :
  gen_exn g = None → ∃ l, g = yield_all l.
Proof.
  induction g as [|x g IH|e]; simpl; [by exists []| |done].
  intros (l & ->)%IH. by exists (x :: l).
Qed.

(** X17.  The reader of [load] raises no [csv.Error] on the lines of a
    text of at most 131072 characters, whatever the text: quotes that do
    not match, lines of any number of fields and any line ends are read
    as rows, and the generator ends with [StopIteration]. *)
Theorem X17_reader_small_text (path content : string) :
  (N.of_nat (String.length content) <= field_limit)%N →
  ∃ rows, Reader.reader (csv_format (CSVObjectStorage.init path))
            (file_lines content)
          = yield_all rows.
Proof.
  intros Hlen. cbn [CSVObjectStorage.init csv_format].
  apply gen_exn_None.
  unfold Reader.reader, file_lines.
  apply (rows_from_no_exn _ "" Reader.parse_reset Reader.parse_reset).
  - apply translate_in_no_CR.
  - done.
  - done.
  - pose proof (translate_in_length content).
    cbn [Reader.parse_reset Reader.field String.length]. lia.
Qed.

Lemma X17_reader_small_text_witness :
  let content := "a1 " ++ chr DQUOTE ++ "http://x.com stray quote" ++ chr CR
                 ++ "b2" ++ chr LF in
  ∃ rows, Reader.reader (csv_format (CSVObjectStorage.init "/home/u/.webmark"))
            (file_lines content)
          = yield_all rows.
Proof.
  intros content.
  apply (X17_reader_small_text "/home/u/.webmark" content).
  vm_compute. discriminate.
Defined.

(** ** The last bookmark *)

(** X18.  [rm] of the only bookmark of the collection returns and leaves
    an empty file at the storage path.  The next invocation on that path
    is built with an empty collection, and its [list] prints the line of
    the empty collection. *)
Theorem X18_rm_last (app : BookmarksApp) (w : World) (c : string) (b : Bookmark)
    (next : Settings) :
  command_args (settings app) = [c] →
  bookmarks app = [(c, b)] →
  storage app = CSVObjectStorage.init (storage_path (settings app)) →
  storage_path next = storage_path (settings app) →
  command next = cmd_list →
  let after := (BookmarksApp.rm (app, w)).2 in
  let app' := {| settings := next;
                 storage := CSVObjectStorage.init (storage_path next);
                 bookmarks := [] |} in
  let w' := log (Loaded (storage_path next)) after.2 in
  (BookmarksApp.rm (app, w)).1 = Ok ()
  ∧ bookmarks after.1 = []
  ∧ fs after.2 !! storage_path (settings app) = Some ""
  ∧ BookmarksApp.init next after.2 = (Ok app', w')
  ∧ BookmarksApp.run (app', w')
    = (Ok (), (app', log (Printed (chr TAB ++ "It's empty here!  :(  ")) w')).
Proof.
  intros Hargs Hbook Hstorage Hpath Hcmd after app' w'.
  assert (Hget : OrderedDict.get c (bookmarks app) = Some b).
  { rewrite Hbook. simpl. by rewrite bool_decide_eq_true_2. }
  assert (Hrm : BookmarksApp.rm (app, w)
                = (Ok (), (with_bookmarks app [],
                           saved_world (storage app) [] w))).
  { rewrite (rm_present app w c [] b Hargs Hget). rewrite Hbook. simpl.
    by rewrite bool_decide_eq_true_2. }
  assert (Hfile : fs after.2 !! storage_path (settings app) = Some "").
  { unfold after. rewrite Hrm. cbn [snd saved_world fs]. rewrite Hstorage.
    cbn [filename CSVObjectStorage.init]. by rewrite lookup_insert_eq. }
  split; [by rewrite Hrm|]. split; [unfold after; by rewrite Hrm|].
  split; [exact Hfile|]. split.
  - unfold BookmarksApp.init, bind, lift, ret, CSVObjectStorage.load.
    cbn [filename CSVObjectStorage.init]. rewrite <- Hpath in Hfile.
    by rewrite Hfile.
  - unfold BookmarksApp.run, bind, BookmarksApp.self.
    cbn [fst settings app']. by rewrite Hcmd.
Qed.

Lemma X18_rm_last_witness :
  let app := {| settings := {| command := cmd_rm; command_args := ["a1"];
                               force := false;
                               storage_path := "/home/u/.webmark" |};
                storage := CSVObjectStorage.init "/home/u/.webmark";
                bookmarks := [("a1", mkBookmark "a1" "http://x.com" "desc")] |} in
  let next := {| command := cmd_list; command_args := []; force := false;
                 storage_path := "/home/u/.webmark" |} in
  let w := mkWorld {[ "/home/u/.webmark" :=
                        "a1 http://x.com desc" ++ lineterminator ]} [] in
  fs (BookmarksApp.rm (app, w)).2.2 !! "/home/u/.webmark" = Some "".
Proof.
  intros app next w.
  exact (proj1 (proj2 (proj2
           (X18_rm_last app w "a1" (mkBookmark "a1" "http://x.com" "desc") next
              eq_refl eq_refl eq_refl eq_refl eq_refl)))).
Defined.

(** ** The place of the options on the command line *)

Lemma parse_optional_positional (a : string) :
  startswith "-" a = false → argparse.parse_optional a = Ok None.
Proof.
  intros Ha. unfold argparse.parse_optional. case_bool_decide; [done|].
  by rewrite Ha.
Qed.

Lemma no_dash_pattern (l l' : list string) :
  no_dash l →
  argparse.arg_strings_pattern (l ++ l')
  = match argparse.arg_strings_pattern l' with
    | Ok pattern => Ok (map argparse.Arg l ++ pattern)%list
    | Raise e => Raise e
    end.
Proof.
  induction 1 as [|a l Ha Hl IH].
  - simpl. by destruct (argparse.arg_strings_pattern l').
  - cbn [List.app argparse.arg_strings_pattern map].
    rewrite bool_decide_eq_false_2 by by apply not_option_not_separator.
    rewrite parse_optional_positional, IH by done.
    by destruct (argparse.arg_strings_pattern l').
Qed.

Lemma consume_args (l : list string) (pattern pending : list argparse.token)
    (st : argparse.state) :
  argparse.consume (map argparse.Arg l ++ pattern) pending st
  = argparse.consume pattern (pending ++ map argparse.Arg l) st.
Proof.
  revert pending. induction l as [|a l IH]; intros pending.
  - by rewrite app_nil_r.
  - cbn [map List.app argparse.consume]. rewrite IH.
    by rewrite <- app_assoc.
Qed.

Lemma remove_first_absent (x : string) (l : list string) :
  x ∉ l → argparse.remove_first x l = l.
Proof.
  induction l as [|y l IH]; [done|]. intros Hx.
  apply not_elem_of_cons in Hx as [Hne Hx]. cbn [argparse.remove_first].
  rewrite bool_decide_eq_false_2 by done. by rewrite IH.
Qed.

Lemma no_dash_separator (l : list string) : no_dash l → "--" ∉ l.
Proof.
  intros Hl Hin. by apply (proj1 (Forall_forall _ _) Hl) in Hin.
Qed.

Lemma span_args (l : list string) :
  argparse.span (map argparse.Arg l) = ([], map argparse.Arg l).
Proof. by destruct l. Qed.

Lemma Command_of_string_choice (c : string) (cmd : Command) :
  Command_of_string c = Some cmd →
  c ∈ argparse.choices ∧ startswith "-" c = false.
Proof.
  unfold Command_of_string, argparse.choices.
  repeat case_bool_decide; intros [=]; subst c; split; try done;
    apply (bool_decide_unpack _); by vm_compute.
Qed.

(** The positionals of a command and its arguments. *)
Lemma consume_positionals_command (c : string) (cmd : Command) (rest : list string)
    (st : argparse.state) :
  Command_of_string c = Some cmd → no_dash rest →
  argparse.positionals st = true →
  argparse.consume_positionals (map argparse.Arg (c :: rest)) st
  = Ok {| argparse.namespace :=
            {| argparse.ns_command := Some (argparse.Str c);
               argparse.ns_command_args := Some rest;
               argparse.ns_force := argparse.ns_force (argparse.namespace st);
               argparse.ns_storage_path :=
                 argparse.ns_storage_path (argparse.namespace st) |};
          argparse.positionals := false;
          argparse.extras := argparse.extras st |}.
Proof.
  intros (Hin & Hc)%Command_of_string_choice Hrest Hpos.
  unfold argparse.consume_positionals. rewrite Hpos.
  unfold argparse.match_arguments_partial.
  cbn [map argparse.span argparse.is_dash]. rewrite span_args.
  cbn [List.app map argparse.arg_string].
  unfold argparse.get_values. cbn [argparse.remove_first].
  rewrite bool_decide_eq_false_2 by by apply not_option_not_separator.
  unfold argparse.check_value. rewrite bool_decide_eq_true_2 by done.
  rewrite map_map. cbn [argparse.arg_string]. rewrite map_id.
  by rewrite remove_first_absent by by apply no_dash_separator.
Qed.

Lemma pattern_option (a : string) (t : argparse.option_tuple) (l : list string) :
  a ≠ "--" → argparse.parse_optional a = Ok (Some t) →
  argparse.arg_strings_pattern (a :: l)
  = match argparse.arg_strings_pattern l with
    | Ok pattern => Ok (argparse.Opt t :: pattern)
    | Raise e => Raise e
    end.
Proof.
  intros Ha Ht. cbn [argparse.arg_strings_pattern].
  by rewrite bool_decide_eq_false_2, Ht by done.
Qed.

Lemma parse_optional_f :
  argparse.parse_optional "-f" = Ok (Some (Some argparse.store_true, "-f", None)).
Proof. reflexivity. Qed.

Lemma parse_optional_storage_path :
  argparse.parse_optional "--storage-path"
  = Ok (Some (Some argparse.store, "--storage-path", None)).
Proof. reflexivity. Qed.

Lemma consume_storage_path_first (path : string) (pattern : list argparse.token) :
  path ≠ "--" →
  argparse.consume
    (argparse.Opt (Some argparse.store, "--storage-path", None)
     :: argparse.Arg path :: pattern) [] argparse.initial
  = argparse.consume pattern []
      {| argparse.namespace :=
           {| argparse.ns_command := None;
              argparse.ns_command_args := None;
              argparse.ns_force := false;
              argparse.ns_storage_path := argparse.Str path |};
         argparse.positionals := true;
         argparse.extras := [] |}.
Proof.
  intros Hpath. cbn [argparse.consume].
  change (argparse.consume_positionals [] argparse.initial)
    with (Ok argparse.initial).
  cbn [argparse.nargs List.app argparse.take_actions argparse.take_action].
  unfold argparse.get_values. cbn [argparse.remove_first].
  by rewrite bool_decide_eq_false_2 by done.
Qed.

(** X19.  The place of [-f] and of [--storage-path] on the command line.
    Let the command be one of the four and let no argument of it start
    with a dash.  The parser accepts the command followed by its
    arguments, with the defaults of the options; it accepts [-f] after
    the arguments and before the command, and [--storage-path] with a
    value before the command.  It refuses, with status 2, [-f] between
    the command and its arguments: the arguments that follow the option
    are no longer taken for those of the command. *)
Theorem X19_command_line (c : string) (cmd : Command) (rest : list string) :
  Command_of_string c = Some cmd →
  no_dash rest →
  let accepted f path :=
    Ok {| command := cmd; command_args := rest; force := f;
          storage_path := path |} in
  argparse.parse_args (c :: rest) = accepted false "~/.webmark"
  ∧ argparse.parse_args (c :: rest ++ ["-f"]) = accepted true "~/.webmark"
  ∧ argparse.parse_args ("-f" :: c :: rest) = accepted true "~/.webmark"
  ∧ (∀ path, startswith "-" path = false →
       argparse.parse_args ("--storage-path" :: path :: c :: rest)
       = accepted false path)
  ∧ (rest ≠ [] →
     argparse.parse_args (c :: "-f" :: rest) = Raise (SystemExit 2)).
Proof.
  intros Hcmd Hrest accepted.
  pose proof (Command_of_string_choice c cmd Hcmd) as [Hin Hc].
  assert (Hall : no_dash (c :: rest)) by by constructor.
  assert (Hsep : c ≠ "--") by by apply not_option_not_separator.
  split; [|split; [|split; [|split]]].
  - unfold argparse.parse_args, argparse.parse_known_args.
    rewrite <- (app_nil_r (c :: rest)), no_dash_pattern by done.
    cbn [argparse.arg_strings_pattern]. rewrite consume_args.
    cbn [argparse.consume List.app].
    rewrite (consume_positionals_command c cmd rest) by done.
    cbn. by rewrite Hcmd.
  - unfold argparse.parse_args, argparse.parse_known_args.
    rewrite (app_comm_cons rest ["-f"] c), no_dash_pattern by done.
    rewrite (pattern_option "-f" _ [] ltac:(done) parse_optional_f).
    cbn [argparse.arg_strings_pattern]. rewrite consume_args.
    cbn [argparse.consume List.app].
    rewrite (consume_positionals_command c cmd rest) by done.
    cbn. by rewrite Hcmd.
  - unfold argparse.parse_args, argparse.parse_known_args.
    rewrite (pattern_option "-f" _ _ ltac:(done) parse_optional_f).
    rewrite <- (app_nil_r (c :: rest)), no_dash_pattern by done.
    cbn [argparse.arg_strings_pattern]. cbn [argparse.consume].
    cbn. rewrite consume_args. cbn [argparse.consume List.app].
    rewrite (consume_positionals_command c cmd rest) by done.
    cbn. by rewrite Hcmd.
  - intros path Hpath.
    unfold argparse.parse_args, argparse.parse_known_args.
    rewrite (pattern_option "--storage-path" _ _ ltac:(done)
               parse_optional_storage_path).
    replace (path :: c :: rest) with ([path] ++ ((c :: rest) ++ []))%list
      by (by rewrite app_nil_r).
    rewrite no_dash_pattern by by constructor.
    rewrite no_dash_pattern by done.
    cbn [argparse.arg_strings_pattern map List.app].
    rewrite consume_storage_path_first by by apply not_option_not_separator.
    change (argparse.Arg c :: map argparse.Arg rest ++ [])%list
      with (map argparse.Arg (c :: rest) ++ [])%list.
    rewrite consume_args. cbn [argparse.consume List.app].
    rewrite (consume_positionals_command c cmd rest) by done.
    cbn. by rewrite Hcmd.
  - intros Hne.
    unfold argparse.parse_args, argparse.parse_known_args.
    change (c :: "-f" :: rest) with ([c] ++ ("-f" :: rest))%list.
    rewrite no_dash_pattern by by constructor.
    rewrite (pattern_option "-f" _ _ ltac:(done) parse_optional_f).
    replace rest with (rest ++ [])%list at 1 by (by rewrite app_nil_r).
    rewrite no_dash_pattern by done.
    cbn [argparse.arg_strings_pattern map List.app argparse.consume].
    rewrite (consume_positionals_command c cmd []) by (done || constructor).
    cbn [argparse.nargs argparse.take_actions argparse.take_action].
    rewrite consume_args. cbn [argparse.consume List.app].
    unfold argparse.consume_positionals, argparse.add_extras.
    cbn [argparse.positionals argparse.namespace argparse.extras
         argparse.initial List.app].
    rewrite map_map. cbn [argparse.arg_string]. rewrite map_id.
    by destruct rest.
Qed.

Lemma X19_command_line_witness :
  let rest := ["a1"; "http://x.com"; "My Site"] in
  argparse.parse_args ("add" :: rest ++ ["-f"])
  = Ok {| command := cmd_add; command_args := rest; force := true;
          storage_path := "~/.webmark" |}
  ∧ argparse.parse_args ("add" :: "-f" :: rest) = Raise (SystemExit 2).
Proof.
  intros rest.
  assert (Hrest : no_dash rest) by (by repeat constructor).
  split.
  - exact (proj1 (proj2 (X19_command_line "add" cmd_add rest eq_refl Hrest))).
  - apply (X19_command_line "add" cmd_add rest eq_refl Hrest). discriminate.
Defined.
